(** * CYOA-Engine: story-text pipeline and page addressing

    A shallow embedding of the TypeScript sources
      - shared/utils.ts   (page ids, directive parsers, evaluateCondition)
      - shared/format.ts  (editor preview pipeline)
      - engine/variables.ts, engine/player.ts
      - editor/pages.ts, editor/graph.ts
    together with the properties stated about them.

    Conventions.
    - A JavaScript string is a [list ascii]: a sequence of code units, here
      restricted to code units below 256.  String literals are written with
      the usual notation and coerced.
    - A JavaScript object used as a dictionary ([Record<string, T>]) is a
      [gmap] over its own string keys; [obj[k]] being truthy is [k] being a
      key, since all stored values are objects.
    - Page numbers are natural numbers ([N]); [parseInt] of a digit string is
      exact on them, as it is in JavaScript below 2^53.
    - The numbers held by story variables are IEEE doubles in JavaScript; the
      embedding is parametric in them (class [JSNumber]).
    - Each regular expression of the sources is embedded as the deterministic
      matcher it denotes at one start position; global scans ([exec] loops and
      [replace] with the g flag) are embedded once, generically. *)

From Stdlib Require Import Ascii String NArith ZArith Lia List Sorted.
From Stdlib Require Import Decimal DecimalN DecimalPos.
From stdpp Require Import base strings list gmap.

Abbreviation jsstring := (list ascii).

Coercion list_ascii_of_string : string >-> list.

(** ** Characters and character classes *)

Definition code (c : ascii) : nat := nat_of_ascii c.

Definition between (lo hi : nat) (c : ascii) : bool :=
  (lo <=? code c)%nat && (code c <=? hi)%nat.

(** [\d] *)
Definition isDigit (c : ascii) : bool := between 48 57 c.

(** [\w], that is [[A-Za-z0-9_]] *)
Definition isWord (c : ascii) : bool :=
  between 97 122 c || between 65 90 c || between 48 57 c || (code c =? 95)%nat.

(** [[a-e]] under the i flag *)
Definition isChoiceLetter (c : ascii) : bool :=
  between 97 101 c || between 65 69 c.

(** [\s] and the characters removed by [String.prototype.trim] *)
Definition isSpace (c : ascii) : bool :=
  between 9 13 c || (code c =? 32)%nat || (code c =? 160)%nat.

(** Line terminators: excluded by [.], delimiting [^] and [$] under the m flag *)
Definition isLineTerminator (c : ascii) : bool :=
  (code c =? 10)%nat || (code c =? 13)%nat.

(** [toLowerCase] on one code unit *)
Definition lowerChar (c : ascii) : ascii :=
  if between 65 90 c || (between 192 222 c && negb (code c =? 215)%nat)
  then ascii_of_nat (code c + 32)
  else c.

Definition toLowerCase (s : jsstring) : jsstring := map lowerChar s.

Definition eqChar (a b : ascii) : bool := Ascii.eqb a b.

(** Equality of code units under the i flag *)
Definition eqCharCI (a b : ascii) : bool := Ascii.eqb (lowerChar a) (lowerChar b).

Fixpoint eqString (a b : jsstring) : bool :=
  match a, b with
  | [], [] => true
  | x :: a', y :: b' => eqChar x y && eqString a' b'
  | _, _ => false
  end.

(** ** Regular-expression building blocks *)

(** The longest prefix of [s] whose characters satisfy [p], and what follows:
    a greedy character-class repetition. *)
Fixpoint span (p : ascii -> bool) (s : jsstring) : jsstring * jsstring :=
  match s with
  | [] => ([], [])
  | c :: s' =>
      if p c then let (a, b) := span p s' in (c :: a, b) else ([], s)
  end.

(** A literal at the start of [s]; the remainder on success. *)
Fixpoint lit (eq : ascii -> ascii -> bool) (p s : jsstring) : option jsstring :=
  match p with
  | [] => Some s
  | x :: p' =>
      match s with
      | [] => None
      | c :: s' => if eq x c then lit eq p' s' else None
      end
  end.

Definition startsWith (s p : jsstring) : bool :=
  match lit eqChar p s with Some _ => true | None => false end.

Definition startsWithCI (s p : jsstring) : bool :=
  match lit eqCharCI p s with Some _ => true | None => false end.

(** [trim] *)
Fixpoint trimStart (s : jsstring) : jsstring :=
  match s with
  | c :: s' => if isSpace c then trimStart s' else s
  | [] => []
  end.

Definition trim (s : jsstring) : jsstring := rev (trimStart (rev (trimStart s))).

(** ** Global scans

    A matcher tells, for the text at the current position, the value of a
    match starting there and the text remaining after it.  The sources only
    use patterns whose matches are non-empty. *)

Section Scan.
Context {A : Type}.

(** The first argument of a matcher tells whether the position is the
    start of a line, which is what [^] tests under the m flag. *)
Variable m : bool -> jsstring -> option (A * jsstring).

(** The length of the match the matcher reports at the head of [s]. *)
Definition matchLength (s rest : jsstring) : nat := length s - length rest.

(** The loop [while ((match = re.exec(text)) !== null)] of a g-flagged
    expression: the matches from left to right with their offsets, each
    search resuming where the previous match ended.  [skip] counts the
    characters of the current match still to pass. *)
Fixpoint execFrom (pos skip : nat) (bol : bool) (s : jsstring) : list (nat * A) :=
  match s with
  | [] => []
  | c :: s' =>
      let bol' := isLineTerminator c in
      match skip with
      | S k => execFrom (S pos) k bol' s'
      | O =>
          match m bol s with
          | Some (a, rest) =>
              (pos, a) :: execFrom (S pos) (pred (matchLength s rest)) bol' s'
          | None => execFrom (S pos) 0 bol' s'
          end
      end
  end.

Definition execAll (s : jsstring) : list (nat * A) := execFrom 0 0 true s.

(** [text.replace(re, f)] with the g flag; the flag tells whether any
    replacement happened. *)
Fixpoint replaceFrom (f : A -> jsstring) (skip : nat) (bol : bool) (s : jsstring)
  : jsstring * bool :=
  match s with
  | [] => ([], false)
  | c :: s' =>
      let bol' := isLineTerminator c in
      match skip with
      | S k => replaceFrom f k bol' s'
      | O =>
          match m bol s with
          | Some (a, rest) =>
              (f a ++ fst (replaceFrom f (pred (matchLength s rest)) bol' s'), true)
          | None =>
              let r := replaceFrom f 0 bol' s' in (c :: fst r, snd r)
          end
      end
  end.

Definition replaceAll (f : A -> jsstring) (s : jsstring) : jsstring :=
  fst (replaceFrom f 0 true s).
End Scan.

(** A pattern without anchors matches the same way at every position. *)
Definition unanchored {A} (m : jsstring -> option (A * jsstring))
  : bool -> jsstring -> option (A * jsstring) := fun _ => m.

(** [text.replace(needle, '')] with a string pattern: the first occurrence
    of [needle] is removed. *)
Fixpoint removeFirst (needle s : jsstring) : jsstring :=
  match lit eqChar needle s with
  | Some rest => rest
  | None =>
      match s with
      | [] => []
      | c :: s' => c :: removeFirst needle s'
      end
  end.

(** ** Page addressing (shared/utils.ts) *)

Definition digitOfChar (c : ascii) (d : uint) : uint :=
  match code c - 48 with
  | 0 => D0 d | 1 => D1 d | 2 => D2 d | 3 => D3 d | 4 => D4 d
  | 5 => D5 d | 6 => D6 d | 7 => D7 d | 8 => D8 d | _ => D9 d
  end%nat.

Fixpoint uintOfDigits (ds : jsstring) : uint :=
  match ds with
  | [] => Nil
  | c :: ds' => digitOfChar c (uintOfDigits ds')
  end.

Fixpoint digitsOfUint (d : uint) : jsstring :=
  match d with
  | Nil => []
  | D0 d => "0"%char :: digitsOfUint d
  | D1 d => "1"%char :: digitsOfUint d
  | D2 d => "2"%char :: digitsOfUint d
  | D3 d => "3"%char :: digitsOfUint d
  | D4 d => "4"%char :: digitsOfUint d
  | D5 d => "5"%char :: digitsOfUint d
  | D6 d => "6"%char :: digitsOfUint d
  | D7 d => "7"%char :: digitsOfUint d
  | D8 d => "8"%char :: digitsOfUint d
  | D9 d => "9"%char :: digitsOfUint d
  end.

(** [parseInt(ds, 10)] on a string of decimal digits *)
Definition parseInt (ds : jsstring) : N := N.of_uint (uintOfDigits ds).

(** The decimal rendering of a number inside a template literal *)
Definition numberToString (n : N) : jsstring := digitsOfUint (N.to_uint n).

Record ParsedPageId := { num : N; path : jsstring }.

(** [id.match(re)] for the expression <<^(\d+)([a-e]* )$>> with the i flag:
    digits, then choice letters, then the end of the string. *)
Definition parsePageId (id : jsstring) : option ParsedPageId :=
  let (ds, rest) := span isDigit id in
  match ds with
  | [] => None
  | _ =>
      let (ls, rest') := span isChoiceLetter rest in
      match rest' with
      | [] => Some {| num := parseInt ds; path := toLowerCase ls |}
      | _ => None
      end
  end.

(** shared/format.ts *)
Definition formatSaveCode (page : N) (path : jsstring) : jsstring :=
  if (page =? 1)%N && eqString path [] then "1"
  else numberToString page ++ path.

(** [Record<string, string>] built by insertion: letter, child id. *)
Definition getChildIds (pageId : jsstring) (choiceCount : nat)
  : list (jsstring * jsstring) :=
  match parsePageId pageId with
  | None => []
  | Some parsed =>
      let nextNum := (num parsed + 1)%N in
      let basePath := path parsed in
      let letters := take choiceCount "abcde" in
      map (fun letter => ([letter], numberToString nextNum ++ basePath ++ [letter]))
          letters
  end.

Section Descendants.
Context {P : Type}.
Variable pages : gmap jsstring P.



End Descendants.

(** ** Player state (engine/player.ts) *)

Record PlayerState (V M : Type) := {
  currentPage : N;
  currentPath : jsstring;
  choiceLog : list jsstring;
  variables : V;
  storyFolder : jsstring;
  isPlaying : bool;
  metadata : option M
}.
Arguments currentPage {V M}.
Arguments currentPath {V M}.
Arguments choiceLog {V M}.
Arguments variables {V M}.
Arguments storyFolder {V M}.
Arguments isPlaying {V M}.
Arguments metadata {V M}.

(** An empty string is falsy, so [if (gotoPage)] fails on it as on
    [undefined]. *)
Definition truthyString (o : option jsstring) : option jsstring :=
  match o with
  | Some [] => None
  | _ => o
  end.

Definition makeChoice {V M} (state : PlayerState V M) (letter : jsstring)
    (gotoPage : option jsstring) : PlayerState V M :=
  let newLog := choiceLog state ++ [letter] in
  match truthyString gotoPage ≫= parsePageId with
  | Some parsed =>
      {| currentPage := num parsed;
         currentPath := path parsed;
         choiceLog := newLog;
         variables := variables state;
         storyFolder := storyFolder state;
         isPlaying := isPlaying state;
         metadata := metadata state |}
  | None =>
      {| currentPage := (currentPage state + 1)%N;
         currentPath := currentPath state ++ letter;
         choiceLog := newLog;
         variables := variables state;
         storyFolder := storyFolder state;
         isPlaying := isPlaying state;
         metadata := metadata state |}
  end.

(** ** Story variables (types.ts, shared/utils.ts) *)

(** JavaScript numbers as far as the sources use them: [Number(s)], [isNaN],
    [+], [-], [===] and the order comparisons, with the constants 0 and 1.
    [a > b] is [numLt b a] and [a >= b] is [numLe b a]. *)
Class JSNumber := {
  number : Type;
  Number : jsstring -> number;
  isNaN : number -> bool;
  numAdd : number -> number -> number;
  numSub : number -> number -> number;
  numEq : number -> number -> bool;
  numLt : number -> number -> bool;
  numLe : number -> number -> bool;
  numZero : number;
  numOne : number
}.

Definition allDigits (s : jsstring) : bool :=
  match s with [] => false | _ => forallb isDigit s end.

(** The integer literals of [Number], with [None] for NaN: enough to run the
    examples of this file, on which it agrees with JavaScript. *)
Definition integerOfString (s : jsstring) : option Z :=
  match trim s with
  | [] => Some 0%Z
  | "-"%char :: ds => if allDigits ds then Some (- Z.of_N (parseInt ds))%Z else None
  | "+"%char :: ds => if allDigits ds then Some (Z.of_N (parseInt ds)) else None
  | ds => if allDigits ds then Some (Z.of_N (parseInt ds)) else None
  end.

Definition liftZ2 (f : Z -> Z -> Z) (a b : option Z) : option Z :=
  match a, b with Some x, Some y => Some (f x y) | _, _ => None end.

Definition testZ2 (f : Z -> Z -> bool) (a b : option Z) : bool :=
  match a, b with Some x, Some y => f x y | _, _ => false end.

Definition IntegerNumbers : JSNumber := {|
  number := option Z;
  Number := integerOfString;
  isNaN := fun n => match n with None => true | Some _ => false end;
  numAdd := liftZ2 Z.add;
  numSub := liftZ2 Z.sub;
  numEq := testZ2 Z.eqb;
  numLt := testZ2 Z.ltb;
  numLe := testZ2 Z.leb;
  numZero := Some 0%Z;
  numOne := Some 1%Z
|}.

(** [type VariableValue = string | number | boolean] *)
Inductive VariableValue (number : Type) :=
| VBool (b : bool)
| VNum (n : number)
| VStr (s : jsstring).
Arguments VBool {number}.
Arguments VNum {number}.
Arguments VStr {number}.

Inductive OperationType := OpSet | OpAdd | OpSub | OpIf | OpEndif.

Record VariableOperation (number : Type) := {
  opType : OperationType;
  opName : jsstring;
  opValue : option (VariableValue number);
  opOperator : option jsstring;
  fullMatch : jsstring
}.
Arguments opType {number}.
Arguments opName {number}.
Arguments opValue {number}.
Arguments opOperator {number}.
Arguments fullMatch {number}.

Section Variables.
Context `{Num : JSNumber}.

Abbreviation VariableState := (gmap jsstring (VariableValue number)).

(** [a === b] *)
Definition strictEq (a b : VariableValue number) : bool :=
  match a, b with
  | VBool x, VBool y => Bool.eqb x y
  | VNum x, VNum y => numEq x y
  | VStr x, VStr y => eqString x y
  | _, _ => false
  end.

(** The private [parseValue] of format.ts and of engine/variables.ts *)
Definition parseValue (value : jsstring) : VariableValue number :=
  if eqString value "true" then VBool true
  else if eqString value "false" then VBool false
  else
    let n := Number value in
    if negb (isNaN n) then VNum n else VStr value.

Definition parseVariableValue (value : jsstring) : VariableValue number :=
  parseValue (trim value).

Definition notCloseBrace (c : ascii) : bool := negb (eqChar c "}"%char).

Definition nonEmpty (s : jsstring) : bool :=
  match s with [] => false | _ => true end.

Definition orElse {A} (a b : option A) : option A :=
  match a with Some _ => a | None => b end.

(** The text matched when a matcher leaves [rest] of [s]. *)
Definition matched (s rest : jsstring) : jsstring :=
  take (matchLength s rest) s.

(** <<=([^}]+)\}>>: an equals sign, a non-empty run without closing brace,
    and the closing brace. *)
Definition assignedValue (eqSign s : jsstring) : option (jsstring * jsstring) :=
  r ← lit eqChar eqSign s;
  let (value, r') := span notCloseBrace r in
  if nonEmpty value then r'' ← lit eqChar "}" r'; Some (value, r'')
  else None.

(** [/\{set:(\w+)=([^}]+)\}/gi] at one position: name and value. *)
Definition matchSet (s : jsstring) : option ((jsstring * jsstring) * jsstring) :=
  r ← lit eqCharCI "{set:" s;
  let (name, r') := span isWord r in
  if nonEmpty name then
    '(value, r'') ← assignedValue "=" r';
    Some ((name, value), r'')
  else None.

(** [/\{add:(\w+)(?:=([^}]+))?\}/gi] and the same for [sub]: the name and
    the optional value. *)
Definition matchAddSub (keyword s : jsstring)
  : option ((jsstring * option jsstring) * jsstring) :=
  r ← lit eqCharCI keyword s;
  let (name, r') := span isWord r in
  if nonEmpty name then
    orElse
      ('(value, r'') ← assignedValue "=" r';
       Some ((name, Some value), r''))
      (r'' ← lit eqChar "}" r'; Some ((name, None), r''))
  else None.

Definition operators : list jsstring :=
  list_ascii_of_string <$> ["=="; "!="; ">="; "<="; ">"; "<"].

(** The alternation <<(==|!=|>=|<=|>|<)([^}]+)>> followed by the closing
    brace: the first operator, in the order written, after which a value
    and the brace follow. *)
Fixpoint comparison (ops : list jsstring) (s : jsstring)
  : option ((jsstring * jsstring) * jsstring) :=
  match ops with
  | [] => None
  | op :: ops' =>
      orElse ('(value, r) ← assignedValue op s; Some ((op, value), r))
             (comparison ops' s)
  end.

Record IfHeader := {
  ifName : jsstring;
  ifOperator : option jsstring;
  ifValue : option jsstring
}.

(** [/\{if:(\w+)(?:(==|!=|>=|<=|>|<)([^}]+))?\}/gi] at one position. *)
Definition matchIfHeader (s : jsstring) : option (IfHeader * jsstring) :=
  r ← lit eqCharCI "{if:" s;
  let (name, r') := span isWord r in
  if nonEmpty name then
    orElse
      ('(op, value, r'') ← comparison operators r';
       Some ({| ifName := name; ifOperator := Some op; ifValue := Some value |}, r''))
      (r'' ← lit eqChar "}" r';
       Some ({| ifName := name; ifOperator := None; ifValue := None |}, r''))
  else None.

(** [/\{\/if\}/gi] at one position. *)
Definition matchEndif (s : jsstring) : option (unit * jsstring) :=
  r ← lit eqCharCI "{/if}" s; Some (tt, r).

(** A matcher together with the text it matched, [match[0]]. *)
Definition withFullMatch {A} (m : jsstring -> option (A * jsstring))
  : bool -> jsstring -> option ((jsstring * A) * jsstring) :=
  unanchored (fun s => '(a, rest) ← m s; Some ((matched s rest, a), rest)).

Definition setOperations (text : jsstring) : list (nat * VariableOperation number) :=
  (fun '(pos, (full, (name, value))) =>
     (pos, {| opType := OpSet; opName := name;
              opValue := Some (parseVariableValue value);
              opOperator := None; fullMatch := full |}))
    <$> execAll (withFullMatch matchSet) text.

Definition addSubOperations (ty : OperationType) (keyword text : jsstring)
  : list (nat * VariableOperation number) :=
  (fun '(pos, (full, (name, value))) =>
     (pos, {| opType := ty; opName := name;
              opValue := Some (match value with
                               | Some v => parseVariableValue v
                               | None => VNum numOne
                               end);
              opOperator := None; fullMatch := full |}))
    <$> execAll (withFullMatch (matchAddSub keyword)) text.

Definition ifOperations (text : jsstring) : list (nat * VariableOperation number) :=
  (fun '(pos, (full, h)) =>
     (pos, {| opType := OpIf; opName := ifName h;
              opValue := Some (match ifValue h with
                               | Some v => parseVariableValue v
                               | None => VBool true
                               end);
              opOperator := Some (default ("==" : jsstring) (ifOperator h));
              fullMatch := full |}))
    <$> execAll (withFullMatch matchIfHeader) text.

Definition endifOperations (text : jsstring) : list (nat * VariableOperation number) :=
  (fun '(pos, (full, _)) =>
     (pos, {| opType := OpEndif; opName := [];
              opValue := None; opOperator := None; fullMatch := full |}))
    <$> execAll (withFullMatch matchEndif) text.

(** [parseVariables], each operation with the offset [match.index] at
    which it was found: five scans of the whole text, one per pattern,
    appended in the order set, add, sub, if, endif. *)
Definition parseVariablesAt (text : jsstring) : list (nat * VariableOperation number) :=
  setOperations text
  ++ addSubOperations OpAdd "{add:" text
  ++ addSubOperations OpSub "{sub:" text
  ++ ifOperations text
  ++ endifOperations text.

Definition parseVariables (text : jsstring) : list (VariableOperation number) :=
  snd <$> parseVariablesAt text.

(** [evaluateCondition] *)
Definition evaluateCondition (variables : gmap jsstring (VariableValue number))
    (name operator : jsstring) (compareValue : VariableValue number) : bool :=
  let isOp (o : jsstring) := eqString operator o in
  match variables !! name with
  | None =>
      isOp "!=" || (isOp "==" && strictEq compareValue (VBool false))
  | Some value =>
      let ordered (test : number -> number -> bool) :=
        match value, compareValue with
        | VNum a, VNum b => test a b
        | _, _ => false
        end in
      if isOp "==" then strictEq value compareValue
      else if isOp "!=" then negb (strictEq value compareValue)
      else if isOp ">" then ordered (fun a b => numLt b a)
      else if isOp "<" then ordered numLt
      else if isOp ">=" then ordered (fun a b => numLe b a)
      else if isOp "<=" then ordered numLe
      else false
  end.
End Variables.

(** ** Conditional blocks and variable processing
    (engine/variables.ts and shared/format.ts) *)

Section Conditionals.
Context `{Num : JSNumber}.

(** Engine: the body of a block and its closer.  The body is extended
    lazily, one character at a time, and never over a position where the
    text reads <<{if:>> (the negative lookahead). *)
Fixpoint innermostBody (s : jsstring) : option (jsstring * jsstring) :=
  match lit eqCharCI "{/if}" s with
  | Some rest => Some ([], rest)
  | None =>
      if startsWithCI s "{if:" then None
      else
        match s with
        | [] => None
        | c :: s' =>
            '(body, rest) ← innermostBody s'; Some (c :: body, rest)
        end
  end.

(** Editor: the body is any text, lazily, up to the first closer. *)
Fixpoint lazyBody (s : jsstring) : option (jsstring * jsstring) :=
  match lit eqCharCI "{/if}" s with
  | Some rest => Some ([], rest)
  | None =>
      match s with
      | [] => None
      | c :: s' => '(body, rest) ← lazyBody s'; Some (c :: body, rest)
      end
  end.

Definition matchConditional (body : jsstring -> option (jsstring * jsstring))
    (s : jsstring) : option ((IfHeader * jsstring) * jsstring) :=
  '(h, r) ← matchIfHeader s;
  '(content, rest) ← body r;
  Some ((h, content), rest).

(** The replacement callback, the same in both files: the block's content
    when its condition holds, the empty string otherwise. *)
Definition resolveBlock (variables : gmap jsstring (VariableValue number))
    (block : IfHeader * jsstring) : jsstring :=
  let (h, content) := block in
  let compareValue :=
    match ifValue h with
    | Some value => parseValue (trim value)
    | None => VBool true
    end in
  let op := default ("==" : jsstring) (ifOperator h) in
  if evaluateCondition variables (ifName h) op compareValue then content else [].

(** One [result.replace(regex, ...)] of the engine's loop. *)
Definition engineConditionalPass (variables : gmap jsstring (VariableValue number))
    (text : jsstring) : jsstring * bool :=
  replaceFrom (unanchored (matchConditional innermostBody))
              (resolveBlock variables) 0 true text.

(** The engine's [while (changed)] loop; one unit of fuel per iteration. *)
Fixpoint engineConditionalLoop (fuel : nat)
    (variables : gmap jsstring (VariableValue number)) (result : jsstring)
  : option jsstring :=
  match fuel with
  | O => None
  | S fuel' =>
      let (result', changed) := engineConditionalPass variables result in
      if changed then engineConditionalLoop fuel' variables result'
      else Some result'
  end.

(** engine/variables.ts: [processConditionals] *)
Definition engineProcessConditionals (text : jsstring)
    (variables : gmap jsstring (VariableValue number)) : option jsstring :=
  engineConditionalLoop (S (length text)) variables text.

(** shared/format.ts: [processConditionals] *)
Definition editorProcessConditionals (text : jsstring)
    (variables : gmap jsstring (VariableValue number)) : jsstring :=
  replaceAll (unanchored (matchConditional lazyBody)) (resolveBlock variables) text.

Definition currentNumber (variables : gmap jsstring (VariableValue number))
    (name : jsstring) : number :=
  match variables !! name with
  | Some (VNum n) => n
  | _ => numZero
  end.

(** The effect of one operation on the variables, common to both
    [processVariables]. *)
Definition applyOperation (variables : gmap jsstring (VariableValue number))
    (op : VariableOperation number) : gmap jsstring (VariableValue number) :=
  match opType op, opValue op with
  | OpSet, Some value => <[opName op := value]> variables
  | OpAdd, Some (VNum delta) =>
      <[opName op := VNum (numAdd (currentNumber variables (opName op)) delta)]> variables
  | OpSub, Some (VNum delta) =>
      <[opName op := VNum (numSub (currentNumber variables (opName op)) delta)]> variables
  | _, _ => variables
  end.

(** Engine: every set, add and sub operation is removed from the text,
    also when its value is not usable. *)
Definition engineStep (acc : jsstring * gmap jsstring (VariableValue number))
    (op : VariableOperation number) : jsstring * gmap jsstring (VariableValue number) :=
  let (result, newVariables) := acc in
  match opType op with
  | OpSet | OpAdd | OpSub =>
      (removeFirst (fullMatch op) result, applyOperation newVariables op)
  | _ => acc
  end.

(** Editor: an operation is removed from the text when it is applied. *)
Definition editorStep (acc : jsstring * gmap jsstring (VariableValue number))
    (op : VariableOperation number) : jsstring * gmap jsstring (VariableValue number) :=
  let (result, newVariables) := acc in
  match opType op, opValue op with
  | OpSet, Some _ | OpAdd, Some (VNum _) | OpSub, Some (VNum _) =>
      (removeFirst (fullMatch op) result, applyOperation newVariables op)
  | _, _ => acc
  end.

(** engine/variables.ts: [processVariables] *)
Definition engineProcessVariables (text : jsstring)
    (variables : gmap jsstring (VariableValue number))
  : option (jsstring * gmap jsstring (VariableValue number)) :=
  let operations := parseVariables text in
  let (result, newVariables) := foldl engineStep (text, variables) operations in
  result' ← engineProcessConditionals result newVariables;
  Some (result', newVariables).

(** shared/format.ts: [processVariables] *)
Definition editorProcessVariables (text : jsstring)
    (variables : gmap jsstring (VariableValue number))
  : jsstring * gmap jsstring (VariableValue number) :=
  let operations := parseVariables text in
  let (result, newVariables) := foldl editorStep (text, variables) operations in
  (editorProcessConditionals result newVariables, newVariables).
End Conditionals.

(** ** Asset references (shared/format.ts, editor/pages.ts) *)

Definition assetNameChar (c : ascii) : bool :=
  negb (eqChar c "}"%char) && negb (eqChar c ":"%char).

(** The expression <<\{([^}:]+?)(?::(\w+))?\}>> with the g flag, shared by
    [markAssets] and [extractAssetReferences].  The first group has neither
    brace nor colon and what follows it starts with one of them, so the lazy
    group ends exactly where its character class does. *)
Definition matchAsset (s : jsstring)
  : option ((jsstring * option jsstring) * jsstring) :=
  r ← lit eqChar "{" s;
  let (name, r') := span assetNameChar r in
  if nonEmpty name then
    orElse
      (r1 ← lit eqChar ":" r';
       let (size, r2) := span isWord r1 in
       if nonEmpty size then r3 ← lit eqChar "}" r2; Some ((name, Some size), r3)
       else None)
      (r3 ← lit eqChar "}" r'; Some ((name, None), r3))
  else None.

Definition commandKeywords : list jsstring :=
  list_ascii_of_string <$>
    ["set"; "add"; "sub"; "if"; "music"; "sfx"; "ambient"; "goto"; "stop"].

Definition dquote : jsstring := ["034"%char].

(** The callback of [markAssets]: commands are returned unchanged, anything
    else becomes a placeholder element. *)
Definition markAsset (m : jsstring * (jsstring * option jsstring)) : jsstring :=
  let '(full, (assetName, size)) := m in
  if existsb (fun cmd => startsWith assetName (cmd ++ ":")) commandKeywords
     || eqString assetName "/if"
  then full
  else
    let sizeClass : jsstring :=
      match size with Some sz => "size-" ++ sz | None => [] end in
    "<span class=" ++ dquote ++ "asset-placeholder" ++ dquote
    ++ " data-asset=" ++ dquote ++ assetName ++ dquote
    ++ " data-size=" ++ dquote ++ sizeClass ++ dquote ++ "></span>".

Definition markAssets (text : jsstring) : jsstring :=
  replaceAll (withFullMatch matchAsset) markAsset text.

Definition includes (s : jsstring) (c : ascii) : bool := existsb (eqChar c) s.

(** editor/pages.ts: [extractAssetReferences] *)
Definition extractAssetReferences (text : jsstring) : list jsstring :=
  omap (fun '(_, (name, _)) =>
          if includes name ":"%char
             || eqString name "/if"
             || existsb (fun cmd => startsWith name (cmd ++ ":")) commandKeywords
          then None else Some name)
       (execAll (unanchored matchAsset) text).

(** ** Choice lines (shared/utils.ts, shared/format.ts) *)

Record ParsedChoice := {
  choiceLetter : jsstring;
  choiceText : jsstring;
  choiceGoto : option jsstring
}.

(** A greedy <<\s*>> followed by [k]: the longest run of white space first,
    giving characters back one at a time while [k] fails. *)
Fixpoint spacesThen {A} (k : jsstring -> option A) (s : jsstring) : option A :=
  match s with
  | c :: s' =>
      if isSpace c then orElse (spacesThen k s') (k s) else k s
  | [] => k []
  end.

Definition notLineTerminator (c : ascii) : bool := negb (isLineTerminator c).

(** <<(.+)$>> without the m flag: the rest of the string, non-empty and free
    of line terminators. *)
Definition restOfString (s : jsstring) : option (jsstring * jsstring) :=
  if nonEmpty s && forallb notLineTerminator s then Some (s, []) else None.

(** <<(.+)$>> with the m flag: the rest of the line, non-empty. *)
Definition restOfLine (s : jsstring) : option (jsstring * jsstring) :=
  let (line, rest) := span notLineTerminator s in
  if nonEmpty line then Some (line, rest) else None.

(** <<\[(\d+[a-e]* )\]>>: a page id in brackets. *)
Definition bracketedPageId (s : jsstring) : option (jsstring * jsstring) :=
  r ← lit eqChar "[" s;
  let (ds, r1) := span isDigit r in
  if nonEmpty ds then
    let (ls, r2) := span isChoiceLetter r1 in
    r3 ← lit eqChar "]" r2; Some (ds ++ ls, r3)
  else None.

(** The expression of [parseChoiceLine] and [extractChoices] from its first
    character on: a choice letter, a closing parenthesis, white space, an
    optional bracketed page id with white space after it, and the final
    <<(.+)$>>, whose reading is [tail].  The result holds the groups 1, 2
    and 3. *)
Definition choicePattern (tail : jsstring -> option (jsstring * jsstring))
    (s : jsstring) : option ((ascii * option jsstring * jsstring) * jsstring) :=
  match s with
  | letter :: r =>
      if isChoiceLetter letter then
        r0 ← lit eqChar ")" r;
        spacesThen
          (fun r1 =>
             orElse
               ('(target, r2) ← bracketedPageId r1;
                spacesThen
                  (fun r3 => '(text, rest) ← tail r3;
                             Some ((letter, Some target, text), rest))
                  r2)
               ('(text, rest) ← tail r1; Some ((letter, None, text), rest)))
          r0
      else None
  | [] => None
  end.

Definition toParsedChoice (groups : ascii * option jsstring * jsstring)
  : ParsedChoice :=
  let '(letter, target, text) := groups in
  {| choiceLetter := toLowerCase [letter];
     choiceText := trim text;
     choiceGoto := toLowerCase <$> target |}.

(** shared/utils.ts: [parseChoiceLine], a match of the whole line with the
    i flag only. *)
Definition parseChoiceLine (line : jsstring) : option ParsedChoice :=
  '(groups, _) ← choicePattern restOfString line; Some (toParsedChoice groups).

(** The same expression under the flags gim: a match starts at the start of
    a line. *)
Definition choiceLineMatch (bol : bool) (s : jsstring)
  : option ((ascii * option jsstring * jsstring) * jsstring) :=
  if bol then choicePattern restOfLine s else None.

(** The second expression of [extractChoices], the same pattern written
    without capturing groups, under the flags gim. *)
Definition choiceLineSpan (bol : bool) (s : jsstring) : option (unit * jsstring) :=
  if bol then
    match s with
    | letter :: r =>
        if isChoiceLetter letter then
          r0 ← lit eqChar ")" r;
          spacesThen
            (fun r1 =>
               orElse
                 ('(_, r2) ← bracketedPageId r1;
                  spacesThen (fun r3 => '(_, rest) ← restOfLine r3; Some (tt, rest)) r2)
                 ('(_, rest) ← restOfLine r1; Some (tt, rest)))
            r0
        else None
    | [] => None
    end
  else None.

Record ExtractedChoices := {
  storyText : jsstring;
  choices : list ParsedChoice
}.

(** shared/format.ts: [extractChoices] *)
Definition extractChoices (text : jsstring) : ExtractedChoices :=
  {| storyText := trim (replaceAll choiceLineSpan (fun _ => []) text);
     choices := (fun '(_, groups) => toParsedChoice groups)
                  <$> execAll choiceLineMatch text |}.

(** ** Story graph (editor/graph.ts) *)

Record Choice := {
  letter : jsstring;
  text : jsstring;
  goto : option jsstring
}.

Record Page := {
  content : jsstring;
  hasChoices : bool;
  isEnding : bool;
  pageChoices : list Choice
}.

Inductive NodeType := Normal | ChoiceNode | Ending | Orphan.

Record GraphNode := {
  nodeId : jsstring;
  nodeLabel : jsstring;
  nodeType : NodeType
}.

Record GraphEdge := {
  edgeSource : jsstring;
  edgeTarget : jsstring;
  edgeLabel : option jsstring
}.

Section Graph.
Variable pages : gmap jsstring Page.

Definition pageExists (id : jsstring) : bool := bool_decide (is_Some (pages !! id)).

(** [choice.goto || `${nextNum}${parsed.path}${choice.letter}`] *)
Definition choiceTarget (parsed : ParsedPageId) (choice : Choice) : jsstring :=
  match truthyString (goto choice) with
  | Some target => target
  | None => numberToString (num parsed + 1) ++ path parsed ++ letter choice
  end.

(** The ids pushed on the queue while [current] is visited. *)
Definition successors (current : jsstring) (page : Page) : list jsstring :=
  if hasChoices page && negb (isEnding page) then
    match parsePageId current with
    | None => []
    | Some parsed =>
        filter (fun id => pageExists id) (choiceTarget parsed <$> pageChoices page)
    end
  else if negb (isEnding page) then
    match parsePageId current with
    | None => []
    | Some parsed =>
        let nextId := numberToString (num parsed + 1) ++ path parsed in
        if pageExists nextId then [nextId] else []
    end
  else [].

(** The first loop of [buildGraphData]: the pages reachable from page 1;
    one unit of fuel per iteration. *)
Fixpoint reachableLoop (fuel : nat) (queue : list jsstring)
    (reachable : gset jsstring) : option (gset jsstring) :=
  match queue with
  | [] => Some reachable
  | current :: queue' =>
      match fuel with
      | O => None
      | S fuel' =>
          match pages !! current with
          | Some page =>
              if bool_decide (current ∈ reachable)
              then reachableLoop fuel' queue' reachable
              else reachableLoop fuel' (queue' ++ successors current page)
                                 ({[current]} ∪ reachable)
          | None => reachableLoop fuel' queue' reachable
          end
      end
  end.

(** A bound on the iterations one page can cause: its own visit and
    one later visit per id it pushes. *)
Definition pageWeight (page : Page) : nat := 2 + length (pageChoices page).

Definition totalWeight (m : gmap jsstring Page) : nat :=
  sum_list_with (fun kv => pageWeight kv.2) (map_to_list m).

Definition reachableFuel : nat := S (totalWeight pages).

Definition reachableSet : option (gset jsstring) :=
  reachableLoop reachableFuel ["1" : jsstring] ∅.

(** The type given to a node. *)
Definition classify (reachable : gset jsstring) (id : jsstring) (page : Page)
  : NodeType :=
  if isEnding page then Ending
  else if hasChoices page then ChoiceNode
  else if bool_decide (id ∈ reachable) then Normal
  else Orphan.

Definition graphNodes (reachable : gset jsstring) : list GraphNode :=
  (fun '(id, page) =>
     {| nodeId := id; nodeLabel := id; nodeType := classify reachable id page |})
    <$> map_to_list pages.

Definition pageEdges (id : jsstring) (page : Page) : list GraphEdge :=
  if isEnding page then []
  else
    match parsePageId id with
    | None => []
    | Some parsed =>
        if hasChoices page then
          omap (fun choice =>
                  if nonEmpty (trim (text choice)) then
                    let targetId := choiceTarget parsed choice in
                    if pageExists targetId
                    then Some {| edgeSource := id; edgeTarget := targetId;
                                 edgeLabel := Some (letter choice) |}
                    else None
                  else None)
               (pageChoices page)
        else
          let nextId := numberToString (num parsed + 1) ++ path parsed in
          if pageExists nextId
          then [{| edgeSource := id; edgeTarget := nextId; edgeLabel := None |}]
          else []
    end.

Definition graphEdges : list GraphEdge :=
  map_to_list pages ≫= (fun '(id, page) => pageEdges id page).

(** [buildGraphData]; the entries of [pages] are taken in the order of
    [map_to_list]. *)
Definition buildGraphData : option (list GraphNode * list GraphEdge) :=
  reachable ← reachableSet;
  Some (graphNodes reachable, graphEdges).
End Graph.

(** ** Parents of pages (shared/utils.ts) *)


(** ** Moving through a story (engine/player.ts) *)

(** [path.split('').filter(c => c)]: the code units of the path, each a
    string of length one (and so truthy). *)
Definition splitChars (s : jsstring) : list jsstring := (fun c => [c]) <$> s.

Definition createPlayerState {V M} `{Empty V} : PlayerState V M :=
  {| currentPage := 1; currentPath := []; choiceLog := [];
     variables := ∅; storyFolder := []; isPlaying := false; metadata := None |}.

Definition startGame {V M} (state : PlayerState V M) (page : N) (path : jsstring)
  : PlayerState V M :=
  {| currentPage := page;
     currentPath := path;
     choiceLog := splitChars path;
     variables := variables state;
     storyFolder := storyFolder state;
     isPlaying := true;
     metadata := metadata state |}.

Definition continueToNext {V M} (state : PlayerState V M) : PlayerState V M :=
  {| currentPage := (currentPage state + 1)%N;
     currentPath := currentPath state;
     choiceLog := choiceLog state;
     variables := variables state;
     storyFolder := storyFolder state;
     isPlaying := isPlaying state;
     metadata := metadata state |}.

Definition restart {V M} `{Empty V} (state : PlayerState V M) : PlayerState V M :=
  {| currentPage := 1;
     currentPath := [];
     choiceLog := [];
     variables := ∅;
     storyFolder := storyFolder state;
     isPlaying := isPlaying state;
     metadata := metadata state |}.

Definition getCurrentFilename {V M} (state : PlayerState V M) : jsstring :=
  if (currentPage state =? 1)%N && eqString (currentPath state) [] then "1.txt"
  else numberToString (currentPage state) ++ currentPath state ++ ".txt".


Record PageCode := { codePage : N; codePath : jsstring }.

(** [parsePageCode]: the expression of [parsePageId] once more. *)
Definition parsePageCode (code : jsstring) : option PageCode :=
  let (ds, rest) := span isDigit code in
  match ds with
  | [] => None
  | _ =>
      let (ls, rest') := span isChoiceLetter rest in
      match rest' with
      | [] => Some {| codePage := parseInt ds; codePath := toLowerCase ls |}
      | _ => None
      end
  end.

Definition jumpToPage {V M} (state : PlayerState V M) (code : jsstring)
  : option (PlayerState V M) :=
  parsed ← parsePageCode code;
  Some {| currentPage := codePage parsed;
          currentPath := codePath parsed;
          choiceLog := splitChars (codePath parsed);
          variables := variables state;
          storyFolder := storyFolder state;
          isPlaying := isPlaying state;
          metadata := metadata state |}.

(** [interface SaveState]; its [variables] field is optional. *)
Record SaveState (V : Type) := {
  savePage : N;
  savePath : jsstring;
  saveVariables : option V
}.
Arguments savePage {V}.
Arguments savePath {V}.
Arguments saveVariables {V}.

Definition toSaveState {V M} (state : PlayerState V M) : SaveState V :=
  {| savePage := currentPage state;
     savePath := currentPath state;
     saveVariables := Some (variables state) |}.

(** [save.variables || {}]: an object is truthy. *)
Definition fromSaveState {V M} `{Empty V} (state : PlayerState V M)
    (save : SaveState V) : PlayerState V M :=
  {| currentPage := savePage save;
     currentPath := savePath save;
     choiceLog := splitChars (savePath save);
     variables := default ∅ (saveVariables save);
     storyFolder := storyFolder state;
     isPlaying := isPlaying state;
     metadata := metadata state |}.

Definition isAtEnding (hasNextPage hasChoices isMarkedEnding : bool) : bool :=
  isMarkedEnding || (negb hasNextPage && negb hasChoices).

(** ** Save codes (engine/save.ts) *)




(** [parts.join(sep)] *)
Fixpoint join (sep : jsstring) (parts : list jsstring) : jsstring :=
  match parts with
  | [] => []
  | [p] => p
  | p :: parts' => p ++ sep ++ join sep parts'
  end.

Section SaveCodes.
Context `{Num : JSNumber}.

(** The rendering of a number inside a template literal. *)
Variable numberText : number → jsstring.



End SaveCodes.

(** ** File names (shared/utils.ts) *)

(** The characters of the class <<[a-zA-Z0-9._-]>>. *)
Definition isFilenameChar (c : ascii) : bool :=
  between 97 122 c || between 65 90 c || between 48 57 c
  || (code c =? 46)%nat || (code c =? 95)%nat || (code c =? 45)%nat.

Definition isDot (c : ascii) : bool := (code c =? 46)%nat.

(** One character outside the class. *)
Definition matchUnsafeChar (s : jsstring) : option (unit * jsstring) :=
  match s with
  | c :: rest => if isFilenameChar c then None else Some (tt, rest)
  | [] => None
  end.

(** <<\.{2,}>>: a greedy run of two dots or more. *)
Definition matchDots (s : jsstring) : option (unit * jsstring) :=
  let (dots, rest) := span isDot s in
  if (2 <=? length dots)%nat then Some (tt, rest) else None.

(** The second alternative of <<^\.+|\.+$>>: a run of dots that ends the
    string. *)
Definition matchTrailingDots (s : jsstring) : option (unit * jsstring) :=
  let (dots, rest) := span isDot s in
  match dots, rest with
  | _ :: _, [] => Some (tt, [])
  | _, _ => None
  end.

(** [s.replace(/^\.+|\.+$/g, '')].  The first alternative can match at the
    start of the string only, and takes the leading dots; the search goes on
    behind them with the second alternative. *)
Definition stripOuterDots (s : jsstring) : jsstring :=
  let (dots, rest) := span isDot s in
  match dots with
  | _ :: _ => replaceAll (unanchored matchTrailingDots) (fun _ => []) rest
  | [] => replaceAll (unanchored matchTrailingDots) (fun _ => []) s
  end.

Definition sanitizeFilename (name : jsstring) : jsstring :=
  stripOuterDots
    (replaceAll (unanchored matchDots) (fun _ => ".")
       (replaceAll (unanchored matchUnsafeChar) (fun _ => "_") name)).

(** ** Jump commands (shared/utils.ts) *)

Record GotoCommand := {
  gotoPageId : jsstring;
  gotoFullMatch : jsstring
}.

(** <<\{goto:(\d+[a-e]* )\}>> under the i flag at one position: the page id. *)
Definition matchGoto (s : jsstring) : option (jsstring * jsstring) :=
  r ← lit eqCharCI "{goto:" s;
  let (ds, r1) := span isDigit r in
  if nonEmpty ds then
    let (ls, r2) := span isChoiceLetter r1 in
    r3 ← lit eqChar "}" r2; Some (ds ++ ls, r3)
  else None.

Definition parseGotoCommands (text : jsstring) : list GotoCommand :=
  (fun '(_, (full, target)) =>
     {| gotoPageId := toLowerCase target; gotoFullMatch := full |})
    <$> execAll (withFullMatch matchGoto) text.

(** ** Conditions of choices (engine/variables.ts) *)

Section CheckCondition.
Context `{Num : JSNumber}.

(** <<(==|!=|>=|<=|>|<)(.+)$>>: the first operator, in the order written,
    after which a non-empty rest of the string without line terminator
    follows. *)
Fixpoint comparisonToEnd (ops : list jsstring) (s : jsstring)
  : option (jsstring * jsstring) :=
  match ops with
  | [] => None
  | op :: ops' =>
      orElse (r ← lit eqChar op s; '(value, _) ← restOfString r; Some (op, value))
             (comparisonToEnd ops' s)
  end.

(** [condition.match(re)] for <<^(\w+)(?:(==|!=|>=|<=|>|<)(.+))?$>>: the
    groups 1, 2 and 3. *)
Definition matchCondition (condition : jsstring)
  : option (jsstring * option jsstring * option jsstring) :=
  let (name, r) := span isWord condition in
  if nonEmpty name then
    match comparisonToEnd operators r with
    | Some (op, value) => Some (name, Some op, Some value)
    | None =>
        match r with
        | [] => Some (name, None, None)
        | _ => None
        end
    end
  else None.

Definition checkCondition (variables : gmap jsstring (VariableValue number))
    (condition : jsstring) : bool :=
  match matchCondition condition with
  | None => false
  | Some (name, operator, value) =>
      let compareValue :=
        match value with
        | Some v => parseValue (trim v)
        | None => VBool true
        end in
      evaluateCondition variables name (default ("==" : jsstring) operator) compareValue
  end.


End CheckCondition.

(** ** Pages of the editor (editor/pages.ts) *)

(** [interface LegacyPage] *)
Record LegacyPage := {
  legacyContent : jsstring;
  legacyHasChoices : bool;
  legacyIsEnding : bool;
  choiceA : jsstring;
  choiceB : jsstring
}.

Definition convertLegacyPage (legacy : LegacyPage) : Page :=
  let choices :=
    if legacyHasChoices legacy then
      (if nonEmpty (choiceA legacy)
       then [{| letter := "a"; text := choiceA legacy; goto := None |}] else [])
      ++ (if nonEmpty (choiceB legacy)
          then [{| letter := "b"; text := choiceB legacy; goto := None |}] else [])
    else [] in
  {| content := legacyContent legacy;
     hasChoices := legacyHasChoices legacy;
     isEnding := legacyIsEnding legacy;
     pageChoices := choices |}.

(** [page.choices.find(c => c.letter === l)?.text || ''] *)
Definition choiceTextFor (l : jsstring) (page : Page) : jsstring :=
  match List.find (fun c => eqString (letter c) l) (pageChoices page) with
  | Some c => text c
  | None => []
  end.

Definition convertToLegacy (page : Page) : LegacyPage :=
  {| legacyContent := content page;
     legacyHasChoices := hasChoices page;
     legacyIsEnding := isEnding page;
     choiceA := choiceTextFor "a" page;
     choiceB := choiceTextFor "b" page |}.

Definition createEmptyPage (withChoices : bool) : Page :=
  {| content := [];
     hasChoices := withChoices;
     isEnding := false;
     pageChoices :=
       if withChoices
       then [{| letter := "a"; text := []; goto := None |};
             {| letter := "b"; text := []; goto := None |}]
       else [] |}.

(** The choice of another page after a page was renamed: a jump to the old
    id becomes a jump to the new one. *)
Definition retargetChoice (oldId newId : jsstring) (choice : Choice) : Choice :=
  match goto choice with
  | Some target =>
      if eqString target oldId
      then {| letter := letter choice; text := text choice; goto := Some newId |}
      else choice
  | None => choice
  end.

Definition retargetPage (oldId newId : jsstring) (page : Page) : Page :=
  {| content := content page;
     hasChoices := hasChoices page;
     isEnding := isEnding page;
     pageChoices := retargetChoice oldId newId <$> pageChoices page |}.

(** [renamePage]; the entries of [pages] are taken in the order of
    [map_to_list], each written into the new object under its key. *)
Definition renamePage (oldId newId : jsstring) (pages : gmap jsstring Page)
  : gmap jsstring Page :=
  foldl (fun newPages '(id, page) =>
           if eqString id oldId then <[newId := page]> newPages
           else <[id := retargetPage oldId newId page]> newPages)
        ∅ (map_to_list pages).

(** The loop of [getNextRootPageId]; one unit of fuel per test of the
    loop condition. *)
Fixpoint nextRootLoop {P} (pages : gmap jsstring P) (fuel : nat) (n : N)
  : option jsstring :=
  match fuel with
  | O => None
  | S fuel' =>
      match pages !! numberToString n with
      | Some _ => nextRootLoop pages fuel' (n + 1)
      | None => Some (numberToString n)
      end
  end.

Definition getNextRootPageId {P} (pages : gmap jsstring P) : option jsstring :=
  nextRootLoop pages (S (size pages)) 1.

Definition getNextContinuationId {P} (pageId : jsstring) (pages : gmap jsstring P)
  : option jsstring :=
  parsed ← parsePageId pageId;
  let nextId := numberToString (num parsed + 1) ++ path parsed in
  match pages !! nextId with
  | Some _ => None
  | None => Some nextId
  end.

(** ** Display text (shared/format.ts) *)

(** A keyword with its opening brace, a non-empty value without closing
    brace, and the closing brace: <<\{music:[^}]+\}>> and its like. *)
Definition matchBraced (keyword : jsstring) (s : jsstring) : option (unit * jsstring) :=
  r ← lit eqCharCI keyword s;
  let (value, r') := span notCloseBrace r in
  if nonEmpty value then r'' ← lit eqChar "}" r'; Some (tt, r'') else None.

(** <<\{[^}:]+:loop\}>> *)
Definition matchLegacyLoop (s : jsstring) : option (unit * jsstring) :=
  r ← lit eqChar "{" s;
  let (name, r') := span assetNameChar r in
  if nonEmpty name then r'' ← lit eqCharCI ":loop}" r'; Some (tt, r'') else None.

(** <<\{stop:(music|sfx|ambient|all)\}>> *)
Definition matchStop (s : jsstring) : option (unit * jsstring) :=
  r ← lit eqCharCI "{stop:" s;
  let target (word : jsstring) :=
    r' ← lit eqCharCI word r; r'' ← lit eqChar "}" r'; Some (tt, r'') in
  orElse (target "music") (orElse (target "sfx") (orElse (target "ambient") (target "all"))).

Definition remove {A} (m : jsstring → option (A * jsstring)) (s : jsstring) : jsstring :=
  replaceAll (unanchored m) (fun _ => []) s.

(** [stripCommands]: nine replacements, one after the other. *)
Definition stripCommands (text : jsstring) : jsstring :=
  let result := remove matchSet text in
  let result := remove (matchAddSub "{add:") result in
  let result := remove (matchAddSub "{sub:") result in
  let result := remove (matchBraced "{music:") result in
  let result := remove (matchBraced "{sfx:") result in
  let result := remove (matchBraced "{ambient:") result in
  let result := remove matchLegacyLoop result in
  let result := remove matchStop result in
  remove matchGoto result.

(** ** Pages as text files (editor/export.ts, editor/import.ts) *)

Definition trimEnd (s : jsstring) : jsstring := rev (trimStart (rev s)).

Definition lineFeed : jsstring := ["010"%char].

(** The line written for a choice. *)
Definition choiceLine (choice : Choice) : jsstring :=
  match truthyString (goto choice) with
  | Some target => letter choice ++ ") [" ++ target ++ "] " ++ text choice
  | None => letter choice ++ ") " ++ text choice
  end.

Definition generatePageContent (page : Page) : jsstring :=
  if hasChoices page && negb (isEnding page)
     && match pageChoices page with [] => false | _ => true end
  then
    let choiceLines :=
      join lineFeed
           (choiceLine <$> List.filter (fun c => nonEmpty (trim (text c)))
                                       (pageChoices page)) in
    if nonEmpty choiceLines
    then trimEnd (content page) ++ lineFeed ++ lineFeed ++ choiceLines
    else content page
  else content page.

(** [s.includes(part)] *)
Fixpoint includesString (s part : jsstring) : bool :=
  startsWith s part
  || match s with
     | [] => false
     | _ :: s' => includesString s' part
     end.

Definition toChoice (parsed : ParsedChoice) : Choice :=
  {| letter := choiceLetter parsed;
     text := choiceText parsed;
     goto := choiceGoto parsed |}.

(** [parsePageContent]: the two expressions of [extractChoices] once more,
    and the type of the page from what was found. *)
Definition parsePageContent (fileContent : jsstring) : Page :=
  let found :=
    (fun '(_, groups) => toChoice (toParsedChoice groups))
      <$> execAll choiceLineMatch fileContent in
  let storyText := trim (replaceAll choiceLineSpan (fun _ => []) fileContent) in
  let foundAny := match found with [] => false | _ => true end in
  let ending :=
    includesString (toLowerCase fileContent) "[end]"
    || includesString (toLowerCase fileContent) "the end"
    || (negb foundAny && negb (includesString fileContent "{goto:")) in
  {| content := storyText;
     hasChoices := foundAny;
     isEnding := ending && negb foundAny;
     pageChoices :=
       if foundAny then found
       else [{| letter := "a"; text := []; goto := None |};
             {| letter := "b"; text := []; goto := None |}] |}.

(** ** Copying pages (editor/pages.ts) *)




(** ** The page tree and the validation of a story (editor/pages.ts) *)

(** [interface PageTreeNode] *)
#[warnings="-register-all"] Inductive PageTreeNode := {
  treeId : jsstring;
  treeChildren : list PageTreeNode;
  treeDepth : nat;
  treeIsOrphan : bool;
  treeIsDeadEnd : bool
}.

Section PageTree.
Variable pages : gmap jsstring Page.

(** [page.choices.length || 2] *)
Definition choiceCountOr2 (page : Page) : nat :=
  match length (pageChoices page) with
  | O => 2
  | n => n
  end.

(** [page.choices.find(c => c.letter === letter)] *)
Definition findChoice (chosen : jsstring) (page : Page) : option Choice :=
  List.find (fun c => eqString (letter c) chosen) (pageChoices page).

(** [choice?.goto || childId] *)
Definition treeTarget (page : Page) (entry : jsstring * jsstring) : jsstring :=
  let (chosen, childId) := entry in
  match findChoice chosen page with
  | Some choice => default childId (truthyString (goto choice))
  | None => childId
  end.

(** The ids [buildNode] goes on with from a page, in their order: those
    that are pages. *)
Definition treeTargets (id : jsstring) (page : Page) : list jsstring :=
  if hasChoices page && negb (isEnding page) then
    filter (fun targetId => pageExists pages targetId)
           (treeTarget page <$> getChildIds id (choiceCountOr2 page))
  else if negb (isEnding page) then
    match parsePageId id with
    | Some parsed =>
        let nextId := numberToString (num parsed + 1) ++ path parsed in
        if pageExists pages nextId then [nextId] else []
    | None => []
    end
  else [].

(** The inner function [buildNode] with the set [visited] it shares
    between its calls: the node, if one is made, and the set afterwards.
    One unit of fuel per level of recursion. *)
Fixpoint buildNode (fuel : nat) (visited : gset jsstring) (id : jsstring) (depth : nat)
  : option (option PageTreeNode * gset jsstring) :=
  match fuel with
  | O => None
  | S fuel' =>
      match pages !! id with
      | None => Some (None, visited)
      | Some page =>
          if bool_decide (id ∈ visited) then Some (None, visited)
          else
            '(children, visited') ←
              foldl (fun acc targetId =>
                       '(children, visited) ← acc;
                       '(childNode, visited') ←
                         buildNode fuel' visited targetId (S depth);
                       Some (children ++ option_list childNode, visited'))
                    (Some ([], {[id]} ∪ visited)) (treeTargets id page);
            Some (Some {| treeId := id;
                          treeChildren := children;
                          treeDepth := depth;
                          treeIsOrphan := false;
                          treeIsDeadEnd :=
                            negb (isEnding page)
                            && (length children =? 0)%nat
                            && negb (hasChoices page) |},
                  visited')
      end
  end.

Definition orphanNode (id : jsstring) : PageTreeNode :=
  {| treeId := id; treeChildren := []; treeDepth := 0;
     treeIsOrphan := true; treeIsDeadEnd := false |}.

(** [buildPageTree] with the set of visited pages it ends with; the keys
    of [pages] are taken in the order of [map_to_list]. *)
Definition buildPageTreeVisited : option (list PageTreeNode * gset jsstring) :=
  '(root, visited) ←
    match pages !! ("1" : jsstring) with
    | Some _ => buildNode (S (size pages)) ∅ "1" 0
    | None => Some (None, ∅)
    end;
  Some (option_list root
        ++ (orphanNode <$> filter (fun id => id ∉ visited) (map_to_list pages).*1),
        visited).

Definition buildPageTree : option (list PageTreeNode) :=
  fst <$> buildPageTreeVisited.
End PageTree.

(** [flattenTree]: a node, then its children's nodes. *)
Fixpoint flattenNode (node : PageTreeNode) : list PageTreeNode :=
  node :: flat_map flattenNode (treeChildren node).

Definition flattenTree (tree : list PageTreeNode) : list PageTreeNode :=
  flat_map flattenNode tree.




Section ValidateStory.
Context {A : Type}.
Variable pages : gmap jsstring Page.
Variable assets : gmap jsstring A.








End ValidateStory.

(** * Properties *)

(** ** Characters and strings *)

Ltac each_char c := destruct c as [[] [] [] [] [] [] [] []].

Arguments lit : simpl never.
Arguments eqChar : simpl never.
Arguments eqCharCI : simpl never.
Arguments startsWith : simpl never.
Arguments startsWithCI : simpl never.
Arguments comparison : simpl never.
Arguments resolveBlock : simpl never.
Arguments assignedValue : simpl never.
Arguments matchIfHeader : simpl never.

Lemma eqChar_eq a b : eqChar a b = true ↔ a = b.
Proof. apply Ascii.eqb_eq. Qed.

Lemma eqString_eq a b : eqString a b = true ↔ a = b.
Proof.
  revert b. induction a as [|x a IH]; intros [|y b]; simpl; try (split; congruence).
  rewrite andb_true_iff, eqChar_eq, IH. split; [intros [-> ->] | intros [= -> ->]]; done.
Qed.

Lemma eqString_refl a : eqString a a = true.
Proof. by apply eqString_eq. Qed.

Lemma isDigit_lowerChar c : isDigit c = true → lowerChar c = c.
Proof. each_char c; vm_compute; congruence. Qed.

Lemma isChoiceLetter_lowerChar c : isChoiceLetter (lowerChar c) = isChoiceLetter c.
Proof. each_char c; reflexivity. Qed.

Lemma isChoiceLetter_not_digit c : isChoiceLetter c = true → isDigit c = false.
Proof. each_char c; vm_compute; congruence. Qed.

Lemma digitsOfUint_digitOfChar c d :
  isDigit c = true → digitsOfUint (digitOfChar c d) = c :: digitsOfUint d.
Proof. each_char c; vm_compute; congruence. Qed.

Lemma toLowerCase_digits ds : forallb isDigit ds = true → toLowerCase ds = ds.
Proof.
  induction ds as [|c ds IH]; simpl; [done|].
  intros [Hc Hds]%andb_true_iff. by rewrite isDigit_lowerChar, IH.
Qed.

Lemma forallb_toLowerCase_letters ls :
  forallb isChoiceLetter (toLowerCase ls) = forallb isChoiceLetter ls.
Proof.
  induction ls as [|c ls IH]; simpl; [done|].
  by rewrite isChoiceLetter_lowerChar, IH.
Qed.

(** ** Greedy repetition *)

Lemma span_app p s : (span p s).1 ++ (span p s).2 = s.
Proof.
  induction s as [|c s IH]; simpl; [done|].
  destruct (p c); [|done]. destruct (span p s); simpl in *. by rewrite IH.
Qed.

Lemma span_forallb p s : forallb p (span p s).1 = true.
Proof.
  induction s as [|c s IH]; simpl; [done|].
  destruct (p c) eqn:Hc; [|done]. destruct (span p s); simpl in *. by rewrite Hc.
Qed.

Lemma span_stops p s c r : (span p s).2 = c :: r → p c = false.
Proof.
  induction s as [|x s IH]; simpl; [done|].
  destruct (p x) eqn:Hx; [|by intros [= -> ->]].
  destruct (span p s); simpl in *. done.
Qed.

(** A run of [p]-characters followed by the end of the text, or by a
    character outside [p], is what [span] takes. *)
Lemma span_exact p a b :
  forallb p a = true →
  match b with [] => True | c :: _ => p c = false end →
  span p (a ++ b) = (a, b).
Proof.
  intros Ha Hb. induction a as [|x a IH]; simpl in *.
  - destruct b as [|c b]; simpl; [done|]. by rewrite Hb.
  - apply andb_true_iff in Ha as [-> Ha]. by rewrite IH.
Qed.

(** ** Page identifiers *)

(** The grammar of page ids: decimal digits, at least one, followed by the
    letters a to e in either case. *)
Definition matchesPageIdGrammar (s : jsstring) : Prop :=
  ∃ ds ls, s = ds ++ ls ∧ ds ≠ [] ∧
           forallb isDigit ds = true ∧ forallb isChoiceLetter ls = true.

(** The numeral has no superfluous leading zero. *)
Definition canonicalNumeral (ds : jsstring) : Prop :=
  ds = ["0"%char] ∨ ∃ c ds', ds = c :: ds' ∧ c ≠ "0"%char.

Lemma parsePageId_digits_letters ds ls :
  ds ≠ [] → forallb isDigit ds = true → forallb isChoiceLetter ls = true →
  parsePageId (ds ++ ls) = Some {| num := parseInt ds; path := toLowerCase ls |}.
Proof.
  intros Hne Hds Hls. unfold parsePageId.
  rewrite (span_exact isDigit ds ls Hds).
  - destruct ds as [|d ds]; [done|].
    rewrite <- (app_nil_r ls) at 1. by rewrite (span_exact isChoiceLetter ls [] Hls).
  - destruct ls as [|c ls]; [done|]. simpl in Hls.
    apply andb_true_iff in Hls as [Hc _]. by apply isChoiceLetter_not_digit.
Qed.

Lemma parsePageId_Some_grammar s p :
  parsePageId s = Some p → matchesPageIdGrammar s.
Proof.
  unfold parsePageId.
  pose proof (span_app isDigit s) as Hs. pose proof (span_forallb isDigit s) as Hd.
  destruct (span isDigit s) as [ds rest]; simpl in *.
  destruct ds as [|d ds]; [done|].
  pose proof (span_app isChoiceLetter rest) as Hr.
  pose proof (span_forallb isChoiceLetter rest) as Hl.
  destruct (span isChoiceLetter rest) as [ls rest']; simpl in *.
  destruct rest'; [|done]. intros _.
  exists (d :: ds), ls. rewrite app_nil_r in Hr. by subst.
Qed.

Lemma parsePageId_None_iff s : parsePageId s = None ↔ ¬ matchesPageIdGrammar s.
Proof.
  split.
  - intros Hnone (ds & ls & -> & Hne & Hds & Hls).
    by rewrite parsePageId_digits_letters in Hnone.
  - intros Hno. destruct (parsePageId s) eqn:Hp; [|done].
    destruct Hno. by eapply parsePageId_Some_grammar.
Qed.

Lemma parsePageId_empty : parsePageId [] = None.
Proof. reflexivity. Qed.

Lemma digitsOfUint_uintOfDigits ds :
  forallb isDigit ds = true → digitsOfUint (uintOfDigits ds) = ds.
Proof.
  induction ds as [|c ds IH]; simpl; [done|].
  intros [Hc Hds]%andb_true_iff. by rewrite digitsOfUint_digitOfChar, IH.
Qed.

Lemma unorm_canonical ds :
  canonicalNumeral ds → forallb isDigit ds = true →
  unorm (uintOfDigits ds) = uintOfDigits ds.
Proof.
  intros [-> | (c & ds' & -> & Hc)] Hds; [done|].
  simpl in *. apply andb_true_iff in Hds as [Hd _].
  revert Hd Hc. generalize (uintOfDigits ds'). intros u.
  each_char c; vm_compute; congruence.
Qed.

Lemma numberToString_parseInt ds :
  canonicalNumeral ds → forallb isDigit ds = true →
  numberToString (parseInt ds) = ds.
Proof.
  intros Hc Hds. unfold numberToString, parseInt.
  rewrite DecimalN.Unsigned.to_of, unorm_canonical by done.
  by apply digitsOfUint_uintOfDigits.
Qed.

Lemma formatSaveCode_concat page p : formatSaveCode page p = numberToString page ++ p.
Proof.
  unfold formatSaveCode. destruct (page =? 1)%N eqn:Hp; simpl; [|done].
  apply N.eqb_eq in Hp as ->. destruct p; done.
Qed.

Lemma lowerChar_idempotent c : lowerChar (lowerChar c) = lowerChar c.
Proof. each_char c; reflexivity. Qed.

Lemma toLowerCase_idempotent s : toLowerCase (toLowerCase s) = toLowerCase s.
Proof.
  unfold toLowerCase. rewrite map_map. apply map_ext. apply lowerChar_idempotent.
Qed.

Lemma toLowerCase_app a b : toLowerCase (a ++ b) = toLowerCase a ++ toLowerCase b.
Proof. apply map_app. Qed.

(** C6, as stated, fails on a numeral with a leading zero: the id
    <<01>> belongs to the grammar and is parsed, but it is serialized
    again as <<1>>. *)
Lemma pageId_roundtrip_leading_zero :
  matchesPageIdGrammar "01"
  ∧ parsePageId (toLowerCase "01") = Some {| num := 1; path := [] |}
  ∧ formatSaveCode 1 [] ≠ toLowerCase "01".
Proof.
  split; [|split]; [|reflexivity|discriminate].
  exists ("01" : jsstring), []. repeat split; done.
Qed.

(** C6 (amended).  Parsing fails exactly on the strings outside the grammar
    digits-then-letters (letters a to e, either case).  For a string of the
    grammar whose numeral has no superfluous leading zero and denotes a
    number below 2^53, parsing the lower-cased string succeeds and
    [formatSaveCode] of the result gives the lower-cased string back. *)
Theorem pageId_parse_format (s : jsstring) :
  (parsePageId s = None ↔ ¬ matchesPageIdGrammar s)
  ∧ ∀ ds ls,
      s = ds ++ ls → ds ≠ [] →
      forallb isDigit ds = true → forallb isChoiceLetter ls = true →
      canonicalNumeral ds → (parseInt ds < 2 ^ 53)%N →
      ∃ p, parsePageId (toLowerCase s) = Some p
           ∧ formatSaveCode (num p) (path p) = toLowerCase s.
Proof.
  split; [apply parsePageId_None_iff|].
  intros ds ls -> Hne Hds Hls Hcanon _.
  rewrite toLowerCase_app, (toLowerCase_digits ds Hds).
  eexists. split.
  - apply parsePageId_digits_letters; [done..|].
    by rewrite forallb_toLowerCase_letters.
  - simpl. rewrite formatSaveCode_concat, toLowerCase_idempotent.
    by rewrite numberToString_parseInt.
Qed.

Lemma pageId_parse_format_witness :
  ∃ p, parsePageId (toLowerCase "12aB") = Some p
       ∧ formatSaveCode (num p) (path p) = toLowerCase "12aB".
Proof.
  apply (proj2 (pageId_parse_format "12aB") "12" "aB").
  - reflexivity.
  - discriminate.
  - reflexivity.
  - reflexivity.
  - right. by exists "1"%char, ("2" : jsstring).
  - reflexivity.
Defined.

(** ** The player's choice *)

Lemma truthyString_parsePageId o :
  truthyString o ≫= parsePageId = o ≫= parsePageId.
Proof. by destruct o as [[|c s]|]. Qed.


(** ** Conditions on unset variables *)

Section ConditionProperties.
Context `{Num : JSNumber}.


End ConditionProperties.


(** ** Asset references *)

(** The name captured by the asset expression never holds a colon, so the
    tests [name.startsWith(cmd + ':')] and [name.includes(':')] cannot
    succeed. *)
Lemma matchAsset_name_no_colon s name size rest :
  matchAsset s = Some ((name, size), rest) → includes name ":"%char = false.
Proof.
  unfold matchAsset. destruct (lit eqChar "{" s) as [r|]; simpl; [|done].
  pose proof (span_forallb assetNameChar r) as Hall.
  destruct (span assetNameChar r) as [nm r']; simpl in *.
  destruct (nonEmpty nm); [|done]. intros Hm.
  assert (name = nm) as ->.
  { unfold orElse in Hm. repeat (case_match; simplify_option_eq); done. }
  clear Hm. destruct (includes nm ":") eqn:Hin; [|done].
  apply existsb_exists in Hin as (c & Hc & <-%eqChar_eq).
  by rewrite forallb_forall in Hall; apply Hall in Hc.
Qed.

Definition placeholder (assetName sizeClass : jsstring) : jsstring :=
  "<span class=" ++ dquote ++ "asset-placeholder" ++ dquote
  ++ " data-asset=" ++ dquote ++ assetName ++ dquote
  ++ " data-size=" ++ dquote ++ sizeClass ++ dquote ++ "></span>".

(** C4 (code at the failing inputs).  Directive spans whose argument is a
    single word are taken for assets by both scanners: the keyword becomes
    the asset name and the argument the size. *)
Theorem asset_scan_takes_directives :
  extractAssetReferences "{goto:3ab}" = [ "goto" : jsstring ]
  ∧ markAssets "{goto:3ab}" = placeholder "goto" "size-3ab"
  ∧ extractAssetReferences "Gold {add:coins} {if:hasKey}Open{/if} {stop:all}"
    = list_ascii_of_string <$> ["add"; "if"; "stop"]
  ∧ markAssets "{if:hasKey}" = placeholder "if" "size-hasKey"
  ∧ extractAssetReferences "{music:theme.mp3}" = []
  ∧ extractAssetReferences "{cave.png}" = [ "cave.png" : jsstring ].
Proof. vm_compute. repeat split. Qed.

(** ** Editor and engine on nested conditionals *)

(** C3 (code at the failing input).  On a block nested in another, with
    both conditions true, the engine resolves both blocks while the editor
    pairs the outer opener with the inner closer and leaves the inner
    opener and the outer closer in the text. *)
Theorem conditionals_editor_engine_differ :
  let variables : gmap jsstring (VariableValue (@number IntegerNumbers)) :=
    {[ ("a" : jsstring) := VBool true; ("b" : jsstring) := VBool true ]} in
  engineProcessConditionals (Num := IntegerNumbers)
    "{if:a}X{if:b}Y{/if}Z{/if}" variables = Some ("XYZ" : jsstring)
  ∧ editorProcessConditionals (Num := IntegerNumbers)
    "{if:a}X{if:b}Y{/if}Z{/if}" variables = ("X{if:b}YZ{/if}" : jsstring).
Proof. vm_compute. split; reflexivity. Qed.

(** ** Story graph *)

Section GraphProperties.
Variable pages : gmap jsstring Page.

Definition unvisited (reachable : gset jsstring) : gmap jsstring Page :=
  filter (fun kv => kv.1 ∉ reachable) pages.

Lemma totalWeight_delete (m : gmap jsstring Page) k page :
  m !! k = Some page →
  totalWeight m = pageWeight page + totalWeight (delete k m).
Proof.
  intros Hk. unfold totalWeight.
  by rewrite <- (map_to_list_delete m k page Hk).
Qed.

Lemma unvisited_visit reachable current :
  unvisited ({[current]} ∪ reachable) = delete current (unvisited reachable).
Proof.
  unfold unvisited. apply map_eq. intros k.
  destruct (decide (k = current)) as [->|Hne].
  - rewrite lookup_delete_eq. apply map_lookup_filter_None. right.
    intros page _ Hnot. simpl in Hnot. apply Hnot.
    apply elem_of_union_l, elem_of_singleton. done.
  - rewrite lookup_delete_ne by done. rewrite !map_lookup_filter.
    destruct (pages !! k) as [page|]; simpl; [|done].
    assert (k ∈ {[current]} ∪ reachable ↔ k ∈ reachable) as Hiff.
    { rewrite elem_of_union, elem_of_singleton. tauto. }
    repeat case_guard; simpl in *; tauto.
Qed.

Lemma unvisited_lookup reachable current page :
  pages !! current = Some page → current ∉ reachable →
  unvisited reachable !! current = Some page.
Proof. intros Hp Hr. by apply map_lookup_filter_Some. Qed.

Lemma successors_length current page :
  length (successors pages current page) ≤ S (length (pageChoices page)).
Proof.
  unfold successors.
  destruct (hasChoices page && negb (isEnding page)).
  - destruct (parsePageId current); simpl; [|lia].
    etrans; [apply length_filter|]. rewrite length_fmap. lia.
  - destruct (negb (isEnding page)); simpl; [|lia].
    destruct (parsePageId current); simpl; [|lia].
    case_match; simpl; lia.
Qed.

(** Each iteration lowers the length of the queue plus the weight of the
    pages not yet visited, so that much fuel is enough. *)
Lemma reachableLoop_terminates fuel queue reachable :
  length queue + totalWeight (unvisited reachable) ≤ fuel →
  is_Some (reachableLoop pages fuel queue reachable).
Proof.
  revert queue reachable.
  induction fuel as [|fuel IH]; intros [|current queue] reachable Hfuel;
    simpl in *; try done; [lia|].
  destruct (pages !! current) as [page|] eqn:Hpage; [|apply IH; lia].
  case_bool_decide as Hin; [apply IH; lia|].
  apply IH. rewrite unvisited_visit, length_app.
  pose proof (unvisited_lookup _ _ _ Hpage Hin) as Hun.
  pose proof (totalWeight_delete _ _ _ Hun) as Hw.
  pose proof (successors_length current page). unfold pageWeight in Hw. lia.
Qed.

Lemma unvisited_empty : unvisited ∅ = pages.
Proof. unfold unvisited. apply map_filter_id. intros k page _. set_solver. Qed.

Lemma reachableSet_terminates : is_Some (reachableSet pages).
Proof.
  apply reachableLoop_terminates. rewrite unvisited_empty.
  unfold reachableFuel. simpl. lia.
Qed.

Lemma graphNodes_elem reachable (node : GraphNode) :
  node ∈ graphNodes pages reachable ↔
  ∃ id page,
    pages !! id = Some page
    ∧ nodeId node = id ∧ nodeLabel node = id
    ∧ nodeType node = classify reachable id page.
Proof.
  unfold graphNodes. rewrite list_elem_of_fmap. split.
  - intros ([id page] & -> & Hin%elem_of_map_to_list).
    exists id, page. by repeat split.
  - intros (id & page & Hp & Hid & Hlabel & Hty).
    exists (id, page). split; [|by apply elem_of_map_to_list].
    destruct node as [nid nlabel nty]. simpl in *. by subst.
Qed.

Lemma buildGraphData_reachableSet reachable :
  reachableSet pages = Some reachable →
  buildGraphData pages = Some (graphNodes pages reachable, graphEdges pages).
Proof. intros Hr. unfold buildGraphData. by rewrite Hr. Qed.

(** C2 (amended).  [buildGraphData] returns on every page collection.
    Each page gives one node, whose type is [ending] when the page is
    marked as ending, else [choice] when it has choices, else [normal]
    when it is in the set reached from page 1, and [orphan] otherwise:
    [ending] overrides [choice] for every page, and [orphan] is given
    only to unreached pages that are neither. *)
Theorem buildGraphData_classification :
  ∃ reachable,
    reachableSet pages = Some reachable
    ∧ buildGraphData pages = Some (graphNodes pages reachable, graphEdges pages)
    ∧ ∀ node : GraphNode,
        node ∈ graphNodes pages reachable ↔
        ∃ id page,
          pages !! id = Some page
          ∧ nodeId node = id ∧ nodeLabel node = id
          ∧ nodeType node =
              if isEnding page then Ending
              else if hasChoices page then ChoiceNode
              else if bool_decide (id ∈ reachable) then Normal
              else Orphan.
Proof.
  destruct reachableSet_terminates as [reachable Hr]. exists reachable.
  split; [done|]. split; [by apply buildGraphData_reachableSet|].
  apply graphNodes_elem.
Qed.
End GraphProperties.

Definition plainPage : Page :=
  {| content := "Start"; hasChoices := false; isEnding := false; pageChoices := [] |}.

Definition endingPage : Page :=
  {| content := "The end"; hasChoices := false; isEnding := true; pageChoices := [] |}.

Definition examplePages : gmap jsstring Page :=
  {[ ("1" : jsstring) := plainPage; ("5" : jsstring) := endingPage ]}.

(** C2, as stated, fails on an unreachable ending page: page 5 is not
    reached from page 1, and its node has the type [ending], not
    [orphan]. *)
Lemma unreachable_ending_is_ending :
  ∃ reachable nodes edges,
    reachableSet examplePages = Some reachable
    ∧ buildGraphData examplePages = Some (nodes, edges)
    ∧ examplePages !! ("5" : jsstring) = Some endingPage
    ∧ (("5" : jsstring) ∉ reachable)
    ∧ ({| nodeId := "5"; nodeLabel := "5"; nodeType := Ending |} ∈ nodes)
    ∧ ({| nodeId := "5"; nodeLabel := "5"; nodeType := Orphan |} ∉ nodes).
Proof.
  destruct (reachableSet_terminates examplePages) as [reachable Hr].
  pose proof (buildGraphData_reachableSet _ _ Hr) as Hg.
  pose proof (graphNodes_elem examplePages reachable) as Hnodes.
  exists reachable, (graphNodes examplePages reachable), (graphEdges examplePages).
  assert (("5" : jsstring) ∉ reachable) as Hnot.
  { assert ((fun R => bool_decide (("5" : jsstring) ∈ R))
              <$> reachableSet examplePages = Some false) as Hb
      by (vm_compute; reflexivity).
    rewrite Hr in Hb. injection Hb as Hb. by apply bool_decide_eq_false in Hb. }
  assert (examplePages !! ("5" : jsstring) = Some endingPage) as Hp
    by (vm_compute; reflexivity).
  split; [exact Hr|]. split; [exact Hg|]. split; [exact Hp|].
  split; [exact Hnot|]. split.
  - apply Hnodes. exists ("5" : jsstring), endingPage. by repeat split.
  - intros (id & page & Hpage & Hid & _ & Hty)%Hnodes. simpl in *. subst id.
    rewrite Hp in Hpage. injection Hpage as <-. discriminate Hty.
Qed.

(** ** Descendants of a page *)

Definition isLowerChoiceLetter (c : ascii) : bool := between 97 101 c.

Lemma lowerChar_choiceLetter c :
  isChoiceLetter c = true → isLowerChoiceLetter (lowerChar c) = true.
Proof. each_char c; vm_compute; congruence. Qed.

Lemma isLowerChoiceLetter_choice c :
  isLowerChoiceLetter c = true → isChoiceLetter c = true.
Proof. each_char c; vm_compute; congruence. Qed.

Lemma isLowerChoiceLetter_lowerChar c :
  isLowerChoiceLetter c = true → lowerChar c = c.
Proof. each_char c; vm_compute; congruence. Qed.

Lemma forallb_impl {A} (f g : A → bool) l :
  (∀ x, f x = true → g x = true) → forallb f l = true → forallb g l = true.
Proof.
  intros Hfg. induction l as [|x l IH]; simpl; [done|].
  intros [Hx Hl]%andb_true_iff. by rewrite Hfg, IH.
Qed.

Lemma toLowerCase_lower p :
  forallb isLowerChoiceLetter p = true → toLowerCase p = p.
Proof.
  induction p as [|c p IH]; simpl; [done|].
  intros [Hc Hp]%andb_true_iff. by rewrite isLowerChoiceLetter_lowerChar, IH.
Qed.


Lemma uintOfDigits_digitsOfUint d : uintOfDigits (digitsOfUint d) = d.
Proof. induction d; simpl; [done|..]; by rewrite IHd. Qed.



Lemma parseInt_numberToString n : parseInt (numberToString n) = n.
Proof.
  unfold parseInt, numberToString.
  by rewrite uintOfDigits_digitsOfUint, DecimalN.Unsigned.of_to.
Qed.









Section DescendantsProperties.
Context {P : Type}.
Variable pages : gmap jsstring P.
Variable maxChoices : nat.

(** The path of [k] starts with [p]. *)
Definition under (p k : jsstring) : Prop :=
  match parsePageId k with
  | Some q => p `prefix_of` path q
  | None => False
  end.

Definition strictlyUnder (p k : jsstring) : Prop :=
  match parsePageId k with
  | Some q => p `prefix_of` path q ∧ p ≠ path q
  | None => False
  end.

#[local] Instance under_dec p k : Decision (under p k).
Proof. unfold under. destruct (parsePageId k); apply _. Defined.

#[local] Instance strictlyUnder_dec p k : Decision (strictlyUnder p k).
Proof. unfold strictlyUnder. destruct (parsePageId k); apply _. Defined.












Definition childId (q : ParsedPageId) (l : ascii) : jsstring :=
  numberToString (num q + 1) ++ path q ++ [l].








End DescendantsProperties.

(** ** Global scans *)

Section ScanProperties.
Context {A : Type}.
Variable m : bool → jsstring → option (A * jsstring).
Variable f : A → jsstring.

(** Every replacement is shorter than the text it replaces. *)
Definition shrinks : Prop :=
  ∀ bol s a rest, m bol s = Some (a, rest) → length (f a) + length rest < length s.

Lemma replaceFrom_length :
  shrinks → ∀ s skip bol,
    length (replaceFrom m f skip bol s).1 ≤ length s - skip
    ∧ ((replaceFrom m f skip bol s).2 = true →
       length (replaceFrom m f skip bol s).1 < length s - skip).
Proof.
  intros Hshrinks. induction s as [|c s IH]; intros skip bol; simpl.
  - split; [lia|done].
  - destruct skip as [|k].
    + destruct (m bol (c :: s)) as [[a rest]|] eqn:Hm; simpl.
      * apply Hshrinks in Hm. simpl in Hm.
        destruct (IH (pred (matchLength (c :: s) rest)) (isLineTerminator c)) as [Hle _].
        unfold matchLength in *. simpl length in *. rewrite length_app. lia.
      * destruct (IH 0 (isLineTerminator c)) as [Hle Hlt]. split; [lia|].
        intros Hch. specialize (Hlt Hch). lia.
    + destruct (IH k (isLineTerminator c)) as [Hle Hlt]. split; [lia|].
      intros Hch. specialize (Hlt Hch). lia.
Qed.

Lemma replaceFrom_unchanged s bol :
  (replaceFrom m f 0 bol s).2 = false → (replaceFrom m f 0 bol s).1 = s.
Proof.
  revert bol. induction s as [|c s IH]; intros bol; simpl; [done|].
  destruct (m bol (c :: s)) as [[a rest]|]; simpl; [done|].
  intros Hch. by rewrite IH.
Qed.


End ScanProperties.

(** ** Termination of conditional resolution *)

(** Case analysis on the first literal test of the goal. *)
Ltac case_lit r H :=
  match goal with
  | |- context [lit ?e ?p ?s] => destruct (lit e p s) as [r|] eqn:H
  end.

Lemma lit_nil eq s : lit eq [] s = Some s.
Proof. reflexivity. Qed.

Lemma lit_cons eq x p c s :
  lit eq (x :: p) (c :: s) = if eq x c then lit eq p s else None.
Proof. reflexivity. Qed.

Lemma lit_cons_nil eq x p : lit eq (x :: p) [] = None.
Proof. reflexivity. Qed.

Lemma lit_length eq p s rest :
  lit eq p s = Some rest → length s = length p + length rest.
Proof.
  revert s. induction p as [|x p IH]; intros s.
  - rewrite lit_nil. by intros [= ->].
  - destruct s as [|c s]; [by rewrite lit_cons_nil|].
    rewrite lit_cons. destruct (eq x c); [|done]. intros Hr%IH. simpl. lia.
Qed.

Lemma span_length p s : length (span p s).1 + length (span p s).2 = length s.
Proof. by rewrite <- length_app, span_app. Qed.

Section ConditionalTermination.
Context `{Num : JSNumber}.

Lemma assignedValue_length e s value rest :
  assignedValue e s = Some (value, rest) → length rest < length s.
Proof.
  unfold assignedValue. case_lit r Hr; simpl; [|done].
  apply lit_length in Hr. pose proof (span_length notCloseBrace r) as Hspan.
  destruct (span notCloseBrace r) as [v r']. simpl in Hspan.
  destruct (nonEmpty v); [|done].
  case_lit r'' Hr'; simpl; [|done].
  apply lit_length in Hr'. simpl in Hr'. intros [= <- <-]. lia.
Qed.

Lemma comparison_length ops s op value rest :
  comparison ops s = Some ((op, value), rest) → length rest < length s.
Proof.
  induction ops as [|o ops IH]; [done|].
  unfold comparison; fold comparison. unfold orElse.
  destruct (assignedValue o s) as [[v r]|] eqn:Ha; simpl.
  - intros [= <- <- <-]. by eapply assignedValue_length.
  - exact IH.
Qed.

Lemma matchIfHeader_length s h rest :
  matchIfHeader s = Some (h, rest) → length rest + 4 < length s.
Proof.
  unfold matchIfHeader. case_lit r Hr; simpl; [|done].
  apply lit_length in Hr. simpl in Hr.
  pose proof (span_length isWord r) as Hspan.
  destruct (span isWord r) as [name r']. simpl in Hspan.
  destruct (nonEmpty name); [|done]. unfold orElse.
  destruct (comparison operators r') as [[[op value] r'']|] eqn:Hc; simpl.
  - apply comparison_length in Hc. intros [= <- <-]. lia.
  - case_lit r'' Hr'; simpl; [|done].
    apply lit_length in Hr'. simpl in Hr'. intros [= <- <-]. lia.
Qed.

Lemma innermostBody_length s body rest :
  innermostBody s = Some (body, rest) → length body + length rest < length s.
Proof.
  revert body. induction s as [|c s IH]; intros body; simpl.
  - done.
  - case_lit r Hl.
    + apply lit_length in Hl. simpl in Hl. intros [= <- <-]. simpl. lia.
    + case_match; [done|].
      destruct (innermostBody s) as [[b r']|]; simpl; [|done].
      intros [= <- <-]. specialize (IH _ eq_refl). simpl. lia.
Qed.

Lemma resolveBlock_length variables h content :
  length (resolveBlock variables (h, content)) ≤ length content.
Proof. unfold resolveBlock. case_match; simpl; lia. Qed.

Lemma engineConditional_shrinks (variables : gmap jsstring (VariableValue number)) :
  shrinks (unanchored (matchConditional innermostBody)) (resolveBlock variables).
Proof.
  intros bol s [h content] rest. unfold unanchored, matchConditional.
  destruct (matchIfHeader s) as [[h' r]|] eqn:Hh; simpl; [|done].
  destruct (innermostBody r) as [[b r']|] eqn:Hb; simpl; [|done].
  intros [= <- <- <-]. apply matchIfHeader_length in Hh.
  apply innermostBody_length in Hb.
  pose proof (resolveBlock_length variables h' b). lia.
Qed.

Lemma engineConditionalPass_length variables text :
  (engineConditionalPass variables text).2 = true →
  length (engineConditionalPass variables text).1 < length text.
Proof.
  intros Hch.
  destruct (replaceFrom_length _ _ (engineConditional_shrinks variables) text 0 true)
    as [_ Hlt].
  specialize (Hlt Hch). unfold engineConditionalPass. lia.
Qed.

Lemma engineConditionalLoop_terminates fuel variables text :
  length text < fuel → is_Some (engineConditionalLoop fuel variables text).
Proof.
  revert text. induction fuel as [|fuel IH]; intros text Hfuel; [lia|]. simpl.
  pose proof (engineConditionalPass_length variables text) as Hlen.
  destruct (engineConditionalPass variables text) as [result changed]. simpl in Hlen.
  destruct changed; [|done]. apply IH. specialize (Hlen eq_refl). lia.
Qed.

(** The engine's loop ends on every text. *)
Lemma engineProcessConditionals_terminates text variables :
  is_Some (engineProcessConditionals text variables).
Proof. apply engineConditionalLoop_terminates. lia. Qed.
End ConditionalTermination.

(** ** Order of the variable operations *)

Section OperationOrder.
Context `{Num : JSNumber}.














End OperationOrder.


(** ** Choice lines *)








Section ScanSpans.
Context {A : Type}.
Variable m : bool → jsstring → option (A * jsstring).




Lemma execFrom_match pos bol c s a rest :
  m bol (c :: s) = Some (a, rest) →
  execFrom m pos 0 bol (c :: s)
  = (pos, a) :: execFrom m (S pos) (pred (matchLength (c :: s) rest))
                         (isLineTerminator c) s.
Proof. intros Hm. simpl. by rewrite Hm. Qed.

Lemma execFrom_no_match pos bol c s :
  m bol (c :: s) = None →
  execFrom m pos 0 bol (c :: s) = execFrom m (S pos) 0 (isLineTerminator c) s.
Proof. intros Hm. simpl. by rewrite Hm. Qed.

Lemma replaceFrom_match f bol c s a rest :
  m bol (c :: s) = Some (a, rest) →
  replaceFrom m f 0 bol (c :: s)
  = (f a ++ (replaceFrom m f (pred (matchLength (c :: s) rest))
                         (isLineTerminator c) s).1, true).
Proof. intros Hm. simpl. by rewrite Hm. Qed.

Lemma replaceFrom_no_match f bol c s :
  m bol (c :: s) = None →
  replaceFrom m f 0 bol (c :: s)
  = (c :: (replaceFrom m f 0 (isLineTerminator c) s).1,
     (replaceFrom m f 0 (isLineTerminator c) s).2).
Proof. intros Hm. simpl. by rewrite Hm. Qed.
End ScanSpans.





Section ReplaceSpans.
Context {A : Type}.
Variable m : bool → jsstring → option (A * jsstring).


End ReplaceSpans.


Lemma fmap_orElse {A B} (f : A → B) (a b : option A) :
  f <$> orElse a b = orElse (f <$> a) (f <$> b).
Proof. by destruct a. Qed.

Lemma spacesThen_same_rest {A B}
    (k1 : jsstring → option (A * jsstring)) (k2 : jsstring → option (B * jsstring)) :
  (∀ r, snd <$> k1 r = snd <$> k2 r) →
  ∀ s, snd <$> spacesThen k1 s = snd <$> spacesThen k2 s.
Proof.
  intros Hk. induction s as [|c s IH]; simpl; [apply Hk|].
  destruct (isSpace c); [|apply Hk]. by rewrite !fmap_orElse, IH, Hk.
Qed.

Lemma choiceLineSpan_rest bol s :
  snd <$> choiceLineSpan bol s = snd <$> choiceLineMatch bol s.
Proof.
  unfold choiceLineSpan, choiceLineMatch, choicePattern.
  destruct bol; [|done]. destruct s as [|l r]; [done|].
  destruct (isChoiceLetter l); [|done].
  case_lit r0 Hr0; simpl; [|done].
  apply spacesThen_same_rest. intros r1. rewrite !fmap_orElse. f_equal.
  - destruct (bracketedPageId r1) as [[target r2]|]; simpl; [|done].
    apply spacesThen_same_rest. intros r3.
    by destruct (restOfLine r3) as [[t rest]|].
  - by destruct (restOfLine r1) as [[t rest]|].
Qed.







(** ** Unmatched conditional tokens *)

(** The conditional tokens of a text: its openers, as the header expression
    of the sources matches them, and its closers, found in one scan from
    left to right; each token is the text matched. *)
Inductive Token :=
| TOpen (h : jsstring)
| TClose (c : jsstring).

Definition matchToken (s : jsstring) : option (Token * jsstring) :=
  orElse
    ('(_, rest) ← matchIfHeader s; Some (TOpen (matched s rest), rest))
    (rest ← lit eqCharCI "{/if}" s; Some (TClose (matched s rest), rest)).

Definition tokensOf (text : jsstring) : list Token :=
  (execAll (unanchored matchToken) text).*2.

(** Bracket matching: a closer is paired with the nearest opener before it
    that is not yet paired.  [pending] holds the openers waiting for their
    closer, the latest first. *)
Fixpoint unmatchedFrom (pending tokens : list Token) : list Token :=
  match tokens with
  | [] => rev pending
  | TOpen h :: tokens' => unmatchedFrom (TOpen h :: pending) tokens'
  | TClose c :: tokens' =>
      match pending with
      | [] => TClose c :: unmatchedFrom [] tokens'
      | _ :: pending' => unmatchedFrom pending' tokens'
      end
  end.

(** The tokens left without partner, in the order of the text. *)
Definition unmatched (tokens : list Token) : list Token := unmatchedFrom [] tokens.

(** C7, as stated, fails in the engine when removing a block joins two
    fragments into a new opener: the last closer of the text has no partner,
    and the second pass of the loop consumes it with the opener that the
    first pass created.  In the editor an opener without partner is removed
    together with the opener nested inside it. *)
Lemma unmatched_token_removed :
  let spliced : jsstring := "{i{if:a}{/if}f:b}X{/if}" in
  let nested : jsstring := "{if:a}X{if:b}Y{/if}" in
  (unmatched (tokensOf spliced) = [TClose "{/if}"]
   ∧ engineProcessConditionals (Num := IntegerNumbers) spliced ∅ = Some []
   ∧ tokensOf [] = [])
  ∧ (unmatched (tokensOf nested) = [TOpen "{if:a}"]
     ∧ editorProcessConditionals (Num := IntegerNumbers) nested ∅ = []).
Proof. vm_compute. repeat split. Qed.

(** A text cut into pieces: complete openers, complete closers, and the
    text between them. *)
Inductive Item :=
| Lit (s : jsstring)
| Open (h : jsstring) (header : IfHeader)
| Close (c : jsstring).

Definition itemText (item : Item) : jsstring :=
  match item with
  | Lit s => s
  | Open h _ => h
  | Close c => c
  end.

Definition render (items : list Item) : jsstring := items ≫= itemText.

Definition itemTokens (item : Item) : list Token :=
  match item with
  | Lit _ => []
  | Open h _ => [TOpen h]
  | Close c => [TClose c]
  end.

Definition tokensOfItems (items : list Item) : list Token := items ≫= itemTokens.

(** [u] and the pattern [p] differ, case aside, at a position both have. *)
Fixpoint diverges (u p : jsstring) : bool :=
  match u, p with
  | c :: u', x :: p' => if eqCharCI x c then diverges u' p' else true
  | _, _ => false
  end.

(** No position of [s] starts an opener or a closer, or a part of one
    that the text after [s] could complete. *)
Fixpoint inert (s : jsstring) : bool :=
  match s with
  | [] => true
  | _ :: s' => diverges s "{if:" && diverges s "{/if}" && inert s'
  end.

(** The pieces are what they are called whatever text follows them, and a
    token holds no part of another token. *)
Definition wellFormedItem (item : Item) : Prop :=
  match item with
  | Lit s => inert s = true
  | Open h header =>
      (∀ rest, matchIfHeader (h ++ rest) = Some (header, rest))
      ∧ inert (tail h) = true
  | Close c => lit eqCharCI "{/if}" c = Some []
  end.

(** The text is a sequence of complete conditional tokens and of text that
    holds no fragment of a token. *)
Definition tokenStructured (text : jsstring) : Prop :=
  ∃ items, Forall wellFormedItem items ∧ text = render items.

Lemma lit_app eq p s r t : lit eq p s = Some r → lit eq p (s ++ t) = Some (r ++ t).
Proof.
  revert s. induction p as [|x p IH]; intros s.
  - rewrite !lit_nil. by intros [= ->].
  - destruct s as [|c s]; [by rewrite lit_cons_nil|].
    rewrite <- app_comm_cons, !lit_cons. destruct (eq x c); [apply IH|done].
Qed.

Lemma diverges_lit u p t : diverges u p = true → lit eqCharCI p (u ++ t) = None.
Proof.
  revert p. induction u as [|c u IH]; intros [|x p]; simpl; try done.
  rewrite lit_cons. destruct (eqCharCI x c); [apply IH|done].
Qed.

Lemma eqCharCI_distinct x y c :
  eqCharCI x c = true → lowerChar x ≠ lowerChar y → eqCharCI y c = false.
Proof.
  unfold eqCharCI. intros Hx%Ascii.eqb_eq Hne.
  apply Ascii.eqb_neq. congruence.
Qed.

Lemma diverges_first c u x p : eqCharCI x c = false → diverges (c :: u) (x :: p) = true.
Proof. simpl. by intros ->. Qed.

(** No position of [s] starts an opener. *)
Fixpoint quiet (s : jsstring) : bool :=
  match s with
  | [] => true
  | _ :: s' => diverges s "{if:" && quiet s'
  end.

Lemma inert_quiet s : inert s = true → quiet s = true.
Proof.
  induction s as [|c s IH]; [done|]. cbn [inert quiet].
  intros [[Hopen _]%andb_true_iff Hs]%andb_true_iff. by rewrite Hopen, IH.
Qed.

Lemma diverges_app u b p : diverges u p = true → diverges (u ++ b) p = true.
Proof.
  revert p. induction u as [|d u IH]; intros [|x p]; simpl; try done.
  destruct (eqCharCI x d); [apply IH|done].
Qed.

Lemma inert_app a b : inert a = true → inert b = true → inert (a ++ b) = true.
Proof.
  intros Ha Hb. induction a as [|c a IH]; [done|].
  cbn [inert] in Ha. apply andb_true_iff in Ha as [[Ho Hc]%andb_true_iff Ha].
  rewrite <- app_comm_cons. cbn [inert]. rewrite IH by done.
  rewrite !app_comm_cons, !diverges_app; done.
Qed.

Lemma inert_concat (lits : list jsstring) :
  Forall (fun s => inert s = true) lits → inert (mjoin lits) = true.
Proof.
  induction 1 as [|s lits Hs _ IH]; [done|]. simpl. by apply inert_app.
Qed.

Section UnanchoredScans.
Context {A : Type}.
Variable m : jsstring → option (A * jsstring).
Variable f : A → jsstring.

Lemma replaceFrom_unanchored_bol skip b1 b2 s :
  replaceFrom (unanchored m) f skip b1 s = replaceFrom (unanchored m) f skip b2 s.
Proof. destruct s as [|c s]; [done|]. by destruct skip. Qed.

Lemma execFrom_unanchored_bol pos skip b1 b2 s :
  execFrom (unanchored m) pos skip b1 s = execFrom (unanchored m) pos skip b2 s.
Proof. destruct s as [|c s]; [done|]. by destruct skip. Qed.

Lemma execFrom_values_pos pos pos' skip b s :
  (execFrom (unanchored m) pos skip b s).*2 = (execFrom (unanchored m) pos' skip b s).*2.
Proof.
  revert pos pos' skip b. induction s as [|c s IH]; intros pos pos' skip b; [done|].
  simpl. destruct skip as [|k]; [|apply IH].
  change (unanchored m b (c :: s)) with (m (c :: s)).
  destruct (m (c :: s)) as [[a rest]|]; [|apply IH].
  rewrite !fmap_cons. f_equal. apply IH.
Qed.

(** Passing over the rest of a match. *)
Lemma replaceFrom_skip a k b t :
  replaceFrom (unanchored m) f (length a + k) b (a ++ t)
  = replaceFrom (unanchored m) f k b t.
Proof.
  revert b. induction a as [|c a IH]; intros b; [done|].
  simpl. rewrite IH. apply replaceFrom_unanchored_bol.
Qed.

Lemma execFrom_skip a k pos b t :
  (execFrom (unanchored m) pos (length a + k) b (a ++ t)).*2
  = (execFrom (unanchored m) pos k b t).*2.
Proof.
  revert pos b. induction a as [|c a IH]; intros pos b; [done|].
  simpl. rewrite IH, (execFrom_values_pos (S pos) pos).
  by rewrite (execFrom_unanchored_bol _ _ _ b).
Qed.

(** Passing over text at which the matcher fails everywhere. *)
Lemma replaceFrom_fails a b t :
  (∀ u v, a = v ++ u → u ≠ [] → m (u ++ t) = None) →
  replaceFrom (unanchored m) f 0 b (a ++ t)
  = (a ++ (replaceFrom (unanchored m) f 0 b t).1,
     (replaceFrom (unanchored m) f 0 b t).2).
Proof.
  revert b. induction a as [|c a IH]; intros b Hfail.
  - simpl. by destruct (replaceFrom _ _ _ _ _).
  - rewrite <- app_comm_cons, replaceFrom_no_match.
    + rewrite IH.
      * simpl. by rewrite (replaceFrom_unanchored_bol _ _ b).
      * intros u v -> Hu. apply (Hfail u (c :: v)); done.
    + apply (Hfail (c :: a) []); done.
Qed.

Lemma execFrom_fails a pos b t :
  (∀ u v, a = v ++ u → u ≠ [] → m (u ++ t) = None) →
  (execFrom (unanchored m) pos 0 b (a ++ t)).*2
  = (execFrom (unanchored m) pos 0 b t).*2.
Proof.
  revert pos b. induction a as [|c a IH]; intros pos b Hfail; [done|].
  rewrite <- app_comm_cons, execFrom_no_match.
  - rewrite IH.
    + rewrite (execFrom_values_pos (S pos) pos).
      by rewrite (execFrom_unanchored_bol _ _ _ b).
    + intros u v -> Hu. apply (Hfail u (c :: v)); done.
  - apply (Hfail (c :: a) []); done.
Qed.
End UnanchoredScans.

Lemma lit_shape eq p s r :
  lit eq p s = Some r →
  ∃ pre, s = pre ++ r ∧ Forall2 (fun x c => eq x c = true) p pre.
Proof.
  revert s. induction p as [|x p IH]; intros s.
  - rewrite lit_nil. intros [= ->]. by exists [].
  - destruct s as [|c s]; [by rewrite lit_cons_nil|]. rewrite lit_cons.
    destruct (eq x c) eqn:Hx; [|done]. intros (pre & -> & Hpre)%IH.
    exists (c :: pre). split; [done|]. by constructor.
Qed.

Lemma quiet_suffix a u v :
  quiet a = true → a = v ++ u → u ≠ [] → diverges u "{if:" = true.
Proof.
  revert a. induction v as [|d v IH]; intros a Ha ->.
  - destruct u as [|c u]; [done|]. intros _. cbn [quiet] in Ha.
    by apply andb_true_iff in Ha as [? _].
  - intros Hu. rewrite <- app_comm_cons in Ha. cbn [quiet] in Ha.
    apply andb_true_iff in Ha as [_ Ha]. by eapply IH.
Qed.

Lemma inert_suffix a u v :
  inert a = true → a = v ++ u → u ≠ [] →
  diverges u "{if:" = true ∧ diverges u "{/if}" = true.
Proof.
  revert a. induction v as [|d v IH]; intros a Ha ->.
  - destruct u as [|c u]; [done|]. intros _. cbn [inert] in Ha.
    by apply andb_true_iff in Ha as [[? ?]%andb_true_iff _].
  - intros Hu. rewrite <- app_comm_cons in Ha. cbn [inert] in Ha.
    apply andb_true_iff in Ha as [_ Ha]. by eapply IH.
Qed.

Lemma matchIfHeader_diverges u t :
  diverges u "{if:" = true → matchIfHeader (u ++ t) = None.
Proof. intros Hd. unfold matchIfHeader. by rewrite (diverges_lit _ _ _ Hd). Qed.

(** The shape of a closer and of the start of an opener. *)
Lemma closer_shape c :
  lit eqCharCI "{/if}" c = Some [] →
  ∃ c0 c1 c2 c3 c4,
    c = [c0; c1; c2; c3; c4]
    ∧ eqCharCI "{" c0 = true ∧ eqCharCI "/" c1 = true ∧ eqCharCI "i" c2 = true
    ∧ eqCharCI "f" c3 = true ∧ eqCharCI "}" c4 = true.
Proof.
  intros (pre & -> & Hpre)%lit_shape. rewrite app_nil_r. simpl in Hpre.
  repeat match goal with
         | H : Forall2 _ (_ :: _) _ |- _ =>
             apply Forall2_cons_inv_l in H as (? & ? & ? & H & ->)
         | H : Forall2 _ [] _ |- _ => apply Forall2_nil_inv_l in H as ->
         end.
  by repeat eexists.
Qed.

Lemma opener_shape h header :
  (∀ rest, matchIfHeader (h ++ rest) = Some (header, rest)) →
  ∃ h0 h1 h2 h3 r,
    h = h0 :: h1 :: h2 :: h3 :: r
    ∧ eqCharCI "{" h0 = true ∧ eqCharCI "i" h1 = true
    ∧ eqCharCI "f" h2 = true ∧ eqCharCI ":" h3 = true.
Proof.
  intros Hh. specialize (Hh []). rewrite app_nil_r in Hh.
  unfold matchIfHeader in Hh. revert Hh. case_lit r Hr; [|done]. intros _.
  apply lit_shape in Hr as (pre & -> & Hpre). simpl in Hpre.
  repeat match goal with
         | H : Forall2 _ (_ :: _) _ |- _ =>
             apply Forall2_cons_inv_l in H as (? & ? & ? & H & ->)
         | H : Forall2 _ [] _ |- _ => apply Forall2_nil_inv_l in H as ->
         end.
  by repeat eexists.
Qed.

Lemma closer_diverges c :
  lit eqCharCI "{/if}" c = Some [] → diverges c "{if:" = true.
Proof.
  intros (c0 & c1 & c2 & c3 & c4 & -> & H0 & H1 & _)%closer_shape.
  simpl. rewrite H0. by rewrite (eqCharCI_distinct "/" "i" c1 H1).
Qed.

Lemma inert_no_brace s :
  Forall (fun c => eqCharCI "{" c = false) s → inert s = true.
Proof.
  induction 1 as [|c s Hc _ IH]; [done|]. cbn [inert]. rewrite IH.
  simpl. by rewrite Hc.
Qed.

Lemma closer_tail_inert c :
  lit eqCharCI "{/if}" c = Some [] → inert (tail c) = true.
Proof.
  intros (c0 & c1 & c2 & c3 & c4 & -> & _ & H1 & H2 & H3 & H4)%closer_shape.
  apply inert_no_brace. repeat constructor.
  - by apply (eqCharCI_distinct "/" "{" c1).
  - by apply (eqCharCI_distinct "i" "{" c2).
  - by apply (eqCharCI_distinct "f" "{" c3).
  - by apply (eqCharCI_distinct "}" "{" c4).
Qed.

Lemma closer_quiet c : lit eqCharCI "{/if}" c = Some [] → quiet c = true.
Proof.
  intros Hc. pose proof (closer_diverges c Hc) as Hd.
  pose proof (inert_quiet _ (closer_tail_inert c Hc)) as Hq.
  destruct c as [|c0 c]; [done|]. cbn [quiet]. simpl in Hq. by rewrite Hd, Hq.
Qed.

Lemma innermostBody_inert a t :
  inert a = true →
  innermostBody (a ++ t) = (fun '(body, rest) => (a ++ body, rest)) <$> innermostBody t.
Proof.
  induction a as [|c a IH]; intros Ha.
  - simpl. by destruct (innermostBody t) as [[body rest]|].
  - destruct (inert_suffix _ (c :: a) [] Ha eq_refl) as [Hopen Hclose]; [done|].
    cbn [inert] in Ha. apply andb_true_iff in Ha as [_ Ha].
    rewrite <- app_comm_cons. cbn [innermostBody].
    rewrite app_comm_cons, (diverges_lit _ _ t Hclose).
    unfold startsWithCI. rewrite (diverges_lit _ _ t Hopen).
    rewrite IH by done. by destruct (innermostBody t) as [[body rest]|].
Qed.

Lemma innermostBody_closer c t :
  lit eqCharCI "{/if}" c = Some [] → innermostBody (c ++ t) = Some ([], t).
Proof.
  intros Hc. pose proof (lit_app _ _ _ _ t Hc) as Hct.
  destruct c as [|c0 c]; [done|]. rewrite <- app_comm_cons in *.
  cbn [innermostBody]. by rewrite Hct.
Qed.

Lemma innermostBody_opener h header t :
  (∀ rest, matchIfHeader (h ++ rest) = Some (header, rest)) →
  innermostBody (h ++ t) = None.
Proof.
  intros (h0 & h1 & h2 & h3 & r & -> & H0 & H1 & H2 & H3)%opener_shape.
  rewrite <- !app_comm_cons. cbn [innermostBody].
  assert (lit eqCharCI "{/if}" (h0 :: h1 :: h2 :: h3 :: r ++ t) = None) as ->.
  { simpl. rewrite !lit_cons, H0. by rewrite (eqCharCI_distinct "i" "/" h1 H1). }
  unfold startsWithCI. simpl. by rewrite !lit_cons, H0, H1, H2, H3, lit_nil.
Qed.

(** The text items before the first token, when that token is a closer,
    with the closer and the items after it. *)
Fixpoint splitBody (items : list Item)
  : option (list jsstring * jsstring * list Item) :=
  match items with
  | Lit s :: items' =>
      '(lits, c, rest) ← splitBody items'; Some (s :: lits, c, rest)
  | Close c :: items' => Some ([], c, items')
  | _ => None
  end.

Lemma splitBody_Some items lits c rest :
  splitBody items = Some (lits, c, rest) → Forall wellFormedItem items →
  render items = mjoin lits ++ c ++ render rest
  ∧ tokensOfItems items = TClose c :: tokensOfItems rest
  ∧ Forall (fun s => inert s = true) lits
  ∧ lit eqCharCI "{/if}" c = Some []
  ∧ Forall wellFormedItem rest
  ∧ length rest < length items.
Proof.
  revert lits. induction items as [|[s|h header|c'] items IH]; intros lits; simpl;
    try done.
  - destruct (splitBody items) as [[[lits' c''] rest']|]; simpl; [|done].
    intros [= <- <- <-] [Hs Hitems]%Forall_cons.
    destruct (IH _ eq_refl Hitems) as (Hr & Ht & Hl & Hc & Hrest & Hlen).
    unfold render, tokensOfItems in *. simpl.
    rewrite Hr, Ht, <- app_assoc. repeat split; try done; [by constructor|lia].
  - intros [= <- <- <-] [Hc Hitems]%Forall_cons. repeat split; try done; lia.
Qed.

Lemma splitBody_None items :
  splitBody items = None → Forall wellFormedItem items →
  innermostBody (render items) = None
  ∧ (tokensOfItems items = []
     ∨ ∃ h tokens, tokensOfItems items = TOpen h :: tokens).
Proof.
  induction items as [|[s|h header|c'] items IH]; simpl.
  - intros _ _. split; [done|by left].
  - destruct (splitBody items) as [[[lits' c''] rest']|]; simpl; [done|].
    intros _ [Hs Hitems]%Forall_cons. destruct (IH eq_refl Hitems) as [Hb Ht].
    split; [|done]. unfold render in *. simpl.
    by rewrite innermostBody_inert, Hb.
  - intros _ [[Hh _] _]%Forall_cons. split; [|right; by eauto].
    unfold render. simpl. by eapply innermostBody_opener.
  - done.
Qed.

Definition startsWithClose (tokens : list Token) : Prop :=
  match tokens with
  | TClose _ :: _ => True
  | _ => False
  end.

Lemma matchConditional_resolves h header lits c t :
  (∀ rest, matchIfHeader (h ++ rest) = Some (header, rest)) →
  Forall (fun s => inert s = true) lits →
  lit eqCharCI "{/if}" c = Some [] →
  matchConditional innermostBody (h ++ mjoin lits ++ c ++ t)
  = Some ((header, mjoin lits), t).
Proof.
  intros Hh Hlits Hc. unfold matchConditional. rewrite Hh. simpl.
  rewrite innermostBody_inert by by apply inert_concat.
  rewrite innermostBody_closer by done. simpl. by rewrite app_nil_r.
Qed.

Lemma matchConditional_keeps h header t :
  (∀ rest, matchIfHeader (h ++ rest) = Some (header, rest)) →
  innermostBody t = None →
  matchConditional innermostBody (h ++ t) = None.
Proof. intros Hh Ht. unfold matchConditional. rewrite Hh. simpl. by rewrite Ht. Qed.

Section EnginePass.
Context `{Num : JSNumber}.
Variable variables : gmap jsstring (VariableValue number).

Lemma pass_quiet a b t :
  quiet a = true →
  replaceFrom (unanchored (matchConditional innermostBody)) (resolveBlock variables)
              0 b (a ++ t)
  = (a ++ (engineConditionalPass variables t).1, (engineConditionalPass variables t).2).
Proof.
  intros Ha. unfold engineConditionalPass. rewrite replaceFrom_fails.
  - by rewrite (replaceFrom_unanchored_bol _ _ _ b true).
  - intros u v Hsplit Hu. unfold matchConditional.
    by rewrite (matchIfHeader_diverges _ _ (quiet_suffix _ _ _ Ha Hsplit Hu)).
Qed.

Lemma resolveBlock_inert header content :
  inert content = true → inert (resolveBlock variables (header, content)) = true.
Proof. intros Hc. unfold resolveBlock. by case_match. Qed.

(** One pass of the engine over well-formed items: the result is again
    made of well-formed items, bracket matching finds the same unmatched
    tokens in it, and when nothing changed no opener is followed by a
    closer. *)
Lemma enginePass_items n items :
  length items ≤ n → Forall wellFormedItem items →
  ∃ out changed,
    engineConditionalPass variables (render items) = (render out, changed)
    ∧ Forall wellFormedItem out
    ∧ (∀ pending, unmatchedFrom pending (tokensOfItems out)
                  = unmatchedFrom pending (tokensOfItems items))
    ∧ (changed = false →
       out = items
       ∧ ∀ pending,
           pending = [] ∨ ¬ startsWithClose (tokensOfItems items) →
           unmatchedFrom pending (tokensOfItems items)
           = rev pending ++ tokensOfItems items).
Proof.
  revert items. induction n as [|n IH]; intros items Hlen Hwf.
  { destruct items; [|simpl in Hlen; lia]. exists [], false.
    repeat split; try done. intros pending _. simpl. by rewrite app_nil_r. }
  destruct items as [|[s|h header|c] rest].
  { exists [], false. repeat split; try done.
    intros pending _. simpl. by rewrite app_nil_r. }
  - (* text *)
    apply Forall_cons in Hwf as [Hs Hrest]. simpl in Hlen.
    destruct (IH rest ltac:(lia) Hrest) as (out & changed & Hpass & Hout & Hum & Hsame).
    exists (Lit s :: out), changed. split; [|split; [|split]].
    + change (render (Lit s :: rest)) with (s ++ render rest).
      unfold engineConditionalPass at 1.
      rewrite (pass_quiet s true (render rest) (inert_quiet _ Hs)), Hpass. done.
    + by constructor.
    + intros pending. apply Hum.
    + intros Hch. destruct (Hsame Hch) as [-> Hfix]. split; [done|]. exact Hfix.
  - (* opener *)
    apply Forall_cons in Hwf as [[Hh Htail] Hrest]. simpl in Hlen.
    destruct (opener_shape h header Hh) as (h0 & h1 & h2 & h3 & r & -> & _).
    set (tl := h1 :: h2 :: h3 :: r) in *. clearbody tl. simpl in Htail.
    destruct (splitBody rest) as [[[lits c] rest']|] eqn:Hsplit.
    + destruct (splitBody_Some _ _ _ _ Hsplit Hrest)
        as (Hrender & Htokens & Hlits & Hc & Hrest' & Hshort).
      destruct (IH rest' ltac:(lia) Hrest')
        as (out & changed & Hpass & Hout & Hum & _).
      exists (Lit (resolveBlock variables (header, mjoin lits)) :: out), true.
      split; [|split; [|split]].
      * change (render (Open (h0 :: tl) header :: rest))
          with ((h0 :: tl) ++ render rest).
        rewrite Hrender. unfold engineConditionalPass at 1.
        pose proof (matchConditional_resolves _ _ _ _ (render rest') Hh Hlits Hc)
          as Hmatch.
        rewrite <- app_comm_cons in Hmatch |- *.
        rewrite (replaceFrom_match _ _ _ _ _ _ _ Hmatch).
        change (render (Lit ?x :: out)) with (x ++ render out).
        f_equal. f_equal.
        replace (pred (matchLength _ _)) with (length (tl ++ mjoin lits ++ c) + 0)
          by (unfold matchLength; simpl; rewrite !length_app; lia).
        replace (tl ++ mjoin lits ++ c ++ render rest')
          with ((tl ++ mjoin lits ++ c) ++ render rest')
          by (by rewrite <- !app_assoc).
        rewrite replaceFrom_skip, (replaceFrom_unanchored_bol _ _ _ _ true).
        fold (engineConditionalPass variables (render rest')). by rewrite Hpass.
      * constructor; [|done]. by apply resolveBlock_inert, inert_concat.
      * intros pending. change (tokensOfItems (Lit ?x :: out)) with (tokensOfItems out).
        change (tokensOfItems (Open ?x header :: rest))
          with (TOpen x :: tokensOfItems rest).
        rewrite Htokens, Hum. done.
      * done.
    + destruct (splitBody_None _ Hsplit Hrest) as [Hbody Hfirst].
      destruct (IH rest ltac:(lia) Hrest) as (out & changed & Hpass & Hout & Hum & Hsame).
      exists (Open (h0 :: tl) header :: out), changed.
      split; [|split; [|split]].
      * change (render (Open ?x header :: ?l)) with (x ++ render l).
        unfold engineConditionalPass at 1.
        pose proof (matchConditional_keeps _ _ _ Hh Hbody) as Hkeep.
        rewrite <- !app_comm_cons in Hkeep |- *.
        rewrite (replaceFrom_no_match _ _ _ _ _ Hkeep).
        rewrite (pass_quiet _ _ _ (inert_quiet _ Htail)), Hpass. done.
      * constructor; [done|done].
      * intros pending.
        change (tokensOfItems (Open ?x header :: ?l)) with (TOpen x :: tokensOfItems l).
        simpl. apply Hum.
      * intros Hch. destruct (Hsame Hch) as [-> Hfix]. split; [done|].
        intros pending _.
        change (tokensOfItems (Open ?x header :: ?l)) with (TOpen x :: tokensOfItems l).
        simpl. rewrite Hfix.
        -- simpl. by rewrite <- app_assoc.
        -- right. destruct Hfirst as [Hf | (h' & tokens & Hf)];
             rewrite Hf; simpl; tauto.
  - (* closer *)
    apply Forall_cons in Hwf as [Hc Hrest]. simpl in Hlen.
    destruct (IH rest ltac:(lia) Hrest) as (out & changed & Hpass & Hout & Hum & Hsame).
    exists (Close c :: out), changed. split; [|split; [|split]].
    + change (render (Close c :: ?l)) with (c ++ render l).
      unfold engineConditionalPass at 1.
      rewrite (pass_quiet c true (render rest) (closer_quiet _ Hc)), Hpass. done.
    + by constructor.
    + intros pending.
      change (tokensOfItems (Close c :: ?l)) with (TClose c :: tokensOfItems l).
      simpl. destruct pending; by rewrite Hum.
    + intros Hch. destruct (Hsame Hch) as [-> Hfix]. split; [done|].
      intros pending [-> | Hno].
      * change (tokensOfItems (Close c :: ?l)) with (TClose c :: tokensOfItems l).
        simpl. rewrite Hfix; [done|by left].
      * by destruct Hno.
Qed.
End EnginePass.

Lemma matched_app a t : matched (a ++ t) t = a.
Proof.
  unfold matched, matchLength. rewrite length_app.
  replace (length a + length t - length t) with (length a) by lia.
  by rewrite take_app_length.
Qed.

Lemma matchToken_inert u t :
  diverges u "{if:" = true → diverges u "{/if}" = true → matchToken (u ++ t) = None.
Proof.
  intros Hopen Hclose. unfold matchToken.
  by rewrite (matchIfHeader_diverges _ _ Hopen), (diverges_lit _ _ _ Hclose).
Qed.

Lemma matchToken_closer c t :
  lit eqCharCI "{/if}" c = Some [] → matchToken (c ++ t) = Some (TClose c, t).
Proof.
  intros Hc. unfold matchToken.
  rewrite (matchIfHeader_diverges _ _ (closer_diverges _ Hc)).
  rewrite (lit_app _ _ _ _ t Hc). simpl. by rewrite matched_app.
Qed.

Lemma matchToken_opener h header t :
  (∀ rest, matchIfHeader (h ++ rest) = Some (header, rest)) →
  matchToken (h ++ t) = Some (TOpen h, t).
Proof. intros Hh. unfold matchToken. rewrite Hh. simpl. by rewrite matched_app. Qed.

(** Scanning a text made of well-formed items finds the tokens of the
    items. *)
Lemma tokens_of_items items pos b :
  Forall wellFormedItem items →
  (execFrom (unanchored matchToken) pos 0 b (render items)).*2 = tokensOfItems items.
Proof.
  intros Hwf. revert pos b. induction Hwf as [|item items Hitem _ IH]; intros pos b;
    [done|].
  assert (∀ a tok t,
            a ≠ [] → matchToken (a ++ t) = Some (tok, t) →
            (execFrom (unanchored matchToken) pos 0 b (a ++ t)).*2
            = tok :: (execFrom (unanchored matchToken) pos 0 b t).*2) as Htoken.
  { intros [|a0 a] tok t Ha Hm; [done|]. rewrite <- app_comm_cons in *.
    rewrite (execFrom_match _ _ _ _ _ _ _ Hm), fmap_cons. simpl. f_equal.
    replace (pred (matchLength _ _)) with (length a + 0)
      by (unfold matchLength; simpl; rewrite length_app; lia).
    rewrite execFrom_skip, (execFrom_values_pos _ (S pos) pos).
    by rewrite (execFrom_unanchored_bol _ _ _ _ b). }
  destruct item as [s|h header|c]; simpl in Hitem.
  - change (render (Lit s :: items)) with (s ++ render items).
    rewrite execFrom_fails; [apply IH|].
    intros u v Hsplit Hu.
    destruct (inert_suffix _ _ _ Hitem Hsplit Hu) as [Hopen Hclose].
    by apply matchToken_inert.
  - destruct Hitem as [Hh _].
    change (render (Open h header :: items)) with (h ++ render items).
    rewrite (Htoken h (TOpen h)); [by rewrite IH| |by eapply matchToken_opener].
    by destruct (opener_shape _ _ Hh) as (? & ? & ? & ? & ? & -> & _).
  - change (render (Close c :: items)) with (c ++ render items).
    rewrite (Htoken c (TClose c)); [by rewrite IH| |by apply matchToken_closer].
    by destruct (closer_shape _ Hitem) as (? & ? & ? & ? & ? & -> & _).
Qed.

Lemma tokensOf_render items :
  Forall wellFormedItem items → tokensOf (render items) = tokensOfItems items.
Proof. apply tokens_of_items. Qed.

Section EngineLoop.
Context `{Num : JSNumber}.
Variable variables : gmap jsstring (VariableValue number).

Lemma engineLoop_items fuel items :
  Forall wellFormedItem items → length (render items) < fuel →
  ∃ out,
    engineConditionalLoop fuel variables (render items) = Some (render out)
    ∧ Forall wellFormedItem out
    ∧ tokensOfItems out = unmatched (tokensOfItems items).
Proof.
  revert items. induction fuel as [|fuel IH]; intros items Hwf Hfuel; [lia|].
  destruct (enginePass_items variables (length items) items (le_n _) Hwf)
    as (out & changed & Hpass & Hout & Hum & Hsame).
  pose proof (engineConditionalPass_length variables (render items)) as Hshorter.
  simpl. rewrite Hpass in *. simpl in Hshorter. destruct changed.
  - destruct (IH out Hout) as (final & Hloop & Hfinal & Htokens).
    { specialize (Hshorter eq_refl). lia. }
    exists final. split; [done|]. split; [done|].
    rewrite Htokens. apply Hum.
  - destruct (Hsame eq_refl) as [-> Hfix]. exists items.
    split; [done|]. split; [done|].
    unfold unmatched. by rewrite Hfix by by left.
Qed.

(** C7 (amended).  The engine's loop returns on every text.  On a text
    made of complete openers, complete closers and text without fragment
    of either, the result is again such a text, and its conditional tokens
    are exactly the tokens of the input that bracket matching leaves
    unmatched, verbatim and in their order. *)
Theorem conditionals_keep_unmatched (text : jsstring) :
  is_Some (engineProcessConditionals text variables)
  ∧ (tokenStructured text →
     ∃ out,
       engineProcessConditionals text variables = Some out
       ∧ tokenStructured out
       ∧ tokensOf out = unmatched (tokensOf text)).
Proof.
  split; [apply engineProcessConditionals_terminates|].
  intros (items & Hwf & ->).
  destruct (engineLoop_items (S (length (render items))) items Hwf (Nat.lt_succ_diag_r _))
    as (out & Hloop & Hout & Htokens).
  exists (render out). split; [exact Hloop|]. split; [by exists out|].
  by rewrite !tokensOf_render, Htokens.
Qed.
End EngineLoop.

Definition ifHeader (name : jsstring) : IfHeader :=
  {| ifName := name; ifOperator := None; ifValue := None |}.

Lemma conditionals_keep_unmatched_witness :
  ∃ out,
    engineProcessConditionals (Num := IntegerNumbers) "{if:a}X{if:b}Y{/if}" ∅ = Some out
    ∧ tokenStructured out
    ∧ tokensOf out = unmatched (tokensOf "{if:a}X{if:b}Y{/if}").
Proof.
  apply (proj2 (conditionals_keep_unmatched (Num := IntegerNumbers) ∅ "{if:a}X{if:b}Y{/if}")).
  exists [Open "{if:a}" (ifHeader "a"); Lit "X"; Open "{if:b}" (ifHeader "b");
          Lit "Y"; Close "{/if}"].
  split; [|reflexivity].
  repeat constructor; intros rest; reflexivity.
Defined.

(** ** Parents and children of pages *)


Lemma numberToString_one : numberToString 1 = "1".
Proof. reflexivity. Qed.



(** ** Positions and save codes *)




Definition examplePlayer : PlayerState (gset nat) unit :=
  {| currentPage := 3; currentPath := "ab"; choiceLog := ["a" : jsstring; "b" : jsstring];
     variables := ∅; storyFolder := "demo"; isPlaying := true; metadata := None |}.




(** The choice log spells the path when its entries, put together, give
    the path. *)
Definition spellsPath {V M} (state : PlayerState V M) : Prop :=
  concat (choiceLog state) = currentPath state.

Lemma concat_splitChars s : concat (splitChars s) = s.
Proof. induction s as [|c s IH]; [done|]. simpl. by rewrite IH. Qed.

(** X4.  Starting, restarting, jumping and loading make the choice log
    spell the path; continuing and choosing without a usable jump target
    keep it so.  A choice with a jump target does not. *)
Theorem choiceLog_spells_path {V M} `{Empty V} (state : PlayerState V M) :
  spellsPath (createPlayerState (V := V) (M := M))
  ∧ (∀ page path, spellsPath (startGame state page path))
  ∧ spellsPath (restart state)
  ∧ (∀ code state', jumpToPage state code = Some state' → spellsPath state')
  ∧ (∀ save, spellsPath (fromSaveState state save))
  ∧ (spellsPath state →
     spellsPath (continueToNext state)
     ∧ ∀ chosen gotoPage,
         gotoPage ≫= parsePageId = None →
         spellsPath (makeChoice state chosen gotoPage))
  ∧ ¬ spellsPath (makeChoice (restart state) "a" (Some ("7" : jsstring))).
Proof.
  unfold spellsPath.
  split; [done|]. split; [intros; apply concat_splitChars|]. split; [done|].
  split.
  { intros code state' Hjump. unfold jumpToPage in Hjump.
    destruct (parsePageCode code); simplify_eq/=. apply concat_splitChars. }
  split; [intros; apply concat_splitChars|]. split; [|done].
  intros Hstate. split; [done|].
  intros chosen gotoPage Hgoto. unfold makeChoice.
  rewrite truthyString_parsePageId, Hgoto. simpl.
  rewrite concat_app, Hstate. simpl. by rewrite app_nil_r.
Qed.

Lemma choiceLog_spells_path_witness :
  spellsPath (continueToNext examplePlayer)
  ∧ spellsPath (makeChoice examplePlayer "c" None).
Proof.
  assert (spellsPath examplePlayer) as Hspells by reflexivity.
  destruct (choiceLog_spells_path examplePlayer) as (_ & _ & _ & _ & _ & Hkeep & _).
  destruct (Hkeep Hspells) as [Hnext Hchoice].
  split; [exact Hnext|]. by apply Hchoice.
Defined.

(** ** Save codes *)






Section SaveCodeProperties.
Context `{Num : JSNumber}.
Variable numberText : number → jsstring.


End SaveCodeProperties.



(** ** File names *)

Definition dot : ascii := "."%char.

Lemma isDot_eq c : isDot c = true ↔ c = dot.
Proof. split; [|by intros ->]. each_char c; done. Qed.

Lemma isDot_filename c : isDot c = true → isFilenameChar c = true.
Proof. intros ->%isDot_eq. reflexivity. Qed.

(** No two dots side by side. *)
Fixpoint dotPairFree (s : jsstring) : bool :=
  match s with
  | c :: s' =>
      negb (isDot c && match s' with d :: _ => isDot d | [] => false end)
      && dotPairFree s'
  | [] => true
  end.

Definition startsWithDot (s : jsstring) : bool :=
  match s with c :: _ => isDot c | [] => false end.

Fixpoint endsWithDot (s : jsstring) : bool :=
  match s with
  | [] => false
  | [c] => isDot c
  | _ :: s' => endsWithDot s'
  end.

Lemma matchLength_cons (c : ascii) (s : jsstring) : pred (matchLength (c :: s) s) = 0.
Proof. unfold matchLength. simpl. lia. Qed.

(** The first replacement works character by character. *)
Lemma replaceUnsafe_map s b :
  (replaceFrom (unanchored matchUnsafeChar) (fun _ => "_" : jsstring) 0 b s).1
  = (fun c => if isFilenameChar c then c else "_"%char) <$> s.
Proof.
  revert b. induction s as [|c s IH]; intros b; [done|].
  simpl. unfold unanchored. simpl. destruct (isFilenameChar c); simpl.
  - by rewrite IH.
  - rewrite matchLength_cons. by rewrite IH.
Qed.

Lemma span_isDot_all s : forallb isDot s = true → span isDot s = (s, []).
Proof.
  induction s as [|c s IH]; [done|]. simpl.
  intros [-> Hs]%andb_true_iff. by rewrite (IH Hs).
Qed.

Lemma span_no_dot s : startsWithDot s = false → span isDot s = ([], s).
Proof. destruct s as [|c s]; [done|]. simpl. by intros ->. Qed.

Lemma span_rest_no_dot s : startsWithDot (span isDot s).2 = false.
Proof.
  induction s as [|c s IH]; [done|]. simpl.
  destruct (isDot c) eqn:Hc; [|by simpl; rewrite Hc].
  by destruct (span isDot s).
Qed.

(** What the second replacement returns: chosen characters of its input,
    without two dots side by side, and starting with a dot only if the
    input does. *)
Lemma replaceDots_spec n s b :
  length s ≤ n →
  let out := (replaceFrom (unanchored matchDots) (fun _ => "." : jsstring) 0 b s).1 in
  dotPairFree out = true
  ∧ startsWithDot out = startsWithDot s
  ∧ (∀ P : ascii → bool, forallb P s = true → forallb P out = true)
  ∧ (dotPairFree s = true → out = s).
Proof.
  revert s b. induction n as [|n IH]; intros s b Hn.
  { destruct s; [done|simpl in Hn; lia]. }
  destruct s as [|c s]; [done|].
  destruct (unanchored matchDots b (c :: s)) as [[[] rest]|] eqn:Hm.
  - rewrite (replaceFrom_match _ _ _ _ _ _ _ Hm). cbn zeta. simpl fst.
    unfold unanchored, matchDots in Hm.
    pose proof (span_app isDot (c :: s)) as Happ.
    pose proof (span_forallb isDot (c :: s)) as Hdots.
    pose proof (span_rest_no_dot (c :: s)) as Hrest.
    destruct (span isDot (c :: s)) as [dots rest'] eqn:Hspan.
    destruct (Nat.leb_spec 2 (length dots)) as [Hlen|]; [|done].
    simplify_eq/=. destruct dots as [|d dots]; [simpl in Hlen; lia|].
    simpl in Happ. simplify_eq. simpl in Hdots.
    apply andb_true_iff in Hdots as [Hc Hdots].
    replace (pred (matchLength (c :: dots ++ rest) rest)) with (length dots + 0)
      by (unfold matchLength; simpl; rewrite length_app; lia).
    rewrite replaceFrom_skip.
    destruct (IH rest (isLineTerminator c)) as (Hfree & Hstart & Hall & _).
    { simpl in Hn. rewrite length_app in Hn. lia. }
    cbn zeta in *. rewrite (replaceFrom_unanchored_bol _ _ _ _ true) in *.
    set (out := (replaceFrom _ _ 0 true rest).1) in *.
    split; [|split; [|split]].
    + simpl. rewrite Hfree, andb_true_r.
      destruct out as [|o out']; [done|]. simpl in Hstart.
      by rewrite Hstart, Hrest.
    + simpl. rewrite Hc. by apply isDot_eq in Hc as ->.
    + intros P HP. simpl in HP. apply andb_true_iff in HP as [HPc HP].
      rewrite forallb_app in HP. apply andb_true_iff in HP as [_ HP].
      simpl. apply isDot_eq in Hc as ->. change "."%char with dot in *.
      rewrite HPc. by apply Hall.
    + intros Hs. exfalso. destruct dots as [|d dots]; [simpl in Hlen; lia|].
      simpl in Hs, Hdots. apply andb_true_iff in Hdots as [Hd _].
      by rewrite Hc, Hd in Hs.
  - rewrite (replaceFrom_no_match _ _ _ _ _ Hm). cbn zeta. simpl fst.
    destruct (IH s (isLineTerminator c)) as (Hfree & Hstart & Hall & Hsame).
    { simpl in Hn. lia. }
    cbn zeta in *.
    set (out := (replaceFrom _ _ 0 _ s).1) in *.
    split; [|split; [|split]].
    + simpl. rewrite Hfree, andb_true_r.
      destruct (isDot c) eqn:Hc; [|done]. simpl.
      change (match out with [] => false | d :: _ => isDot d end)
        with (startsWithDot out).
      rewrite Hstart. destruct s as [|d s]; [done|]. simpl.
      destruct (isDot d) eqn:Hd; [|done]. exfalso.
      unfold unanchored, matchDots in Hm. simpl in Hm. rewrite Hc, Hd in Hm.
      destruct (span isDot s). simpl in Hm. done.
    + done.
    + intros P HP. simpl in HP. apply andb_true_iff in HP as [HPc HP].
      simpl. rewrite HPc. by apply Hall.
    + intros Hs. simpl in Hs. apply andb_true_iff in Hs as [_ Hs].
      by rewrite (Hsame Hs).
Qed.

(** What the removal of a trailing run of dots returns. *)
Fixpoint dropTrailingDots (s : jsstring) : jsstring :=
  match s with
  | [] => []
  | c :: s' => if forallb isDot s then [] else c :: dropTrailingDots s'
  end.

Lemma replaceFrom_skip_all {A} (m : bool → jsstring → option (A * jsstring)) f s k b :
  length s ≤ k → (replaceFrom m f k b s).1 = [].
Proof.
  revert k b. induction s as [|c s IH]; intros k b Hk; [done|].
  destruct k as [|k]; [simpl in Hk; lia|]. simpl. apply IH. simpl in Hk. lia.
Qed.

Lemma replaceTrailing_spec s b :
  (replaceFrom (unanchored matchTrailingDots) (fun _ => []) 0 b s).1
  = dropTrailingDots s.
Proof.
  revert b. induction s as [|c s IH]; intros b; [done|].
  destruct (forallb isDot (c :: s)) eqn:Hall.
  - assert (unanchored matchTrailingDots b (c :: s) = Some (tt, [])) as Hm.
    { unfold unanchored, matchTrailingDots. by rewrite (span_isDot_all _ Hall). }
    rewrite (replaceFrom_match _ _ _ _ _ _ _ Hm).
    cbn [fst dropTrailingDots]. rewrite Hall.
    rewrite replaceFrom_skip_all; [done|]. unfold matchLength. simpl. lia.
  - assert (unanchored matchTrailingDots b (c :: s) = None) as Hm.
    { unfold unanchored, matchTrailingDots.
      pose proof (span_app isDot (c :: s)) as Happ.
      pose proof (span_forallb isDot (c :: s)) as Hdots.
      destruct (span isDot (c :: s)) as [dots rest]. simpl in Happ, Hdots.
      destruct dots; [done|]. destruct rest; [|done].
      rewrite app_nil_r in Happ. rewrite Happ in Hdots. congruence. }
    rewrite (replaceFrom_no_match _ _ _ _ _ Hm).
    cbn [fst dropTrailingDots]. rewrite Hall. by rewrite IH.
Qed.

Lemma stripOuterDots_spec s :
  stripOuterDots s = dropTrailingDots (span isDot s).2.
Proof.
  unfold stripOuterDots, replaceAll.
  pose proof (span_app isDot s) as Happ.
  destruct (span isDot s) as [dots rest]. simpl in *.
  rewrite !replaceTrailing_spec. destruct dots; [|done]. by simpl in Happ; subst.
Qed.

Lemma dropTrailingDots_spec s :
  let out := dropTrailingDots s in
  endsWithDot out = false
  ∧ startsWithDot out = startsWithDot s && negb (forallb isDot s)
  ∧ (dotPairFree s = true → dotPairFree out = true)
  ∧ (∀ P : ascii → bool, forallb P s = true → forallb P out = true)
  ∧ (endsWithDot s = false → out = s)
  ∧ length out ≤ length s.
Proof.
  induction s as [|c s IH]; [done|].
  destruct IH as (Hend & Hstart & Hfree & Hall & Hsame & Hlen).
  cbn zeta in *. cbn [dropTrailingDots].
  destruct (forallb isDot (c :: s)) eqn:Hdots.
  - split; [done|]. split; [by rewrite andb_false_r|]. split; [done|].
    split; [done|]. split; [|simpl; lia].
    intros Hs. exfalso. clear -Hs Hdots.
    induction s as [|d s IH] in c, Hs, Hdots |- *.
    + simpl in *. by rewrite andb_true_r in Hdots; congruence.
    + simpl in Hdots. apply andb_true_iff in Hdots as [_ Hdots]. by eapply IH.
  - split; [|split; [|split; [|split; [|split]]]].
    + simpl. destruct (dropTrailingDots s) as [|o out] eqn:Hout; [|done].
      simpl in Hdots. destruct (isDot c); [|done]. simpl in Hdots.
      destruct s as [|d s]; [done|]. simpl in Hout.
      simpl in Hdots. by rewrite Hdots in Hout.
    + simpl. by rewrite andb_true_r.
    + simpl. intros [Hc Hs]%andb_true_iff. rewrite (Hfree Hs), andb_true_r.
      change (match dropTrailingDots s with [] => false | d :: _ => isDot d end)
        with (startsWithDot (dropTrailingDots s)).
      rewrite Hstart. destruct (isDot c); [|done]. simpl in *.
      change (match s with [] => false | d :: _ => isDot d end)
        with (startsWithDot s) in Hc.
      by destruct (startsWithDot s).
    + intros P. simpl. intros [-> HP]%andb_true_iff. by apply Hall.
    + intros Hs. f_equal. apply Hsame. by destruct s.
    + simpl. lia.
Qed.

(** A name is clean when it is made of the characters kept by the first
    replacement, holds no two dots in a row, and neither starts nor ends
    with a dot. *)
Definition cleanName (s : jsstring) : Prop :=
  Forall (fun c => isFilenameChar c = true) s
  ∧ (∀ a b, s ≠ a ++ ".." ++ b)
  ∧ (∀ r, s ≠ "." ++ r)
  ∧ (∀ r, s ≠ r ++ ".").

Definition cleanNameb (s : jsstring) : bool :=
  forallb isFilenameChar s && dotPairFree s
  && negb (startsWithDot s) && negb (endsWithDot s).

Lemma dotPairFree_spec s : dotPairFree s = true ↔ ∀ a b, s ≠ a ++ ".." ++ b.
Proof.
  split.
  - intros Hs a b ->. induction a as [|c a IH]; [done|].
    simpl in Hs. apply andb_true_iff in Hs as [_ Hs]. by apply IH.
  - induction s as [|c s IH]; [done|]. intros Hs. simpl.
    rewrite IH; [|intros a b ->; by apply (Hs (c :: a) b)].
    rewrite andb_true_r. destruct (isDot c) eqn:Hc; [|done].
    destruct s as [|d s]; [done|]. simpl.
    destruct (isDot d) eqn:Hd; [|done].
    apply isDot_eq in Hc as ->. apply isDot_eq in Hd as ->.
    by destruct (Hs [] s).
Qed.

Lemma startsWithDot_spec s : startsWithDot s = false ↔ ∀ r, s ≠ "." ++ r.
Proof.
  split.
  - by intros Hs r ->.
  - intros Hs. destruct s as [|c s]; [done|]. simpl.
    destruct (isDot c) eqn:Hc; [|done]. apply isDot_eq in Hc as ->.
    by destruct (Hs s).
Qed.

Lemma endsWithDot_spec s : endsWithDot s = false ↔ ∀ r, s ≠ r ++ ".".
Proof.
  split.
  - intros Hs r ->. enough (endsWithDot (r ++ ".") = true) by congruence.
    clear Hs. induction r as [|c r IH]; [done|].
    change ((c :: r) ++ ".") with (c :: (r ++ ".")).
    destruct (r ++ ".") eqn:Hr; [by destruct r|exact IH].
  - induction s as [|c s IH]; [done|]. intros Hs.
    destruct s as [|d s].
    + simpl. destruct (isDot c) eqn:Hc; [|done]. apply isDot_eq in Hc as ->.
      by destruct (Hs []).
    + change (endsWithDot (c :: d :: s)) with (endsWithDot (d :: s)).
      apply IH. intros r Hr. apply (Hs (c :: r)). simpl. by rewrite Hr.
Qed.

Lemma forallb_Forall {A} (f : A → bool) l :
  forallb f l = true ↔ Forall (fun x => f x = true) l.
Proof.
  induction l as [|x l IH]; simpl; [by split|].
  rewrite andb_true_iff, IH, Forall_cons. done.
Qed.

Lemma cleanNameb_spec s : cleanNameb s = true ↔ cleanName s.
Proof.
  unfold cleanNameb, cleanName.
  rewrite !andb_true_iff, !negb_true_iff, forallb_Forall.
  rewrite dotPairFree_spec, startsWithDot_spec, endsWithDot_spec. tauto.
Qed.

Lemma replaceUnsafe_clean s :
  forallb isFilenameChar ((fun c => if isFilenameChar c then c else "_"%char) <$> s) = true.
Proof.
  induction s as [|c s IH]; [done|].
  rewrite fmap_cons. cbn [forallb]. rewrite IH, andb_true_r.
  by destruct (isFilenameChar c) eqn:Hc.
Qed.

Lemma replaceUnsafe_same s :
  forallb isFilenameChar s = true →
  (fun c => if isFilenameChar c then c else "_"%char) <$> s = s.
Proof.
  induction s as [|c s IH]; [done|]. cbn [forallb].
  intros [Hc Hs]%andb_true_iff. by rewrite fmap_cons, Hc, IH.
Qed.

Lemma sanitizeFilename_cleanNameb name : cleanNameb (sanitizeFilename name) = true.
Proof.
  unfold sanitizeFilename, replaceAll. rewrite replaceUnsafe_map.
  set (s1 := _ <$> name).
  destruct (replaceDots_spec (length s1) s1 true (le_n _)) as (Hfree & _ & Hall & _).
  cbn zeta in *. set (s2 := (replaceFrom _ _ 0 true s1).1) in *.
  rewrite stripOuterDots_spec.
  pose proof (span_app isDot s2) as Happ.
  pose proof (span_rest_no_dot s2) as Hrest.
  destruct (span isDot s2) as [dots rest]. simpl in *.
  destruct (dropTrailingDots_spec rest) as (Hend & Hstart & Hfree' & Hall' & _).
  cbn zeta in *. unfold cleanNameb.
  assert (forallb isFilenameChar rest = true ∧ dotPairFree rest = true) as [Hchars Hpairs].
  { specialize (Hall isFilenameChar (replaceUnsafe_clean name)).
    rewrite <- Happ, forallb_app in Hall. apply andb_true_iff in Hall as [_ Hall].
    split; [done|]. apply dotPairFree_spec. intros a b ->.
    apply (proj1 (dotPairFree_spec _) Hfree (dots ++ a) b).
    by rewrite <- Happ, <- app_assoc. }
  rewrite (Hall' _ Hchars), (Hfree' Hpairs), Hstart, Hrest, Hend. done.
Qed.

Lemma sanitizeFilename_fixed name :
  cleanNameb name = true → sanitizeFilename name = name.
Proof.
  unfold cleanNameb. rewrite !andb_true_iff, !negb_true_iff.
  intros [[[Hchars Hpairs] Hstart] Hend].
  unfold sanitizeFilename, replaceAll.
  rewrite replaceUnsafe_map, (replaceUnsafe_same _ Hchars).
  destruct (replaceDots_spec (length name) name true (le_n _)) as (_ & _ & _ & Hsame).
  cbn zeta in Hsame. rewrite (Hsame Hpairs).
  rewrite stripOuterDots_spec, (span_no_dot _ Hstart). simpl.
  by apply dropTrailingDots_spec.
Qed.

Lemma sanitizeFilename_length name : length (sanitizeFilename name) ≤ length name.
Proof.
  unfold sanitizeFilename, replaceAll. rewrite replaceUnsafe_map.
  set (s1 := _ <$> name).
  assert (length s1 = length name) as <- by apply length_fmap.
  assert (shrinks (unanchored matchDots) (fun _ => "." : jsstring)) as Hshrinks.
  { intros b s [] rest Hm. unfold unanchored, matchDots in Hm.
    pose proof (span_length isDot s) as Hlen.
    destruct (span isDot s) as [dots rest']. simpl in Hlen.
    destruct (Nat.leb_spec 2 (length dots)); simplify_eq/=. lia. }
  destruct (replaceFrom_length _ _ Hshrinks s1 0 true) as [Hlen _].
  set (s2 := (replaceFrom _ _ 0 true s1).1) in *.
  rewrite stripOuterDots_spec.
  pose proof (span_length isDot s2) as Hspan.
  destruct (dropTrailingDots_spec (span isDot s2).2) as (_ & _ & _ & _ & _ & Hdrop).
  cbn zeta in Hdrop. lia.
Qed.

(** X6.  Whatever the name, [sanitizeFilename] returns a clean name: only
    letters, digits, dot, underscore and hyphen, no two dots in a row, no
    dot at either end; and it is not longer than the name given. *)
Theorem sanitizeFilename_clean (name : jsstring) :
  cleanName (sanitizeFilename name)
  ∧ length (sanitizeFilename name) ≤ length name.
Proof.
  split; [|apply sanitizeFilename_length].
  apply cleanNameb_spec, sanitizeFilename_cleanNameb.
Qed.

(** X7.  The names [sanitizeFilename] leaves as they are, are exactly the
    clean names; so sanitizing twice is sanitizing once. *)
Theorem sanitizeFilename_fixed_points (name : jsstring) :
  (sanitizeFilename name = name ↔ cleanName name)
  ∧ sanitizeFilename (sanitizeFilename name) = sanitizeFilename name.
Proof.
  split.
  - rewrite <- cleanNameb_spec. split.
    + intros <-. apply sanitizeFilename_cleanNameb.
    + apply sanitizeFilename_fixed.
  - apply sanitizeFilename_fixed, sanitizeFilename_cleanNameb.
Qed.

(** ** What a scan finds *)

Section ScanMatches.
Context {A : Type}.
Variable m : bool → jsstring → option (A * jsstring).

(** Every entry of a scan is a match of the matcher on a suffix of the
    text. *)
Lemma execFrom_elem pos skip bol s found :
  found ∈ execFrom m pos skip bol s →
  ∃ bol' pre suf rest, s = pre ++ suf ∧ m bol' suf = Some (found.2, rest).
Proof.
  revert pos skip bol. induction s as [|c s IH]; intros pos skip bol Hin.
  { by apply elem_of_nil in Hin. }
  assert (∀ pos' skip' bol',
            found ∈ execFrom m pos' skip' bol' s →
            ∃ bol'' pre suf rest,
              c :: s = pre ++ suf ∧ m bol'' suf = Some (found.2, rest)) as Hlater.
  { intros pos' skip' bol' Hin'.
    destruct (IH _ _ _ Hin') as (bol'' & pre & suf & rest & -> & Hm).
    by exists bol'', (c :: pre), suf, rest. }
  simpl in Hin. destruct skip as [|skip]; [|by eapply Hlater].
  destruct (m bol (c :: s)) as [[a rest]|] eqn:Hm; [|by eapply Hlater].
  apply elem_of_cons in Hin as [->|Hin]; [|by eapply Hlater].
  by exists bol, [], (c :: s), rest.
Qed.

Lemma execFrom_skip_all pos skip bol s :
  length s ≤ skip → execFrom m pos skip bol s = [].
Proof.
  revert pos skip bol. induction s as [|c s IH]; intros pos skip bol Hlen; [done|].
  destruct skip as [|skip]; [simpl in Hlen; lia|]. simpl. apply IH. simpl in Hlen. lia.
Qed.
End ScanMatches.

Lemma span_suffix p s : ∃ pre, s = pre ++ (span p s).2.
Proof. exists (span p s).1. by rewrite span_app. Qed.

Lemma lit_suffix eq p s r : lit eq p s = Some r → ∃ pre, s = pre ++ r.
Proof. intros (pre & -> & _)%lit_shape. by exists pre. Qed.

(** ** Jump commands *)

Ltac case_lit_in Hm r H :=
  match type of Hm with
  | context [lit ?e ?p ?s] => destruct (lit e p s) as [r|] eqn:H; [|done]
  end.

Lemma matchGoto_shape s target rest :
  matchGoto s = Some (target, rest) →
  (∃ pre, s = pre ++ rest)
  ∧ ∃ ds ls, target = ds ++ ls ∧ ds ≠ []
             ∧ forallb isDigit ds = true ∧ forallb isChoiceLetter ls = true.
Proof.
  unfold matchGoto. intros Hm.
  destruct (lit eqCharCI "{goto:" s) as [r|] eqn:Hr; [|done]. simpl in Hm.
  pose proof (span_app isDigit r) as Hds. pose proof (span_forallb isDigit r) as Hdigits.
  destruct (span isDigit r) as [ds r1]. simpl in Hds, Hdigits.
  destruct ds as [|d ds]; [done|]. simpl nonEmpty in Hm. cbn iota in Hm.
  pose proof (span_app isChoiceLetter r1) as Hls.
  pose proof (span_forallb isChoiceLetter r1) as Hletters.
  destruct (span isChoiceLetter r1) as [ls r2]. simpl in Hls, Hletters.
  case_lit_in Hm r3 Hr3. simpl in Hm.
  simplify_eq. split.
  - apply lit_suffix in Hr as [pre1 ->]. apply lit_suffix in Hr3 as [pre3 ->].
    exists (pre1 ++ (d :: ds) ++ ls ++ pre3). by rewrite <- !app_assoc.
  - by exists (d :: ds), ls.
Qed.

(** X8.  Every command [parseGotoCommands] finds is a piece of the text,
    and its page id is a page id for [parsePageId]: given to [makeChoice]
    as jump target, it decides the page and the path reached. *)
Theorem parseGotoCommands_targets (text : jsstring) :
  Forall (fun command =>
            (∃ before after, text = before ++ gotoFullMatch command ++ after)
            ∧ ∃ parsed,
                parsePageId (gotoPageId command) = Some parsed
                ∧ ∀ V M (state : PlayerState V M) (chosen : jsstring),
                    let state' := makeChoice state chosen (Some (gotoPageId command)) in
                    currentPage state' = num parsed
                    ∧ currentPath state' = path parsed)
         (parseGotoCommands text).
Proof.
  apply Forall_forall. intros command Hin.
  apply list_elem_of_fmap in Hin as ([pos [full target]] & -> & Hin).
  apply execFrom_elem in Hin as (bol & pre & suf & rest & -> & Hm).
  unfold withFullMatch, unanchored in Hm. simpl in Hm.
  destruct (matchGoto suf) as [[target' rest']|] eqn:Hgoto; simplify_eq/=.
  destruct (matchGoto_shape _ _ _ Hgoto)
    as [[found ->] (ds & ls & -> & Hds & Hdigits & Hletters)].
  rewrite matched_app. split; [by exists pre, rest|].
  assert (parsePageId (toLowerCase (ds ++ ls))
          = Some {| num := parseInt ds; path := toLowerCase (toLowerCase ls) |})
    as Hparsed.
  { rewrite toLowerCase_app, (toLowerCase_digits _ Hdigits).
    apply parsePageId_digits_letters; [done..|].
    by rewrite forallb_toLowerCase_letters. }
  eexists. split; [exact Hparsed|]. intros V M state chosen.
  unfold makeChoice. rewrite truthyString_parsePageId. simpl.
  by rewrite Hparsed.
Qed.

(** ** Choice lines *)

Lemma spacesThen_inv {A} (k : jsstring → option A) s a :
  spacesThen k s = Some a → ∃ pre r, s = pre ++ r ∧ k r = Some a.
Proof.
  induction s as [|c s IH]; simpl.
  - intros Hk. by exists [], [].
  - destruct (isSpace c).
    + destruct (spacesThen k s) as [a'|] eqn:Hs; simpl.
      * intros [= ->]. destruct (IH eq_refl) as (pre & r & -> & Hk).
        by exists (c :: pre), r.
      * intros Hk. by exists [], (c :: s).
    + intros Hk. by exists [], (c :: s).
Qed.

Lemma bracketedPageId_shape s target rest :
  bracketedPageId s = Some (target, rest) →
  (∃ pre, s = pre ++ rest)
  ∧ ∃ ds ls, target = ds ++ ls ∧ ds ≠ []
             ∧ forallb isDigit ds = true ∧ forallb isChoiceLetter ls = true.
Proof.
  unfold bracketedPageId. intros Hm.
  case_lit_in Hm r Hr. simpl in Hm.
  pose proof (span_app isDigit r) as Hds. pose proof (span_forallb isDigit r) as Hdigits.
  destruct (span isDigit r) as [ds r1]. simpl in Hds, Hdigits.
  destruct ds as [|d ds]; [done|]. simpl nonEmpty in Hm. cbn iota in Hm.
  pose proof (span_app isChoiceLetter r1) as Hls.
  pose proof (span_forallb isChoiceLetter r1) as Hletters.
  destruct (span isChoiceLetter r1) as [ls r2]. simpl in Hls, Hletters.
  case_lit_in Hm r3 Hr3. simpl in Hm.
  simplify_eq. split.
  - apply lit_suffix in Hr as [pre1 ->]. apply lit_suffix in Hr3 as [pre3 ->].
    exists (pre1 ++ (d :: ds) ++ ls ++ pre3). by rewrite <- !app_assoc.
  - by exists (d :: ds), ls.
Qed.

(** The groups of a match of the choice pattern. *)
Lemma choicePattern_groups tail s l target text rest :
  choicePattern tail s = Some ((l, target, text), rest) →
  isChoiceLetter l = true
  ∧ (∀ g, target = Some g →
       ∃ ds ls, g = ds ++ ls ∧ ds ≠ []
                ∧ forallb isDigit ds = true ∧ forallb isChoiceLetter ls = true)
  ∧ ∃ r, tail r = Some (text, rest).
Proof.
  unfold choicePattern. destruct s as [|l' r]; [done|].
  destruct (isChoiceLetter l') eqn:Hl; [|done]. intros Hm.
  case_lit_in Hm r0 Hr0. simpl in Hm.
  apply spacesThen_inv in Hm as (_ & r1 & _ & Hm).
  destruct (bracketedPageId r1) as [[g r2]|] eqn:Hb; simpl in Hm.
  - destruct (spacesThen _ r2) as [found|] eqn:Hs; simpl in Hm.
    + simplify_eq. apply spacesThen_inv in Hs as (_ & r3 & _ & Hs).
      destruct (tail r3) as [[text' rest']|] eqn:Ht; simplify_eq/=.
      split; [done|]. split; [|by exists r3].
      intros g' [= <-]. by apply bracketedPageId_shape in Hb as [_ ?].
    + destruct (tail r1) as [[text' rest']|] eqn:Ht; simplify_eq/=.
      split; [done|]. split; [done|]. by exists r1.
  - destruct (tail r1) as [[text' rest']|] eqn:Ht; simplify_eq/=.
    split; [done|]. split; [done|]. by exists r1.
Qed.

Definition wellFormedChoice (choice : ParsedChoice) : Prop :=
  (∃ l, choiceLetter choice = [l] ∧ isLowerChoiceLetter l = true)
  ∧ (∀ g, choiceGoto choice = Some g → is_Some (parsePageId g))
  ∧ trim (choiceText choice) = choiceText choice.

Lemma trimStart_rev_spaces s :
  trimStart s = s → trimStart (rev s) = rev s → trim s = s.
Proof. intros Hs Hr. unfold trim. by rewrite Hs, Hr, rev_involutive. Qed.

Lemma trimStart_idempotent s : trimStart (trimStart s) = trimStart s.
Proof.
  induction s as [|c s IH]; [done|]. simpl.
  destruct (isSpace c) eqn:Hc; [done|]. simpl. by rewrite Hc.
Qed.

Lemma trimStart_suffix s : ∃ pre, s = pre ++ trimStart s ∧ forallb isSpace pre = true.
Proof.
  induction s as [|c s (pre & Hs & Hpre)]; [by exists []|]. simpl.
  destruct (isSpace c) eqn:Hc; [|by exists []].
  exists (c :: pre). simpl. rewrite Hc, Hpre. by rewrite <- Hs.
Qed.

Lemma trimStart_head s c r : trimStart s = c :: r → isSpace c = false.
Proof.
  induction s as [|d s IH]; [done|]. simpl.
  destruct (isSpace d) eqn:Hd; [done|]. by intros [= <- _].
Qed.

Lemma trimStart_fixed s :
  match s with c :: _ => isSpace c = false | [] => True end → trimStart s = s.
Proof. destruct s as [|c s]; [done|]. simpl. by intros ->. Qed.

(** Trimming leaves a string without white space at either end, so
    trimming again changes nothing. *)
Lemma trim_idempotent s : trim (trim s) = trim s.
Proof.
  unfold trim. set (t := trimStart (rev (trimStart s))).
  assert (trimStart t = t) as Ht by apply trimStart_idempotent.
  destruct (trimStart_suffix (rev (trimStart s))) as (pre & Hrev & Hpre).
  fold t in Hrev.
  assert (trimStart (rev t) = rev t) as Hfront.
  { apply trimStart_fixed. destruct (rev t) as [|c r] eqn:Hr; [done|].
    assert (trimStart s = c :: r ++ rev pre) as Hs.
    { rewrite <- (rev_involutive (trimStart s)), Hrev, rev_app_distr, Hr. done. }
    by eapply trimStart_head. }
  by rewrite Hfront, rev_involutive, Ht.
Qed.

Lemma toParsedChoice_wellFormed l target text :
  isChoiceLetter l = true →
  (∀ g, target = Some g →
     ∃ ds ls, g = ds ++ ls ∧ ds ≠ []
              ∧ forallb isDigit ds = true ∧ forallb isChoiceLetter ls = true) →
  wellFormedChoice (toParsedChoice (l, target, text)).
Proof.
  intros Hl Htarget. split; [|split]; simpl.
  - exists (lowerChar l). split; [done|]. by apply lowerChar_choiceLetter.
  - intros g Hg. destruct target as [g'|]; simplify_eq/=.
    destruct (Htarget _ eq_refl) as (ds & ls & -> & Hds & Hdigits & Hletters).
    rewrite toLowerCase_app, (toLowerCase_digits _ Hdigits).
    rewrite parsePageId_digits_letters; [done..|].
    by rewrite forallb_toLowerCase_letters.
  - apply trim_idempotent.
Qed.

(** X9.  A choice read from a line, by [parseChoiceLine] or by
    [extractChoices], has a single lower-case letter from a to e, a text
    without white space at its ends, and a jump target, if any, that
    [parsePageId] accepts. *)
Theorem parsed_choices_wellFormed (text : jsstring) :
  (∀ choice, parseChoiceLine text = Some choice → wellFormedChoice choice)
  ∧ Forall wellFormedChoice (choices (extractChoices text)).
Proof.
  split.
  - unfold parseChoiceLine. intros choice Hm.
    destruct (choicePattern restOfString text) as [[[[l target] body] rest]|] eqn:Hp;
      simplify_eq/=.
    apply choicePattern_groups in Hp as (Hl & Htarget & _).
    by apply toParsedChoice_wellFormed.
  - apply Forall_forall. intros choice Hin. unfold extractChoices in Hin. simpl in Hin.
    apply list_elem_of_fmap in Hin as ([pos [[l target] body]] & -> & Hin).
    apply execFrom_elem in Hin as (bol & pre & suf & rest & _ & Hm).
    unfold choiceLineMatch in Hm. destruct bol; [|done]. simpl in Hm.
    apply choicePattern_groups in Hm as (Hl & Htarget & _).
    by apply toParsedChoice_wellFormed.
Qed.

(** A text without line terminator is one line. *)
Definition oneLine (s : jsstring) : Prop := forallb notLineTerminator s = true.

Lemma oneLine_app a b : oneLine (a ++ b) ↔ oneLine a ∧ oneLine b.
Proof. unfold oneLine. by rewrite forallb_app, andb_true_iff. Qed.

Lemma oneLine_suffix pre r : oneLine (pre ++ r) → oneLine r.
Proof. by intros [_ ?]%oneLine_app. Qed.

Lemma restOfLine_oneLine r : oneLine r → restOfLine r = restOfString r.
Proof.
  intros Hr. unfold restOfLine, restOfString.
  rewrite <- (app_nil_r r) at 1. rewrite (span_exact _ _ [] Hr I).
  rewrite Hr. by rewrite andb_true_r.
Qed.

Lemma spacesThen_ext {A} (k1 k2 : jsstring → option A) s :
  oneLine s → (∀ r, oneLine r → k1 r = k2 r) → spacesThen k1 s = spacesThen k2 s.
Proof.
  intros Hs Hk. induction s as [|c s IH]; simpl; [by apply Hk|].
  assert (oneLine s) as Hs' by by apply (oneLine_suffix [c]).
  rewrite (Hk _ Hs), (IH Hs'). done.
Qed.

Lemma choicePattern_oneLine s :
  oneLine s → choicePattern restOfLine s = choicePattern restOfString s.
Proof.
  intros Hs. unfold choicePattern. destruct s as [|l r]; [done|].
  destruct (isChoiceLetter l); [|done].
  assert (oneLine r) as Hr by by apply (oneLine_suffix [l]).
  case_lit r0 Hr0; [|done]. simpl.
  assert (oneLine r0) as H0.
  { apply lit_suffix in Hr0 as [pre ->]. by eapply oneLine_suffix. }
  apply spacesThen_ext; [done|]. intros r1 H1.
  rewrite (restOfLine_oneLine _ H1).
  destruct (bracketedPageId r1) as [[g r2]|] eqn:Hb; [|done]. simpl.
  assert (oneLine r2) as H2.
  { apply bracketedPageId_shape in Hb as [[pre ->] _]. by eapply oneLine_suffix. }
  f_equal. apply spacesThen_ext; [done|]. intros r3 H3.
  by rewrite (restOfLine_oneLine _ H3).
Qed.

Section LineStartScans.
Context {A : Type}.
Variable m : bool → jsstring → option (A * jsstring).
Variable f : A → jsstring.
Hypothesis line_start_only : ∀ s, m false s = None.

(** A pattern that starts with the line-start anchor matches nowhere
    inside a line. *)
Lemma scan_inside_line s pos :
  oneLine s →
  execFrom m pos 0 false s = [] ∧ replaceFrom m f 0 false s = (s, false).
Proof.
  revert pos. induction s as [|c s IH]; intros pos Hs; [done|].
  assert (isLineTerminator c = false) as Hc.
  { unfold oneLine in Hs. simpl in Hs. apply andb_true_iff in Hs as [Hc _].
    by apply negb_true_iff in Hc. }
  assert (oneLine s) as Hs' by by apply (oneLine_suffix [c]).
  simpl. rewrite line_start_only, Hc.
  destruct (IH (S pos) Hs') as [-> ->]. done.
Qed.
End LineStartScans.

(** X10.  On a text of one line, [extractChoices] finds what
    [parseChoiceLine] finds: the one choice when the line is a choice line,
    and then no story text is left; otherwise no choice, and the trimmed
    line as story text. *)
Theorem extractChoices_one_line (line : jsstring) :
  forallb notLineTerminator line = true →
  extractChoices line
  = match parseChoiceLine line with
    | Some choice => {| storyText := []; choices := [choice] |}
    | None => {| storyText := trim line; choices := [] |}
    end.
Proof.
  intros Hline. fold (oneLine line) in Hline.
  unfold extractChoices, parseChoiceLine, replaceAll, execAll.
  destruct line as [|c s]; [done|].
  assert (isLineTerminator c = false) as Hc.
  { unfold oneLine in Hline. simpl in Hline. apply andb_true_iff in Hline as [Hc _].
    by apply negb_true_iff in Hc. }
  assert (oneLine s) as Hs by by apply (oneLine_suffix [c]).
  pose proof (choiceLineSpan_rest true (c :: s)) as Hspan.
  assert (choiceLineMatch true (c :: s) = choicePattern restOfString (c :: s)) as Hmatch.
  { unfold choiceLineMatch. by apply choicePattern_oneLine. }
  rewrite Hmatch in Hspan.
  destruct (choicePattern restOfString (c :: s)) as [[[[l target] body] rest]|] eqn:Hp.
  - assert (rest = []) as ->.
    { apply choicePattern_groups in Hp as (_ & _ & r & Hr).
      unfold restOfString in Hr. by destruct (_ && _); simplify_eq. }
    destruct (choiceLineSpan true (c :: s)) as [[[] rest]|] eqn:Hsp; [|done].
    injection Hspan as ->.
    rewrite (execFrom_match _ _ _ _ _ _ _ Hmatch).
    rewrite (replaceFrom_match _ _ _ _ _ _ _ Hsp).
    rewrite execFrom_skip_all, replaceFrom_skip_all;
      [done|unfold matchLength; simpl; lia..].
  - destruct (choiceLineSpan true (c :: s)) as [[[] rest]|] eqn:Hsp; [done|].
    rewrite (execFrom_no_match _ _ _ _ _ Hmatch).
    rewrite (replaceFrom_no_match _ _ _ _ _ Hsp). rewrite Hc.
    destruct (scan_inside_line choiceLineMatch (fun _ => []) (fun _ => eq_refl) s 1 Hs)
      as [-> _].
    destruct (scan_inside_line choiceLineSpan (fun _ => []) (fun _ => eq_refl) s 1 Hs)
      as [_ ->].
    done.
Qed.

Lemma extractChoices_one_line_witness :
  extractChoices "b) [3ab] Return to the cave"
  = match parseChoiceLine "b) [3ab] Return to the cave" with
    | Some choice => {| storyText := []; choices := [choice] |}
    | None => {| storyText := trim "b) [3ab] Return to the cave"; choices := [] |}
    end.
Proof. apply (extractChoices_one_line "b) [3ab] Return to the cave"). reflexivity. Defined.

(** ** Conditions *)

Lemma lit_app_None op s c t :
  lit eqChar op s = None → Forall (fun x => eqChar x c = false) op →
  lit eqChar op (s ++ c :: t) = None.
Proof.
  revert s. induction op as [|x op IH]; intros s Hs Hop; [done|].
  apply Forall_cons in Hop as [Hx Hop].
  destruct s as [|d s].
  - simpl. by rewrite lit_cons, Hx.
  - rewrite lit_cons in Hs. simpl. rewrite lit_cons.
    destruct (eqChar x d); [by apply IH|done].
Qed.

Lemma span_notCloseBrace v rest :
  forallb notCloseBrace v = true →
  span notCloseBrace (v ++ "}"%char :: rest) = (v, "}"%char :: rest).
Proof. intros Hv. by apply span_exact. Qed.

Lemma assignedValue_toEnd op r rest :
  Forall (fun x => eqChar x "}"%char = false) op →
  forallb notCloseBrace r = true → oneLine r →
  assignedValue op (r ++ "}" ++ rest)
  = (fun '(value, _) => (value, rest)) <$> (v ← lit eqChar op r; restOfString v).
Proof.
  intros Hop Hbrace Hline. unfold assignedValue.
  change (r ++ "}" ++ rest) with (r ++ "}"%char :: rest).
  destruct (lit eqChar op r) as [v|] eqn:Hv.
  - rewrite (lit_app _ _ _ _ _ Hv). simpl.
    apply lit_suffix in Hv as [pre ->].
    rewrite forallb_app in Hbrace. apply andb_true_iff in Hbrace as [_ Hbrace].
    apply oneLine_suffix in Hline.
    rewrite (span_notCloseBrace _ _ Hbrace). unfold restOfString. rewrite Hline.
    rewrite andb_true_r. by destruct (nonEmpty v).
  - by rewrite (lit_app_None _ _ _ _ Hv Hop).
Qed.

Section ConditionSyntax.
Context `{Num : JSNumber}.

Lemma comparison_cons op ops s :
  comparison (op :: ops) s
  = orElse ('(value, r) ← assignedValue op s; Some ((op, value), r))
           (comparison ops s).
Proof. reflexivity. Qed.

Lemma comparison_toEnd ops r rest :
  Forall (Forall (fun x => eqChar x "}"%char = false)) ops →
  forallb notCloseBrace r = true → oneLine r →
  comparison ops (r ++ "}" ++ rest)
  = (fun found => (found, rest)) <$> comparisonToEnd ops r.
Proof.
  intros Hops Hbrace Hline. induction Hops as [|op ops Hop _ IH]; [done|].
  rewrite comparison_cons. cbn [comparisonToEnd].
  rewrite IH, (assignedValue_toEnd _ _ _ Hop Hbrace Hline).
  destruct (lit eqChar op r) as [v|]; [|done]. simpl.
  by destruct (restOfString v) as [[value ?]|].
Qed.

Lemma operators_no_brace :
  Forall (Forall (fun x => eqChar x "}"%char = false)) operators.
Proof. repeat constructor. Qed.

(** The header of a block reads its condition as [checkCondition] reads a
    condition. *)
Lemma matchIfHeader_condition condition rest :
  forallb notCloseBrace condition = true → oneLine condition →
  matchIfHeader ("{if:" ++ condition ++ "}" ++ rest)
  = (fun '(name, op, value) =>
       ({| ifName := name; ifOperator := op; ifValue := value |}, rest))
      <$> matchCondition condition.
Proof.
  intros Hbrace Hline. unfold matchIfHeader, matchCondition.
  change (lit eqCharCI "{if:" ("{if:" ++ condition ++ "}" ++ rest))
    with (Some (condition ++ "}" ++ rest)).
  simpl mbind. cbn beta.
  pose proof (span_app isWord condition) as Happ.
  pose proof (span_forallb isWord condition) as Hname.
  pose proof (span_stops isWord condition) as Hstop.
  destruct (span isWord condition) as [name r]. simpl in Happ, Hname, Hstop.
  subst condition. rewrite <- app_assoc.
  rewrite (span_exact isWord name (r ++ "}"%char :: rest) Hname); cycle 1.
  { destruct r as [|c r]; [done|]. by apply (Hstop c r). }
  destruct (nonEmpty name); [|done].
  change (r ++ "}"%char :: rest) with (r ++ "}" ++ rest).
  rewrite forallb_app in Hbrace. apply andb_true_iff in Hbrace as [_ Hbrace].
  apply oneLine_suffix in Hline.
  rewrite (comparison_toEnd _ _ _ operators_no_brace Hbrace Hline).
  destruct (comparisonToEnd operators r) as [[op value]|]; [done|]. simpl.
  destruct r as [|c r]; [done|].
  simpl in Hbrace. apply andb_true_iff in Hbrace as [Hc _].
  unfold notCloseBrace in Hc. apply negb_true_iff in Hc.
  simpl. rewrite lit_cons.
  destruct (eqChar "}" c) eqn:Hbrace'; [|done].
  apply eqChar_eq in Hbrace' as <-. done.
Qed.
End ConditionSyntax.

(** ** Conditional blocks that are not nested *)

(** A piece of text: plain text, or one block with its opener, its body
    and its closer. *)
Inductive Segment :=
| Plain (s : jsstring)
| Block (h : jsstring) (header : IfHeader) (body c : jsstring).

Definition segmentText (segment : Segment) : jsstring :=
  match segment with
  | Plain s => s
  | Block h _ body c => h ++ body ++ c
  end.

Definition segmentsText (segments : list Segment) : jsstring :=
  segments ≫= segmentText.

(** Plain text and bodies hold no piece of a token; openers and closers
    are complete. *)
Definition wellFormedSegment (segment : Segment) : Prop :=
  match segment with
  | Plain s => inert s = true
  | Block h header body c =>
      (∀ rest, matchIfHeader (h ++ rest) = Some (header, rest))
      ∧ inert body = true
      ∧ lit eqCharCI "{/if}" c = Some []
  end.

Definition isBlock (segment : Segment) : bool :=
  match segment with Plain _ => false | Block _ _ _ _ => true end.

Lemma lazyBody_inert a t :
  inert a = true →
  lazyBody (a ++ t) = (fun '(body, rest) => (a ++ body, rest)) <$> lazyBody t.
Proof.
  induction a as [|c a IH]; intros Ha.
  - simpl. by destruct (lazyBody t) as [[body rest]|].
  - destruct (inert_suffix _ (c :: a) [] Ha eq_refl) as [_ Hclose]; [done|].
    cbn [inert] in Ha. apply andb_true_iff in Ha as [_ Ha].
    rewrite <- app_comm_cons. cbn [lazyBody].
    rewrite app_comm_cons, (diverges_lit _ _ t Hclose).
    rewrite IH by done. by destruct (lazyBody t) as [[body rest]|].
Qed.

Lemma lazyBody_closer c t :
  lit eqCharCI "{/if}" c = Some [] → lazyBody (c ++ t) = Some ([], t).
Proof.
  intros Hc. pose proof (lit_app _ _ _ _ t Hc) as Hct.
  destruct c as [|c0 c]; [done|]. rewrite <- app_comm_cons in *.
  cbn [lazyBody]. by rewrite Hct.
Qed.

Section FlatBlocks.
Context `{Num : JSNumber}.
Variable variables : gmap jsstring (VariableValue number).

Definition resolveSegment (segment : Segment) : jsstring :=
  match segment with
  | Plain s => s
  | Block _ header body _ => resolveBlock variables (header, body)
  end.

Definition resolveSegments (segments : list Segment) : jsstring :=
  segments ≫= resolveSegment.

Lemma resolveSegments_inert segments :
  Forall wellFormedSegment segments → inert (resolveSegments segments) = true.
Proof.
  induction 1 as [|segment segments Hseg _ IH]; [done|].
  change (resolveSegments (segment :: segments))
    with (resolveSegment segment ++ resolveSegments segments).
  apply inert_app; [|done]. destruct segment as [s|h header body c]; [done|].
  destruct Hseg as (_ & Hbody & _). by apply resolveBlock_inert.
Qed.

(** One replacement pass over segments, with either reading of the body:
    every block is replaced by what it resolves to. *)
Lemma pass_segments (bodyOf : jsstring → option (jsstring * jsstring)) segments b :
  (∀ a t, inert a = true →
     bodyOf (a ++ t) = (fun '(body, rest) => (a ++ body, rest)) <$> bodyOf t) →
  (∀ c t, lit eqCharCI "{/if}" c = Some [] → bodyOf (c ++ t) = Some ([], t)) →
  Forall wellFormedSegment segments →
  replaceFrom (unanchored (matchConditional bodyOf)) (resolveBlock variables) 0 b
              (segmentsText segments)
  = (resolveSegments segments, existsb isBlock segments).
Proof.
  intros Hinert Hcloser Hwf. revert b.
  induction Hwf as [|segment segments Hseg _ IH]; intros b; [done|].
  change (segmentsText (segment :: segments))
    with (segmentText segment ++ segmentsText segments).
  change (resolveSegments (segment :: segments))
    with (resolveSegment segment ++ resolveSegments segments).
  destruct segment as [s|h header body c]; simpl in Hseg.
  - cbn [segmentText resolveSegment existsb isBlock orb].
    rewrite replaceFrom_fails; [by rewrite IH|].
    intros u v Hsplit Hu. unfold matchConditional.
    by rewrite (matchIfHeader_diverges _ _
                  (quiet_suffix _ _ _ (inert_quiet _ Hseg) Hsplit Hu)).
  - destruct Hseg as (Hh & Hbody & Hc).
    cbn [segmentText resolveSegment existsb isBlock orb].
    set (t := segmentsText segments).
    assert (matchConditional bodyOf ((h ++ body ++ c) ++ t)
            = Some ((header, body), t)) as Hm.
    { unfold matchConditional. rewrite <- !app_assoc, Hh. simpl.
      rewrite (Hinert _ _ Hbody), (Hcloser _ _ Hc). simpl. by rewrite app_nil_r. }
    destruct (opener_shape _ _ Hh) as (h0 & h1 & h2 & h3 & r & -> & _).
    rewrite <- !app_comm_cons in *.
    rewrite (replaceFrom_match _ _ _ _ _ _ _ Hm). f_equal. f_equal.
    replace (pred (matchLength _ t))
      with (length ((h1 :: h2 :: h3 :: r) ++ body ++ c) + 0)
      by (unfold matchLength; simpl; rewrite ?length_app; simpl;
          rewrite ?length_app; simpl; lia).
    rewrite <- !app_comm_cons, !app_comm_cons, replaceFrom_skip.
    by rewrite IH.
Qed.

(** Text made of plain pieces and blocks that are not nested resolves the
    same way in the engine and in the editor. *)
Lemma flat_resolution segments :
  Forall wellFormedSegment segments →
  engineProcessConditionals (segmentsText segments) variables
  = Some (resolveSegments segments)
  ∧ editorProcessConditionals (segmentsText segments) variables
    = resolveSegments segments.
Proof.
  intros Hwf. split.
  - unfold engineProcessConditionals. cbn [engineConditionalLoop].
    unfold engineConditionalPass at 1.
    rewrite (pass_segments innermostBody _ _ innermostBody_inert innermostBody_closer Hwf).
    destruct (existsb isBlock segments) eqn:Hblock; [|done].
    destruct (segmentsText segments) as [|c0 text] eqn:Htext.
    { exfalso. clear -Hwf Hblock Htext.
      induction Hwf as [|segment segments Hseg _ IH]; [done|].
      change (segmentsText (segment :: segments))
        with (segmentText segment ++ segmentsText segments) in Htext.
      apply app_eq_nil in Htext as [Hseg' Hrest].
      destruct segment as [s|h header body c]; [by apply IH|].
      destruct Hseg as (Hh & _). by destruct (opener_shape _ _ Hh) as (? & ? & ? & ? & ? & -> & _). }
    cbn [length engineConditionalLoop].
    rewrite <- (app_nil_r (resolveSegments segments)) at 1.
    rewrite (surjective_pairing (engineConditionalPass _ _)).
    unfold engineConditionalPass.
    rewrite (pass_quiet variables _ true []
               (inert_quiet _ (resolveSegments_inert _ Hwf))).
    simpl. by rewrite app_nil_r.
  - unfold editorProcessConditionals, replaceAll.
    by rewrite (pass_segments lazyBody _ _ lazyBody_inert lazyBody_closer Hwf).
Qed.

(** X13.  On text whose conditional blocks are complete and not nested, the
    engine and the editor agree: each block becomes its body when its
    condition holds and vanishes otherwise, and the rest is kept. *)
Theorem flat_conditionals_agree (segments : list Segment) :
  Forall wellFormedSegment segments →
  engineProcessConditionals (segmentsText segments) variables
  = Some (editorProcessConditionals (segmentsText segments) variables)
  ∧ editorProcessConditionals (segmentsText segments) variables
    = resolveSegments segments.
Proof.
  intros Hwf. destruct (flat_resolution segments Hwf) as [-> ->]. done.
Qed.

(** X11.  A block whose header holds a condition shows its body exactly
    when [checkCondition] accepts that condition, in the engine and in the
    editor. *)
Theorem block_shown_iff_checkCondition (condition body : jsstring) :
  forallb notCloseBrace condition = true →
  forallb notLineTerminator condition = true →
  is_Some (matchCondition condition) →
  inert body = true →
  let block := "{if:" ++ condition ++ "}" ++ body ++ "{/if}" in
  let shown := if checkCondition variables condition then body else [] in
  engineProcessConditionals block variables = Some shown
  ∧ editorProcessConditionals block variables = shown.
Proof.
  intros Hbrace Hline [[[name op] value] Hcond] Hbody block shown.
  set (header := {| ifName := name; ifOperator := op; ifValue := value |}).
  assert (wellFormedSegment (Block ("{if:" ++ condition ++ "}") header body "{/if}"))
    as Hwf.
  { split; [|done]. intros rest. rewrite <- !app_assoc.
    by rewrite (matchIfHeader_condition _ _ Hbrace Hline), Hcond. }
  set (segments := [Block ("{if:" ++ condition ++ "}") header body "{/if}"]).
  assert (block = segmentsText segments) as Hblock.
  { unfold block, segments, segmentsText. simpl.
    by rewrite app_nil_r, <- !app_assoc. }
  assert (shown = resolveSegments segments) as Hshown.
  { unfold shown, segments, resolveSegments, checkCondition. simpl.
    rewrite app_nil_r. unfold resolveBlock. by rewrite Hcond. }
  rewrite Hblock, Hshown. apply flat_resolution. by constructor.
Qed.
End FlatBlocks.

Definition exampleVariables : gmap jsstring (VariableValue (option Z)) :=
  {[ ("coins" : jsstring) := VNum (Some 12%Z) ]}.

Lemma flat_conditionals_agree_witness :
  let segments :=
    [Plain "You are "; Block "{if:coins>=10}"
                             {| ifName := "coins"; ifOperator := Some (">=" : jsstring);
                                ifValue := Some ("10" : jsstring) |}
                             "rich" "{/if}";
     Plain "."] in
  engineProcessConditionals (Num := IntegerNumbers) (segmentsText segments) exampleVariables
  = Some (editorProcessConditionals (Num := IntegerNumbers) (segmentsText segments)
            exampleVariables)
  ∧ editorProcessConditionals (Num := IntegerNumbers) (segmentsText segments) exampleVariables
    = resolveSegments (Num := IntegerNumbers) exampleVariables segments.
Proof.
  apply (flat_conditionals_agree (Num := IntegerNumbers) exampleVariables).
  constructor; [reflexivity|]. constructor; [|by constructor].
  split; [intros rest; reflexivity|]. split; reflexivity.
Defined.

Lemma block_shown_iff_checkCondition_witness :
  let block : jsstring := "{if:" ++ "coins>=10" ++ "}" ++ "rich" ++ "{/if}" in
  let shown : jsstring :=
    if checkCondition (Num := IntegerNumbers) exampleVariables "coins>=10"
    then "rich" else [] in
  engineProcessConditionals (Num := IntegerNumbers) block exampleVariables = Some shown
  ∧ editorProcessConditionals (Num := IntegerNumbers) block exampleVariables = shown.
Proof.
  apply (block_shown_iff_checkCondition (Num := IntegerNumbers) exampleVariables
           "coins>=10" "rich"); try reflexivity.
  by eexists.
Defined.

(** ** Toggling a variable *)

Section ToggleProperties.
Context `{Num : JSNumber}.

End ToggleProperties.

(** ** Legacy pages *)

(** X14.  Converting a legacy page to the current format and back gives the
    page again exactly when it has choices or both its choice texts are
    empty: the choice texts of a page without choices are lost.  A second
    round trip changes nothing more. *)
Theorem legacy_round_trip (legacy : LegacyPage) :
  (convertToLegacy (convertLegacyPage legacy) = legacy
   ↔ legacyHasChoices legacy = true ∨ (choiceA legacy = [] ∧ choiceB legacy = []))
  ∧ convertLegacyPage (convertToLegacy (convertLegacyPage legacy))
    = convertLegacyPage legacy.
Proof.
  destruct legacy as [c h e a b].
  unfold convertToLegacy, convertLegacyPage, choiceTextFor. simpl.
  destruct h, a as [|a0 a], b as [|b0 b]; simpl;
    (split; [|reflexivity]); split; intros H;
    try reflexivity; try discriminate H; try (by left); try (by right);
    by destruct H as [H|[H1 H2]].
Qed.

(** ** Renaming a page *)

Definition renamedEntry (oldId newId : jsstring) (entry : jsstring * Page)
  : jsstring * Page :=
  if eqString entry.1 oldId then (newId, entry.2)
  else (entry.1, retargetPage oldId newId entry.2).

Lemma foldl_insert_entries {B} (g : B → jsstring * Page) (l : list B)
    (acc : gmap jsstring Page) :
  foldl (fun acc x => <[(g x).1 := (g x).2]> acc) acc l
  = foldr (fun e acc => <[e.1 := e.2]> acc) acc (reverse (g <$> l)).
Proof.
  revert acc. induction l as [|x l IH]; intros acc; [done|].
  rewrite fmap_cons, reverse_cons, foldr_app. simpl. by rewrite IH.
Qed.

Lemma foldl_pointwise {A B} (f g : A → B → A) (l : list B) (a : A) :
  (∀ a x, f a x = g a x) → foldl f a l = foldl g a l.
Proof.
  intros Hfg. revert a. induction l as [|x l IH]; intros a; [done|].
  simpl. by rewrite Hfg, IH.
Qed.

Lemma foldr_insert_list_to_map (l : list (jsstring * Page)) :
  foldr (fun e acc => <[e.1 := e.2]> acc) (∅ : gmap jsstring Page) l = list_to_map l.
Proof. induction l as [|[k v] l IH]; [done|]. simpl. by rewrite IH. Qed.

Lemma renamePage_entries (oldId newId : jsstring) (pages : gmap jsstring Page) :
  renamePage oldId newId pages
  = list_to_map (reverse (renamedEntry oldId newId <$> map_to_list pages)).
Proof.
  unfold renamePage.
  rewrite <- foldr_insert_list_to_map.
  rewrite <- (foldl_insert_entries (renamedEntry oldId newId) _ ∅).
  apply foldl_pointwise. intros acc [id page]. unfold renamedEntry. simpl.
  by destruct (eqString id oldId).
Qed.

Lemma renamedEntry_keys (oldId newId : jsstring) (pages : gmap jsstring Page) :
  pages !! newId = None ∨ newId = oldId →
  NoDup (reverse (renamedEntry oldId newId <$> map_to_list pages)).*1.
Proof.
  intros Hnew. rewrite fmap_reverse, reverse_Permutation.
  rewrite <- list_fmap_compose.
  apply NoDup_fmap_2_strong; [|apply NoDup_map_to_list].
  intros [id1 page1] [id2 page2] Hin1 Hin2.
  apply elem_of_map_to_list in Hin1, Hin2.
  unfold compose, renamedEntry. simpl.
  destruct (eqString id1 oldId) eqn:H1, (eqString id2 oldId) eqn:H2; simpl;
    try apply eqString_eq in H1; try apply eqString_eq in H2; subst.
  - intros _. by simplify_eq.
  - intros <-. destruct Hnew as [Hnew|Hnew]; [congruence|].
    subst. by rewrite eqString_refl in H2.
  - intros ->. destruct Hnew as [Hnew|Hnew]; [congruence|].
    subst. by rewrite eqString_refl in H1.
  - intros ->. by simplify_eq.
Qed.

Lemma renamePage_elem (oldId newId : jsstring) (pages : gmap jsstring Page) k page' :
  pages !! newId = None ∨ newId = oldId →
  renamePage oldId newId pages !! k = Some page'
  ↔ ∃ id page, pages !! id = Some page
               ∧ renamedEntry oldId newId (id, page) = (k, page').
Proof.
  intros Hnew. rewrite renamePage_entries.
  rewrite <- elem_of_list_to_map by by apply renamedEntry_keys.
  rewrite elem_of_reverse, list_elem_of_fmap. split.
  - intros ([id page] & Hentry & Hin). apply elem_of_map_to_list in Hin. eauto.
  - intros (id & page & Hpage & Hentry). exists (id, page).
    split; [done|]. by apply elem_of_map_to_list.
Qed.

Lemma retargetChoice_goto oldId newId choice :
  oldId ≠ newId → goto (retargetChoice oldId newId choice) ≠ Some oldId.
Proof.
  intros Hids. unfold retargetChoice.
  destruct (goto choice) as [target|] eqn:Hgoto; [|by rewrite Hgoto].
  destruct (eqString target oldId) eqn:Htarget; simpl; [congruence|].
  rewrite Hgoto. intros [= ->]. by rewrite eqString_refl in Htarget.
Qed.

(** X15.  Renaming a page to an id that is not in use (or to its own id):
    the page is found under the new id, unchanged, and no longer under the
    old one; every other page stays under its id with its jumps to the old
    id redirected to the new id.  So no other page jumps to the old id any
    more, while the jumps of the renamed page itself are left as they
    were. *)
Theorem renamePage_spec (oldId newId : jsstring) (pages : gmap jsstring Page) :
  pages !! newId = None ∨ newId = oldId →
  (∀ k, renamePage oldId newId pages !! k
        = if decide (k = newId) then pages !! oldId
          else if decide (k = oldId) then None
          else retargetPage oldId newId <$> pages !! k)
  ∧ (oldId ≠ newId →
     ∀ k page choice,
       k ≠ newId → renamePage oldId newId pages !! k = Some page →
       choice ∈ pageChoices page → goto choice ≠ Some oldId).
Proof.
  intros Hnew.
  assert (∀ k, renamePage oldId newId pages !! k
               = if decide (k = newId) then pages !! oldId
                 else if decide (k = oldId) then None
                 else retargetPage oldId newId <$> pages !! k) as Hlookup.
  { intros k. apply option_eq. intros page'.
    rewrite (renamePage_elem _ _ _ _ _ Hnew). unfold renamedEntry. simpl. split.
    - intros (id & page & Hpage & Hentry).
      destruct (eqString id oldId) eqn:Hid.
      + apply eqString_eq in Hid. simplify_eq. by rewrite decide_True.
      + assert (id ≠ oldId) as Hid' by (intros ->; by rewrite eqString_refl in Hid).
        simplify_eq. rewrite decide_False, decide_False, Hpage; [done..|].
        intros ->. destruct Hnew as [Hnew|Hnew]; congruence.
    - destruct (decide (k = newId)) as [->|Hk].
      + intros Hold. exists oldId, page'. by rewrite eqString_refl.
      + destruct (decide (k = oldId)) as [->|Hk']; [done|].
        destruct (pages !! k) as [page|] eqn:Hpage; [|done].
        intros [= <-]. exists k, page. split; [done|].
        destruct (eqString k oldId) eqn:Hid; [|done].
        by apply eqString_eq in Hid. }
  split; [done|]. intros Hids k page choice Hk Hpage Hchoice.
  rewrite Hlookup, decide_False in Hpage by done.
  destruct (decide (k = oldId)); [done|].
  destruct (pages !! k) as [page0|]; [|done]. simplify_eq/=.
  apply list_elem_of_fmap in Hchoice as (choice0 & -> & _).
  by apply retargetChoice_goto.
Qed.

Definition jumpingPage (target : jsstring) : Page :=
  {| content := "Go"; hasChoices := true; isEnding := false;
     pageChoices := [{| letter := "a"; text := "Jump"; goto := Some target |}] |}.

Definition renameExample : gmap jsstring Page :=
  {[ ("1" : jsstring) := jumpingPage "2a"; ("2a" : jsstring) := jumpingPage "2a" ]}.

Lemma renamePage_spec_witness :
  (∀ k, renamePage "2a" "9" renameExample !! k
        = if decide (k = ("9" : jsstring)) then renameExample !! ("2a" : jsstring)
          else if decide (k = ("2a" : jsstring)) then None
          else retargetPage "2a" "9" <$> renameExample !! k)
  ∧ (("2a" : jsstring) ≠ "9" →
     ∀ k page choice,
       k ≠ ("9" : jsstring) → renamePage "2a" "9" renameExample !! k = Some page →
       choice ∈ pageChoices page → goto choice ≠ Some ("2a" : jsstring)).
Proof. apply (renamePage_spec "2a" "9" renameExample). by left. Defined.

(** ** The next free root page *)

Lemma numberToString_inj n m : numberToString n = numberToString m → n = m.
Proof.
  intros H. rewrite <- (parseInt_numberToString n), <- (parseInt_numberToString m).
  by rewrite H.
Qed.

Section NextRoot.
Context {P : Type}.
Variable pages : gmap jsstring P.

(** The pages numbered from 1 up to, but without, [n] all exist. *)
Definition rootsTaken (n : N) : Prop :=
  ∀ m, (1 ≤ m < n)%N → is_Some (pages !! numberToString m).

Lemma rootsTaken_size n : rootsTaken n → N.to_nat n - 1 ≤ size pages.
Proof.
  intros Htaken.
  set (ids := (fun i => numberToString (N.of_nat (S i))) <$> seq 0 (N.to_nat n - 1)).
  assert (NoDup ids) as Hnodup.
  { apply NoDup_fmap_2; [|apply NoDup_seq].
    intros i j Hij. apply numberToString_inj in Hij. lia. }
  assert (ids ⊆ (map_to_list pages).*1) as Hsub.
  { intros id Hid. apply list_elem_of_fmap in Hid as (i & -> & Hi).
    apply elem_of_seq in Hi. destruct (Htaken (N.of_nat (S i))) as [page Hpage]; [lia|].
    apply list_elem_of_fmap. exists (numberToString (N.of_nat (S i)), page).
    split; [done|]. by apply elem_of_map_to_list. }
  pose proof (submseteq_length _ _ (NoDup_submseteq _ _ Hnodup (fun x => Hsub x))) as Hlen.
  unfold ids in Hlen. rewrite !length_fmap, length_seq, length_map_to_list in Hlen.
  done.
Qed.

Lemma nextRootLoop_spec fuel n :
  rootsTaken n → (1 ≤ n)%N → size pages < fuel + (N.to_nat n - 1) →
  ∃ free, nextRootLoop pages fuel n = Some (numberToString free)
          ∧ (n ≤ free)%N
          ∧ pages !! numberToString free = None
          ∧ rootsTaken free.
Proof.
  revert n. induction fuel as [|fuel IH]; intros n Htaken Hn Hfuel.
  { pose proof (rootsTaken_size n Htaken). lia. }
  simpl. destruct (pages !! numberToString n) as [page|] eqn:Hpage.
  - destruct (IH (n + 1)%N) as (free & Hloop & Hfree & Hnone & Hall); [|lia|lia|].
    { intros m Hm. destruct (decide (m = n)) as [->|]; [by eexists|].
      apply Htaken. lia. }
    exists free. split; [done|]. split; [lia|done].
  - exists n. split; [done|]. split; [lia|done].
Qed.

(** X16.  [getNextRootPageId] returns: its loop ends within one test more
    than there are pages.  The id returned is the decimal form of the least
    number from 1 on that is not the id of a page. *)
Theorem getNextRootPageId_least :
  ∃ free,
    getNextRootPageId pages = Some (numberToString free)
    ∧ (1 ≤ free)%N
    ∧ pages !! numberToString free = None
    ∧ ∀ m, (1 ≤ m < free)%N → is_Some (pages !! numberToString m).
Proof.
  destruct (nextRootLoop_spec (S (size pages)) 1) as (free & Hloop & Hfree & Hnone & Hall).
  - intros m Hm. lia.
  - lia.
  - lia.
  - by exists free.
Qed.
End NextRoot.

(** ** Text without braces *)

(** A matcher that can only match at an opening brace. *)
Definition needsBrace {A} (m : jsstring → option (A * jsstring)) : Prop :=
  ∀ s, head s ≠ Some "{"%char → m s = None.

Lemma lit_needsBrace p s :
  head p = Some "{"%char → head s ≠ Some "{"%char → lit eqCharCI p s = None.
Proof.
  destruct p as [|x p]; [done|]. intros [= ->] Hs.
  destruct s as [|c s]; [done|]. rewrite lit_cons.
  destruct (eqCharCI "{" c) eqn:Hc; [|done]. exfalso. apply Hs. simpl. f_equal.
  clear -Hc. by each_char c.
Qed.

Lemma lit_exact_needsBrace p s :
  head p = Some "{"%char → head s ≠ Some "{"%char → lit eqChar p s = None.
Proof.
  destruct p as [|x p]; [done|]. intros [= ->] Hs.
  destruct s as [|c s]; [done|]. rewrite lit_cons.
  destruct (eqChar "{" c) eqn:Hc; [|done]. apply eqChar_eq in Hc as <-. done.
Qed.

Section BraceFreeScans.
Context {A : Type}.
Variable m : jsstring → option (A * jsstring).
Hypothesis m_needsBrace : needsBrace m.

Lemma braceFree_suffix (text u v : jsstring) :
  "{"%char ∉ text → text = v ++ u → head u ≠ Some "{"%char.
Proof.
  intros Htext -> Hu. apply Htext. destruct u as [|c u]; simplify_eq/=.
  apply elem_of_app. right. left.
Qed.

Lemma braceFree_replace f text :
  "{"%char ∉ text → replaceFrom (unanchored m) f 0 true text = (text, false).
Proof.
  intros Htext. rewrite <- (app_nil_r text) at 1. rewrite replaceFrom_fails.
  - simpl. by rewrite app_nil_r.
  - intros u v Hsplit _. rewrite app_nil_r. apply m_needsBrace.
    by eapply braceFree_suffix.
Qed.

Lemma braceFree_exec text : "{"%char ∉ text → execAll (unanchored m) text = [].
Proof.
  intros Htext. unfold execAll.
  enough (∀ pos b, execFrom (unanchored m) pos 0 b text = []) as Hall by apply Hall.
  induction text as [|c text IH]; intros pos b; [done|].
  apply not_elem_of_cons in Htext as [Hc Htext].
  simpl. unfold unanchored at 1. rewrite m_needsBrace; [by apply IH|].
  simpl. congruence.
Qed.
End BraceFreeScans.

Lemma withFullMatch_needsBrace {A} (m : jsstring → option (A * jsstring)) :
  needsBrace m →
  needsBrace (fun s => '(a, rest) ← m s; Some ((matched s rest, a), rest)).
Proof. intros Hm s Hs. by rewrite (Hm s Hs). Qed.

Lemma matchSet_needsBrace : needsBrace matchSet.
Proof. intros s Hs. unfold matchSet. by rewrite lit_needsBrace. Qed.

Lemma matchAddSub_needsBrace keyword :
  head keyword = Some "{"%char → needsBrace (matchAddSub keyword).
Proof. intros Hk s Hs. unfold matchAddSub. by rewrite lit_needsBrace. Qed.

Lemma matchIfHeader_needsBrace : needsBrace matchIfHeader.
Proof. intros s Hs. unfold matchIfHeader. by rewrite lit_needsBrace. Qed.

Lemma matchEndif_needsBrace : needsBrace matchEndif.
Proof. intros s Hs. unfold matchEndif. by rewrite lit_needsBrace. Qed.

Lemma matchBraced_needsBrace keyword :
  head keyword = Some "{"%char → needsBrace (matchBraced keyword).
Proof. intros Hk s Hs. unfold matchBraced. by rewrite lit_needsBrace. Qed.

Lemma matchLegacyLoop_needsBrace : needsBrace matchLegacyLoop.
Proof. intros s Hs. unfold matchLegacyLoop. by rewrite lit_exact_needsBrace. Qed.

Lemma matchStop_needsBrace : needsBrace matchStop.
Proof. intros s Hs. unfold matchStop. by rewrite lit_needsBrace. Qed.

Lemma matchGoto_needsBrace : needsBrace matchGoto.
Proof. intros s Hs. unfold matchGoto. by rewrite lit_needsBrace. Qed.

Lemma matchAsset_needsBrace : needsBrace matchAsset.
Proof. intros s Hs. unfold matchAsset. by rewrite lit_exact_needsBrace. Qed.

Lemma matchConditional_needsBrace body : needsBrace (matchConditional body).
Proof.
  intros s Hs. unfold matchConditional. by rewrite matchIfHeader_needsBrace.
Qed.

Lemma remove_braceFree {A} (m : jsstring → option (A * jsstring)) text :
  needsBrace m → "{"%char ∉ text → remove m text = text.
Proof. intros Hm Htext. unfold remove, replaceAll. by rewrite braceFree_replace. Qed.

Section BraceFree.
Context `{Num : JSNumber}.

(** X17.  A text without opening brace holds no directive: both
    [processVariables] return it with the variables they were given,
    [stripCommands] and [markAssets] return it unchanged, and no jump
    command and no asset reference is found in it. *)
Theorem brace_free_text_untouched (text : jsstring)
    (variables : gmap jsstring (VariableValue number)) :
  "{"%char ∉ text →
  parseVariables (Num := Num) text = []
  ∧ engineProcessVariables text variables = Some (text, variables)
  ∧ editorProcessVariables text variables = (text, variables)
  ∧ stripCommands text = text
  ∧ markAssets text = text
  ∧ parseGotoCommands text = []
  ∧ extractAssetReferences text = [].
Proof.
  intros Htext.
  assert (parseVariables (Num := Num) text = []) as Hops.
  { unfold parseVariables, parseVariablesAt, setOperations, addSubOperations,
      ifOperations, endifOperations, withFullMatch.
    rewrite !braceFree_exec; [done|try done..];
      apply withFullMatch_needsBrace;
      auto using matchSet_needsBrace, matchAddSub_needsBrace,
        matchIfHeader_needsBrace, matchEndif_needsBrace. }
  split; [done|]. split; [|split; [|split; [|split; [|split]]]].
  - unfold engineProcessVariables. rewrite Hops. simpl.
    unfold engineProcessConditionals. simpl. unfold engineConditionalPass.
    by rewrite (braceFree_replace _ (matchConditional_needsBrace _) _ _ Htext).
  - unfold editorProcessVariables. rewrite Hops. simpl.
    unfold editorProcessConditionals, replaceAll.
    by rewrite (braceFree_replace _ (matchConditional_needsBrace _) _ _ Htext).
  - unfold stripCommands.
    rewrite !(remove_braceFree _ text);
      auto using matchSet_needsBrace, matchAddSub_needsBrace, matchBraced_needsBrace,
        matchLegacyLoop_needsBrace, matchStop_needsBrace, matchGoto_needsBrace.
  - unfold markAssets, replaceAll, withFullMatch.
    by rewrite (braceFree_replace _ (withFullMatch_needsBrace _ matchAsset_needsBrace)
                  _ _ Htext).
  - unfold parseGotoCommands, withFullMatch.
    by rewrite (braceFree_exec _ (withFullMatch_needsBrace _ matchGoto_needsBrace) _ Htext).
  - unfold extractAssetReferences.
    by rewrite (braceFree_exec _ matchAsset_needsBrace _ Htext).
Qed.
End BraceFree.

Lemma brace_free_text_untouched_witness :
  let text : jsstring := "The cave is dark." in
  parseVariables (Num := IntegerNumbers) text = []
  ∧ engineProcessVariables (Num := IntegerNumbers) text exampleVariables
    = Some (text, exampleVariables)
  ∧ editorProcessVariables (Num := IntegerNumbers) text exampleVariables
    = (text, exampleVariables)
  ∧ stripCommands text = text
  ∧ markAssets text = text
  ∧ parseGotoCommands text = []
  ∧ extractAssetReferences text = [].
Proof.
  apply (brace_free_text_untouched (Num := IntegerNumbers) "The cave is dark."
           exampleVariables).
  intros Hin. repeat (apply elem_of_cons in Hin as [Hin|Hin]; [discriminate Hin|]).
  by apply elem_of_nil in Hin.
Defined.

(** ** Trimming *)

Lemma trimStart_spaces ws : forallb isSpace ws = true → trimStart ws = [].
Proof.
  induction ws as [|c ws IH]; [done|]. simpl.
  intros [-> Hws]%andb_true_iff. by apply IH.
Qed.

Lemma trimStart_spaces_app ws s :
  forallb isSpace ws = true → trimStart (ws ++ s) = trimStart s.
Proof.
  induction ws as [|c ws IH]; [done|]. simpl.
  intros [-> Hws]%andb_true_iff. by apply IH.
Qed.

Lemma trimStart_app s t : trimStart s ≠ [] → trimStart (s ++ t) = trimStart s ++ t.
Proof.
  induction s as [|c s IH]; [done|]. simpl.
  destruct (isSpace c); [apply IH|done].
Qed.

Lemma trimStart_nil_spaces s : trimStart s = [] → forallb isSpace s = true.
Proof.
  induction s as [|c s IH]; [done|]. simpl.
  destruct (isSpace c); [apply IH|done].
Qed.

Lemma trim_trimEnd_trimStart s : trim s = trimEnd (trimStart s).
Proof. reflexivity. Qed.

Lemma forallb_rev {A} (f : A → bool) l : forallb f (rev l) = forallb f l.
Proof.
  induction l as [|x l IH]; [done|]. simpl.
  rewrite forallb_app, IH. simpl. by rewrite andb_true_r, andb_comm.
Qed.

Lemma trimEnd_app_spaces s ws :
  forallb isSpace ws = true → trimEnd (s ++ ws) = trimEnd s.
Proof.
  intros Hws. unfold trimEnd. rewrite rev_app_distr.
  by rewrite trimStart_spaces_app by by rewrite forallb_rev.
Qed.

Lemma trimEnd_suffix s : ∃ ws, s = trimEnd s ++ ws ∧ forallb isSpace ws = true.
Proof.
  destruct (trimStart_suffix (rev s)) as (pre & Hrev & Hpre).
  exists (rev pre). split; [|by rewrite forallb_rev].
  unfold trimEnd. rewrite <- rev_app_distr, <- Hrev. by rewrite rev_involutive.
Qed.

Lemma trim_app_spaces s ws : forallb isSpace ws = true → trim (s ++ ws) = trim s.
Proof.
  intros Hws. rewrite !trim_trimEnd_trimStart.
  destruct (trimStart s) as [|c r] eqn:Hs.
  - rewrite trimStart_spaces_app by by apply trimStart_nil_spaces.
    by rewrite trimStart_spaces.
  - rewrite trimStart_app by by rewrite Hs.
    rewrite Hs. by apply trimEnd_app_spaces.
Qed.

Lemma trim_trimEnd s : trim (trimEnd s) = trim s.
Proof.
  destruct (trimEnd_suffix s) as (ws & Hs & Hws).
  rewrite Hs at 2. by rewrite trim_app_spaces.
Qed.

Lemma trim_trimStart s : trim (trimStart s) = trim s.
Proof. by rewrite !trim_trimEnd_trimStart, trimStart_idempotent. Qed.

Lemma trim_nil_iff s : trim s = [] ↔ trimStart s = [].
Proof.
  rewrite trim_trimEnd_trimStart. split; [|by intros ->].
  intros Hs. destruct (trimStart s) as [|c r] eqn:Hstart; [done|]. exfalso.
  destruct (trimEnd_suffix (c :: r)) as (ws & Hcr & Hws).
  rewrite Hs in Hcr. simpl in Hcr. subst ws. simpl in Hws.
  apply andb_true_iff in Hws as [Hc _].
  apply trimStart_head in Hstart. congruence.
Qed.

(** ** Scans that ignore where matches lie *)

Section ScanValues.
Context {A : Type}.
Variable m : bool → jsstring → option (A * jsstring).

Lemma execFrom_values pos pos' skip b s :
  (execFrom m pos skip b s).*2 = (execFrom m pos' skip b s).*2.
Proof.
  revert pos pos' skip b. induction s as [|c s IH]; intros pos pos' skip b; [done|].
  simpl. destruct skip as [|skip]; [|apply IH].
  destruct (m b (c :: s)) as [[a rest]|]; [|apply IH].
  rewrite !fmap_cons. simpl. f_equal. apply IH.
Qed.
End ScanValues.

(** ** Page text without choice lines *)

(** No line of the text starts with a letter from a to e and a closing
    parenthesis. *)
Fixpoint choiceStartFree (bol : bool) (s : jsstring) : bool :=
  match s with
  | [] => true
  | c :: s' =>
      negb (bol && isChoiceLetter c && startsWith s' ")")
      && choiceStartFree (isLineTerminator c) s'
  end.

Lemma startsWith_app s t p : startsWith s p = true → startsWith (s ++ t) p = true.
Proof.
  unfold startsWith. destruct (lit eqChar p s) as [r|] eqn:Hr; [|done].
  by rewrite (lit_app _ _ _ _ t Hr).
Qed.

Lemma choiceStartFree_prefix b s t :
  choiceStartFree b (s ++ t) = true → choiceStartFree b s = true.
Proof.
  revert b. induction s as [|c s IH]; intros b; [done|]. simpl.
  intros [Hc Hs]%andb_true_iff. rewrite (IH _ Hs), andb_true_r.
  destruct (b && isChoiceLetter c); [|done]. simpl in *.
  destruct (startsWith s _) eqn:Hstart; [|done].
  by rewrite (startsWith_app _ t _ Hstart) in Hc.
Qed.

Lemma choicePattern_no_parenthesis tail c s :
  startsWith s ")" = false → choicePattern tail (c :: s) = None.
Proof.
  unfold startsWith, choicePattern. intros Hs.
  destruct (isChoiceLetter c); [|done]. by case_lit r Hr.
Qed.

Lemma choiceLineSpan_None b s : choiceLineMatch b s = None → choiceLineSpan b s = None.
Proof.
  intros Hm. pose proof (choiceLineSpan_rest b s) as Hrest. rewrite Hm in Hrest.
  by destruct (choiceLineSpan b s).
Qed.

Lemma lineFeed_no_match b t : choiceLineMatch b ("010"%char :: t) = None.
Proof. by destruct b. Qed.

(** Through a text without choice lines, up to and with the line feed
    that follows it, both scans of [parsePageContent] find nothing. *)
Lemma scan_story (story rest : jsstring) b pos :
  choiceStartFree b story = true →
  (execFrom choiceLineMatch pos 0 b (story ++ "010"%char :: rest)).*2
  = (execFrom choiceLineMatch 0 0 true rest).*2
  ∧ (replaceFrom choiceLineSpan (fun _ => []) 0 b (story ++ "010"%char :: rest)).1
    = story ++ "010"%char :: (replaceFrom choiceLineSpan (fun _ => []) 0 true rest).1.
Proof.
  revert b pos. induction story as [|c story IH]; intros b pos Hfree.
  - simpl app.
    rewrite (execFrom_no_match _ _ _ _ _ (lineFeed_no_match b rest)).
    rewrite (replaceFrom_no_match _ _ _ _ _
               (choiceLineSpan_None _ _ (lineFeed_no_match b rest))).
    split; [apply execFrom_values|done].
  - simpl in Hfree. apply andb_true_iff in Hfree as [Hc Hfree].
    assert (choiceLineMatch b (c :: story ++ "010"%char :: rest) = None) as Hm.
    { unfold choiceLineMatch. destruct b; [|done]. simpl in Hc.
      destruct (isChoiceLetter c) eqn:Hletter.
      - apply choicePattern_no_parenthesis. simpl in Hc.
        apply negb_true_iff in Hc. destruct story as [|d story]; [done|].
        unfold startsWith in *. simpl. rewrite lit_cons in *.
        by destruct (eqChar ")" d).
      - unfold choicePattern. by rewrite Hletter. }
    rewrite <- app_comm_cons.
    rewrite (execFrom_no_match _ _ _ _ _ Hm).
    rewrite (replaceFrom_no_match _ _ _ _ _ (choiceLineSpan_None _ _ Hm)).
    destruct (IH (isLineTerminator c) (S pos) Hfree) as [-> ->]. done.
Qed.

(** ** Writing a page and reading it back *)

(** The choices that survive being written as a line: one lower-case
    letter, a text of one line that is not blank, and either a jump target
    made of digits and lower-case letters, or no target and a text that does
    not start with a bracket. *)
Definition exportable (choice : Choice) : Prop :=
  (∃ l, letter choice = [l] ∧ isLowerChoiceLetter l = true)
  ∧ forallb notLineTerminator (text choice) = true
  ∧ trim (text choice) ≠ []
  ∧ match goto choice with
    | Some target =>
        ∃ ds ls, target = ds ++ ls ∧ ds ≠ []
                 ∧ forallb isDigit ds = true
                 ∧ forallb isLowerChoiceLetter ls = true
    | None => head (trimStart (text choice)) ≠ Some "["%char
    end.

(** A choice as it is read back: its text trimmed. *)
Definition normalizeChoice (choice : Choice) : Choice :=
  {| letter := letter choice; text := trim (text choice); goto := goto choice |}.

Lemma spacesThen_skip {A} (k : jsstring → option A) ws r a :
  forallb isSpace ws = true →
  match r with c :: _ => isSpace c = false | [] => True end →
  k r = Some a → spacesThen k (ws ++ r) = Some a.
Proof.
  intros Hws Hr Hk. induction ws as [|c ws IH].
  - destruct r as [|d r]; simpl; [done|]. by rewrite Hr.
  - simpl in Hws. apply andb_true_iff in Hws as [Hc Hws].
    simpl. rewrite Hc, (IH Hws). done.
Qed.

Arguments spacesThen : simpl never.

Lemma restOfLine_line body t :
  forallb notLineTerminator body = true → body ≠ [] →
  match t with d :: _ => isLineTerminator d = true | [] => True end →
  restOfLine (body ++ t) = Some (body, t).
Proof.
  intros Hbody Hne Ht. unfold restOfLine. rewrite (span_exact _ body t Hbody).
  - by destruct body.
  - destruct t as [|d t]; [done|]. unfold notLineTerminator. by rewrite Ht.
Qed.

Lemma bracketedPageId_target ds ls r :
  ds ≠ [] → forallb isDigit ds = true → forallb isLowerChoiceLetter ls = true →
  bracketedPageId ("["%char :: (ds ++ ls) ++ "]"%char :: r) = Some (ds ++ ls, r).
Proof.
  intros Hds Hdigits Hletters. unfold bracketedPageId.
  change (lit eqChar "[" ("["%char :: (ds ++ ls) ++ "]"%char :: r))
    with (Some ((ds ++ ls) ++ "]"%char :: r)).
  simpl mbind. cbn beta. rewrite <- app_assoc.
  assert (forallb isChoiceLetter ls = true) as Hchoice.
  { eapply forallb_impl; [|exact Hletters]. apply isLowerChoiceLetter_choice. }
  rewrite (span_exact isDigit ds (ls ++ "]"%char :: r) Hdigits); cycle 1.
  { destruct ls as [|c ls]; [done|]. simpl in Hchoice.
    apply andb_true_iff in Hchoice as [Hc _]. by apply isChoiceLetter_not_digit. }
  destruct ds as [|d ds]; [done|]. simpl nonEmpty. cbn iota.
  rewrite (span_exact isChoiceLetter ls ("]"%char :: r) Hchoice) by done.
  reflexivity.
Qed.

Lemma exportable_text choice :
  exportable choice →
  ∃ ws body,
    text choice = ws ++ body ∧ body = trimStart (text choice)
    ∧ forallb isSpace ws = true ∧ body ≠ []
    ∧ forallb notLineTerminator body = true
    ∧ match body with c :: _ => isSpace c = false | [] => True end.
Proof.
  intros (_ & Hline & Hblank & _).
  destruct (trimStart_suffix (text choice)) as (ws & Htext & Hws).
  exists ws, (trimStart (text choice)). split; [done|]. split; [done|].
  split; [done|]. split; [by rewrite <- trim_nil_iff|]. split.
  - rewrite Htext, forallb_app in Hline. by apply andb_true_iff in Hline as [_ ?].
  - destruct (trimStart (text choice)) as [|c r] eqn:Hbody; [done|].
    by eapply trimStart_head.
Qed.

(** The line of an exportable choice, followed by the end of the text or
    by a line terminator, is matched as a whole, and read as the choice
    with its text trimmed. *)
Lemma choiceLine_match choice t :
  exportable choice →
  match t with d :: _ => isLineTerminator d = true | [] => True end →
  ∃ groups l line,
    choiceLine choice = l :: line
    ∧ choicePattern restOfLine (l :: line ++ t) = Some (groups, t)
    ∧ toChoice (toParsedChoice groups) = normalizeChoice choice.
Proof.
  intros Hchoice Ht.
  destruct (exportable_text _ Hchoice) as (ws & body & Htext & Hbody & Hws & Hne & Hline & Hhead).
  destruct Hchoice as ((l & Hl & Hletter) & _ & _ & Hgoto).
  assert (isChoiceLetter l = true) as Hl' by by apply isLowerChoiceLetter_choice.
  assert (∀ target,
            toChoice (toParsedChoice (l, target, body))
            = {| letter := [l]; text := trim (text choice);
                 goto := toLowerCase <$> target |}) as Hread.
  { intros target. unfold toChoice, toParsedChoice. simpl.
    by rewrite (isLowerChoiceLetter_lowerChar _ Hletter), Hbody, trim_trimStart. }
  unfold choiceLine. destruct (goto choice) as [target|] eqn:Htarget.
  - destruct Hgoto as (ds & ls & -> & Hds & Hdigits & Hletters).
    assert (truthyString (Some (ds ++ ls)) = Some (ds ++ ls)) as ->
      by by destruct ds.
    exists (l, Some (ds ++ ls), body), l, (") [" ++ (ds ++ ls) ++ "] " ++ text choice).
    split; [by rewrite Hl|]. split.
    + unfold choicePattern. rewrite Hl'.
      change (lit eqChar ")" ((") [" ++ (ds ++ ls) ++ "] " ++ text choice) ++ t))
        with (Some ((" [" ++ (ds ++ ls) ++ "] " ++ text choice) ++ t)).
      simpl mbind. cbn beta.
      match goal with
      | |- spacesThen _ ?x = _ =>
          replace x
            with ([" "%char]
                  ++ ("["%char :: (ds ++ ls) ++ "]"%char
                                :: ((" "%char :: ws) ++ body ++ t)))
      end.
      2:{ rewrite Htext. by repeat (simpl; rewrite <- ?app_assoc). }
      apply (spacesThen_skip _ [" "%char]
               ("["%char :: (ds ++ ls) ++ "]"%char :: ((" "%char :: ws) ++ body ++ t)));
        [done..|].
      rewrite (bracketedPageId_target _ _ _ Hds Hdigits Hletters). simpl mbind. cbn beta.
      rewrite (spacesThen_skip _ (" "%char :: ws) (body ++ t)
                 (l, Some (ds ++ ls), body, t)); [done| |by destruct body|].
      * simpl. by rewrite Hws.
      * by rewrite (restOfLine_line _ _ Hline Hne Ht).
    + rewrite Hread. unfold normalizeChoice. rewrite Hl, Htarget. simpl.
      rewrite toLowerCase_app, (toLowerCase_digits _ Hdigits).
      by rewrite (toLowerCase_lower _ Hletters).
  - exists (l, None, body), l, (") " ++ text choice).
    split; [by rewrite Hl|]. split.
    + unfold choicePattern. rewrite Hl'.
      change (lit eqChar ")" ((") " ++ text choice) ++ t))
        with (Some (" "%char :: text choice ++ t)).
      simpl mbind. cbn beta.
      match goal with
      | |- spacesThen _ ?x = _ => replace x with ((" "%char :: ws) ++ body ++ t)
      end.
      2:{ rewrite Htext. by repeat (simpl; rewrite <- ?app_assoc). }
      apply (spacesThen_skip _ (" "%char :: ws) (body ++ t));
        [by simpl; rewrite Hws|by destruct body|].
      assert (bracketedPageId (body ++ t) = None) as ->.
      { unfold bracketedPageId. destruct body as [|c body]; [done|].
        simpl. rewrite lit_cons. rewrite <- Hbody in Hgoto.
        destruct (eqChar "[" c) eqn:Hc; [|done].
        apply eqChar_eq in Hc as <-. done. }
      simpl. by rewrite (restOfLine_line _ _ Hline Hne Ht).
    + rewrite Hread. unfold normalizeChoice. by rewrite Hl, Htarget.
Qed.

Lemma skip_line_exec (line t : jsstring) pos b :
  (execFrom choiceLineMatch pos (length line) b (line ++ "010"%char :: t)).*2
  = (execFrom choiceLineMatch 0 0 true t).*2.
Proof.
  revert pos b. induction line as [|c line IH]; intros pos b.
  - simpl app. simpl length.
    rewrite (execFrom_no_match _ _ _ _ _ (lineFeed_no_match b t)).
    apply execFrom_values.
  - simpl. apply IH.
Qed.

Lemma skip_line_replace (line t : jsstring) b :
  (replaceFrom choiceLineSpan (fun _ => []) (length line) b (line ++ "010"%char :: t)).1
  = "010"%char :: (replaceFrom choiceLineSpan (fun _ => []) 0 true t).1.
Proof.
  revert b. induction line as [|c line IH]; intros b.
  - simpl app. simpl length.
    by rewrite (replaceFrom_no_match _ _ _ _ _
                  (choiceLineSpan_None _ _ (lineFeed_no_match b t))).
  - simpl. apply IH.
Qed.

Lemma choiceLineSpan_Some b s groups rest :
  choiceLineMatch b s = Some (groups, rest) → choiceLineSpan b s = Some (tt, rest).
Proof.
  intros Hm. pose proof (choiceLineSpan_rest b s) as Hrest. rewrite Hm in Hrest.
  destruct (choiceLineSpan b s) as [[[] rest']|]; [|done]. by injection Hrest as ->.
Qed.

(** The lines written for exportable choices are read back as these
    choices, and removing them leaves line feeds only. *)
Lemma scan_lines (choices : list Choice) :
  Forall exportable choices →
  (fun groups => toChoice (toParsedChoice groups))
    <$> (execFrom choiceLineMatch 0 0 true (join lineFeed (choiceLine <$> choices))).*2
  = normalizeChoice <$> choices
  ∧ forallb isSpace
      (replaceFrom choiceLineSpan (fun _ => []) 0 true
                   (join lineFeed (choiceLine <$> choices))).1 = true.
Proof.
  induction 1 as [|choice choices Hchoice Hchoices IH]; [done|].
  destruct choices as [|next choices].
  - destruct (choiceLine_match choice [] Hchoice I)
      as (groups & l & line & Hline & Hm & Hread).
    cbn [fmap list_fmap join]. rewrite Hline. rewrite app_nil_r in Hm.
    assert (choiceLineMatch true (l :: line) = Some (groups, [])) as Hmatch by done.
    rewrite (execFrom_match _ _ _ _ _ _ _ Hmatch).
    rewrite (replaceFrom_match _ _ _ _ _ _ _ (choiceLineSpan_Some _ _ _ _ Hmatch)).
    rewrite execFrom_skip_all, replaceFrom_skip_all;
      [|unfold matchLength; simpl; lia..].
    simpl. by rewrite Hread.
  - set (t := join lineFeed (choiceLine <$> next :: choices)) in *.
    destruct (choiceLine_match choice ("010"%char :: t) Hchoice eq_refl)
      as (groups & l & line & Hline & Hm & Hread).
    assert (join lineFeed (choiceLine <$> choice :: next :: choices)
            = l :: line ++ "010"%char :: t) as ->.
    { rewrite !fmap_cons. cbn [join]. rewrite Hline. done. }
    assert (choiceLineMatch true (l :: line ++ "010"%char :: t)
            = Some (groups, "010"%char :: t)) as Hmatch by done.
    rewrite (execFrom_match _ _ _ _ _ _ _ Hmatch).
    rewrite (replaceFrom_match _ _ _ _ _ _ _ (choiceLineSpan_Some _ _ _ _ Hmatch)).
    replace (pred (matchLength (l :: line ++ "010"%char :: t) ("010"%char :: t)))
      with (length line)
      by (unfold matchLength; simpl; rewrite length_app; simpl; lia).
    rewrite fmap_cons, skip_line_exec, skip_line_replace.
    destruct IH as [IHexec IHreplace]. rewrite fmap_cons. simpl.
    by rewrite Hread, IHexec, IHreplace.
Qed.

(** X18.  A page with choices, written by [generatePageContent] and read
    by [parsePageContent], comes back with its content trimmed and its
    choices as they were, their texts trimmed, provided the choices are
    exportable and no line of the content looks like the start of a choice
    line. *)
Theorem page_text_round_trip (page : Page) :
  hasChoices page = true → isEnding page = false →
  pageChoices page ≠ [] →
  Forall exportable (pageChoices page) →
  choiceStartFree true (content page) = true →
  parsePageContent (generatePageContent page)
  = {| content := trim (content page);
       hasChoices := true;
       isEnding := false;
       pageChoices := normalizeChoice <$> pageChoices page |}.
Proof.
  intros HhasChoices Hending Hsome Hchoices Hfree.
  assert (List.filter (fun c => nonEmpty (trim (text c))) (pageChoices page)
          = pageChoices page) as Hfilter.
  { clear -Hchoices. induction Hchoices as [|c cs Hc _ IH]; [done|].
    simpl. destruct Hc as (_ & _ & Hblank & _).
    destruct (trim (text c)); [done|]. simpl. by rewrite IH. }
  set (lines := join lineFeed (choiceLine <$> pageChoices page)).
  assert (generatePageContent page
          = trimEnd (content page) ++ "010"%char :: "010"%char :: lines) as ->.
  { unfold generatePageContent. rewrite HhasChoices, Hending, Hfilter. fold lines.
    destruct (pageChoices page) as [|c cs] eqn:Hcs; [done|]. simpl andb. cbn iota.
    assert (nonEmpty lines = true) as ->; [|done].
    apply Forall_cons in Hchoices as [Hc _].
    destruct (choiceLine_match c [] Hc I) as (groups & l & line & Hline & _).
    unfold lines. rewrite fmap_cons. cbn [join]. rewrite Hline. by destruct (_ <$> cs). }
  assert (choiceStartFree true (trimEnd (content page)) = true) as Hstory.
  { destruct (trimEnd_suffix (content page)) as (ws & Hcontent & _).
    rewrite Hcontent in Hfree. by eapply choiceStartFree_prefix. }
  destruct (scan_story (trimEnd (content page)) ("010"%char :: lines) true 0 Hstory)
    as [Hexec1 Hreplace1].
  destruct (scan_story [] lines true 0 eq_refl) as [Hexec2 Hreplace2].
  simpl app in Hexec2, Hreplace2.
  destruct (scan_lines _ Hchoices) as [Hexec3 Hreplace3]. fold lines in Hexec3, Hreplace3.
  unfold parsePageContent, replaceAll, execAll.
  assert ((fun '(_, groups) => toChoice (toParsedChoice groups))
            <$> execFrom choiceLineMatch 0 0 true
                  (trimEnd (content page) ++ "010"%char :: "010"%char :: lines)
          = normalizeChoice <$> pageChoices page) as ->.
  { rewrite <- Hexec3, <- Hexec2, <- Hexec1, <- list_fmap_compose.
    apply list_fmap_ext. by intros ? [pos groups]. }
  rewrite Hreplace1, Hreplace2.
  destruct (pageChoices page) as [|c cs] eqn:Hcs; [done|]. rewrite fmap_cons.
  cbn iota. cbn [negb andb]. rewrite andb_false_r. f_equal.
  rewrite (trim_app_spaces _ ("010"%char :: "010"%char :: _)); [apply trim_trimEnd|].
  simpl. exact Hreplace3.
Qed.

Definition exportExample : Page :=
  {| content := "The cave is dark.  ";
     hasChoices := true; isEnding := false;
     pageChoices := [ {| letter := "a"; text := " Go in "; goto := None |};
                      {| letter := "b"; text := "Leave"; goto := Some ("3ab" : jsstring) |} ] |}.

Lemma page_text_round_trip_witness :
  parsePageContent (generatePageContent exportExample)
  = {| content := trim (content exportExample);
       hasChoices := true;
       isEnding := false;
       pageChoices := normalizeChoice <$> pageChoices exportExample |}.
Proof.
  apply (page_text_round_trip exportExample); try reflexivity; try done.
  repeat constructor; try (by eexists); try done.
  by exists "3", "ab".
Defined.

(** ** Reachable pages *)

Section Reachability.
Variable pages : gmap jsstring Page.

(** One step of the story: from a page to a page its choices, or its
    continuation, lead to. *)
Definition linked (x y : jsstring) : Prop :=
  ∃ page, pages !! x = Some page ∧ y ∈ successors pages x page.

Lemma successors_exist x page y :
  y ∈ successors pages x page → is_Some (pages !! y).
Proof.
  unfold successors. intros Hy.
  destruct (hasChoices page && negb (isEnding page)).
  - destruct (parsePageId x) as [parsed|]; [|by apply elem_of_nil in Hy].
    apply list_elem_of_filter in Hy as [Hy _].
    unfold pageExists in Hy. by apply bool_decide_unpack in Hy.
  - destruct (negb (isEnding page)); [|by apply elem_of_nil in Hy].
    destruct (parsePageId x) as [parsed|]; [|by apply elem_of_nil in Hy].
    destruct (pageExists _ _) eqn:Hexists; [|by apply elem_of_nil in Hy].
    apply list_elem_of_singleton in Hy as ->.
    unfold pageExists in Hexists. by apply bool_decide_eq_true in Hexists.
Qed.

Lemma linked_exists x y : linked x y → is_Some (pages !! x) ∧ is_Some (pages !! y).
Proof.
  intros (page & Hpage & Hy). split; [by eexists|]. by eapply successors_exist.
Qed.

(** What the loop returns holds what was visited and the pages waiting in
    the queue, and is closed under steps. *)
Lemma reachableLoop_closed fuel queue reachable result :
  reachableLoop pages fuel queue reachable = Some result →
  (∀ x y, x ∈ reachable → linked x y → y ∈ reachable ∨ y ∈ queue) →
  reachable ⊆ result
  ∧ (∀ x, x ∈ queue → is_Some (pages !! x) → x ∈ result)
  ∧ (∀ x y, x ∈ result → linked x y → y ∈ result).
Proof.
  revert queue reachable.
  induction fuel as [|fuel IH]; intros queue reachable Hloop Hinv.
  { destruct queue; simplify_eq/=. split; [done|]. split.
    - intros x Hx. by apply elem_of_nil in Hx.
    - intros x y Hx Hxy. destruct (Hinv x y Hx Hxy) as [?|Hy]; [done|].
      by apply elem_of_nil in Hy. }
  destruct queue as [|current queue]; simpl in Hloop.
  { simplify_eq. split; [done|]. split.
    - intros x Hx. by apply elem_of_nil in Hx.
    - intros x y Hx Hxy. destruct (Hinv x y Hx Hxy) as [?|Hy]; [done|].
      by apply elem_of_nil in Hy. }
  destruct (pages !! current) as [page|] eqn:Hpage.
  - case_bool_decide as Hseen.
    + destruct (IH _ _ Hloop) as (Hsub & Hqueue & Hclosed).
      { intros x y Hx Hxy. destruct (Hinv x y Hx Hxy) as [?|Hy]; [by left|].
        apply elem_of_cons in Hy as [->|Hy]; [by left|by right]. }
      split; [done|]. split; [|done].
      intros x Hx Hexists. apply elem_of_cons in Hx as [->|Hx]; [by apply Hsub|].
      by apply Hqueue.
    + destruct (IH _ _ Hloop) as (Hsub & Hqueue & Hclosed).
      { intros x y Hx Hxy. apply elem_of_union in Hx as [Hx|Hx].
        - apply elem_of_singleton in Hx as ->. right.
          destruct Hxy as (page' & Hpage' & Hy). simplify_eq.
          apply elem_of_app. by right.
        - destruct (Hinv x y Hx Hxy) as [?|Hy].
          { left. apply elem_of_union. by right. }
          apply elem_of_cons in Hy as [->|Hy].
          { left. apply elem_of_union. left. by apply elem_of_singleton. }
          right. apply elem_of_app. by left. }
      assert (current ∈ result) as Hcurrent.
      { apply Hsub, elem_of_union. left. by apply elem_of_singleton. }
      split.
      { intros x Hx. apply Hsub, elem_of_union. by right. }
      split; [|done].
      intros x Hx Hexists. apply elem_of_cons in Hx as [->|Hx]; [done|].
      apply Hqueue; [|done]. apply elem_of_app. by left.
  - destruct (IH _ _ Hloop) as (Hsub & Hqueue & Hclosed).
    { intros x y Hx Hxy. destruct (Hinv x y Hx Hxy) as [?|Hy]; [by left|].
      apply elem_of_cons in Hy as [->|Hy]; [|by right].
      apply linked_exists in Hxy as [_ [page Hy]]. congruence. }
    split; [done|]. split; [|done].
    intros x Hx Hexists. apply elem_of_cons in Hx as [->|Hx].
    + destruct Hexists as [page Hx]. congruence.
    + by apply Hqueue.
Qed.

(** What the loop returns is made of pages that steps lead to. *)
Lemma reachableLoop_sound (good : jsstring → Prop) fuel queue reachable result :
  reachableLoop pages fuel queue reachable = Some result →
  (∀ x y, good x → linked x y → good y) →
  (∀ x, x ∈ reachable → good x) →
  (∀ x, x ∈ queue → is_Some (pages !! x) → good x) →
  ∀ x, x ∈ result → good x.
Proof.
  intros Hloop Hstep. revert queue reachable Hloop.
  induction fuel as [|fuel IH]; intros queue reachable Hloop Hvisited Hqueue.
  { destruct queue; simplify_eq/=. done. }
  destruct queue as [|current queue]; simpl in Hloop; [by simplify_eq|].
  destruct (pages !! current) as [page|] eqn:Hpage.
  - case_bool_decide as Hseen.
    + apply (IH _ _ Hloop); [done|].
      intros x Hx. apply Hqueue. by right.
    + assert (good current) as Hcurrent.
      { apply Hqueue; [by left|by eexists]. }
      apply (IH _ _ Hloop).
      * intros x Hx. apply elem_of_union in Hx as [Hx|Hx]; [|by apply Hvisited].
        by apply elem_of_singleton in Hx as ->.
      * intros x Hx Hexists. apply elem_of_app in Hx as [Hx|Hx].
        -- apply Hqueue; [by right|done].
        -- apply (Hstep current); [done|]. by exists page.
  - apply (IH _ _ Hloop); [done|].
    intros x Hx. apply Hqueue. by right.
Qed.

Definition startId : jsstring := "1".



End Reachability.

(** ** Descendants *)

Section DescendantsShape.
Context {P : Type}.
Variable pages : gmap jsstring P.
Variable maxChoices : nat.







End DescendantsShape.



(** ** Copying a page with its descendants *)

Section EntryFolds.
Context {D : Type}.
Variable entry : D → option (jsstring * Page).


End EntryFolds.

Section CopyPage.
Variable pages : gmap jsstring Page.
Variables s t : ParsedPageId.





End CopyPage.




(** ** Operators of conditions *)

Section ConditionOperators.
Context `{Num : JSNumber}.


End ConditionOperators.

(** ** The page tree of the editor *)

Section TreeProperties.
Variable pages : gmap jsstring Page.

(** One step of the tree: from a page to a page [buildNode] goes on
    with. *)
Definition treeLinked (x y : jsstring) : Prop :=
  ∃ page, pages !! x = Some page ∧ y ∈ treeTargets pages x page.

Definition nodeIds (nodes : list PageTreeNode) : list jsstring :=
  treeId <$> flattenTree nodes.

(** What a node made by [buildNode] says about its page. *)
Definition builtNode (node : PageTreeNode) : Prop :=
  treeIsOrphan node = false
  ∧ ∃ page,
      pages !! treeId node = Some page
      ∧ (treeIsDeadEnd node = true →
         isEnding page = false ∧ hasChoices page = false)
      ∧ (isEnding page = false → hasChoices page = false →
         treeTargets pages (treeId node) page = [] →
         treeIsDeadEnd node = true).

(** What a run of [buildNode] from the ids [starts] leaves behind, from
    the set [visited] to the set [visited']. *)
Definition visitOk (starts : jsstring → Prop) (visited : gset jsstring)
    (nodes : list PageTreeNode) (visited' : gset jsstring) : Prop :=
  NoDup (nodeIds nodes)
  ∧ (∀ x, x ∈ visited' ↔ x ∈ visited ∨ x ∈ nodeIds nodes)
  ∧ (∀ x, x ∈ nodeIds nodes → x ∉ visited)
  ∧ Forall builtNode (flattenTree nodes)
  ∧ (∀ x y, x ∈ nodeIds nodes → treeLinked x y → y ∈ visited')
  ∧ (∀ x, x ∈ nodeIds nodes → ∃ start, starts start ∧ rtc treeLinked start x).

Lemma nodeIds_app nodes1 nodes2 :
  nodeIds (nodes1 ++ nodes2) = nodeIds nodes1 ++ nodeIds nodes2.
Proof. unfold nodeIds, flattenTree. by rewrite flat_map_app, fmap_app. Qed.

Lemma flattenTree_app nodes1 nodes2 :
  flattenTree (nodes1 ++ nodes2) = flattenTree nodes1 ++ flattenTree nodes2.
Proof. unfold flattenTree. by rewrite flat_map_app. Qed.

Lemma visitOk_nil starts visited : visitOk starts visited [] visited.
Proof.
  repeat split; simpl.
  - constructor.
  - by left.
  - intros [?|Hx]; [done|]. by apply elem_of_nil in Hx.
  - intros x Hx. by apply elem_of_nil in Hx.
  - constructor.
  - intros x y Hx. by apply elem_of_nil in Hx.
  - intros x Hx. by apply elem_of_nil in Hx.
Qed.

Lemma visitOk_app (starts1 starts2 starts : jsstring → Prop)
    visited nodes1 visited1 nodes2 visited2 :
  (∀ x, starts1 x → starts x) → (∀ x, starts2 x → starts x) →
  visitOk starts1 visited nodes1 visited1 →
  visitOk starts2 visited1 nodes2 visited2 →
  visitOk starts visited (nodes1 ++ nodes2) visited2.
Proof.
  intros Hs1 Hs2 (Hdup1 & Hin1 & Hnew1 & Hbuilt1 & Hclosed1 & Hsound1)
         (Hdup2 & Hin2 & Hnew2 & Hbuilt2 & Hclosed2 & Hsound2).
  unfold visitOk. rewrite nodeIds_app, flattenTree_app.
  split; [|split; [|split; [|split; [|split]]]].
  - apply NoDup_app. split; [done|]. split; [|done].
    intros x Hx1 Hx2. apply (Hnew2 x Hx2). apply Hin1. by right.
  - intros x. rewrite Hin2, Hin1, elem_of_app. tauto.
  - intros x Hx. apply elem_of_app in Hx as [Hx|Hx]; [by apply Hnew1|].
    intros Hv. apply (Hnew2 x Hx). apply Hin1. by left.
  - by apply Forall_app.
  - intros x y Hx Hxy. apply elem_of_app in Hx as [Hx|Hx].
    + apply Hin2. left. by apply (Hclosed1 x).
    + by apply (Hclosed2 x).
  - intros x Hx. apply elem_of_app in Hx as [Hx|Hx].
    + destruct (Hsound1 x Hx) as (s & Hs & Hrtc). exists s. split; [by apply Hs1|done].
    + destruct (Hsound2 x Hx) as (s & Hs & Hrtc). exists s. split; [by apply Hs2|done].
Qed.

Lemma visitOk_mono starts visited nodes visited' :
  visitOk starts visited nodes visited' → visited ⊆ visited'.
Proof. intros (_ & Hin & _) x Hx. apply Hin. by left. Qed.

Lemma unvisited_mono (visited visited' : gset jsstring) :
  visited ⊆ visited' →
  size (unvisited pages visited') ≤ size (unvisited pages visited).
Proof.
  intros Hsub. apply map_subseteq_size. unfold unvisited.
  apply map_subseteq_spec. intros k page Hk.
  apply map_lookup_filter_Some in Hk as [Hk Hnot].
  apply map_lookup_filter_Some. split; [done|]. simpl in *.
  intros Hv. apply Hnot. by apply Hsub.
Qed.

Lemma unvisited_size_visit visited id :
  is_Some (pages !! id) → id ∉ visited →
  S (size (unvisited pages ({[id]} ∪ visited))) = size (unvisited pages visited).
Proof.
  intros [page Hpage] Hnot. rewrite unvisited_visit.
  pose proof (unvisited_lookup pages visited id page Hpage Hnot) as Hlook.
  rewrite map_size_delete_Some by by eexists.
  assert (size (unvisited pages visited) ≠ 0); [|lia].
  intros Hzero. apply map_size_empty_inv in Hzero.
  rewrite Hzero in Hlook. by rewrite lookup_empty in Hlook.
Qed.

Lemma treeTargets_exist id page t :
  t ∈ treeTargets pages id page → is_Some (pages !! t).
Proof.
  unfold treeTargets. intros Ht.
  destruct (hasChoices page && negb (isEnding page)).
  { apply list_elem_of_filter in Ht as [Ht _].
    unfold pageExists in Ht. by apply bool_decide_unpack in Ht. }
  destruct (negb (isEnding page)); [|by apply elem_of_nil in Ht].
  destruct (parsePageId id) as [parsed|]; [|by apply elem_of_nil in Ht].
  simpl in Ht.
  destruct (pageExists pages _) eqn:Hexists; [|by apply elem_of_nil in Ht].
  apply list_elem_of_singleton in Ht as ->.
  unfold pageExists in Hexists. by apply bool_decide_eq_true in Hexists.
Qed.

(** The loop of [buildNode] over the ids it goes on with. *)
Definition visitChildren (fuel : nat) (depth : nat)
    (acc : option (list PageTreeNode * gset jsstring)) (targetId : jsstring)
  : option (list PageTreeNode * gset jsstring) :=
  '(children, visited) ← acc;
  '(childNode, visited') ← buildNode pages fuel visited targetId (S depth);
  Some (children ++ option_list childNode, visited').

Lemma buildNode_visit fuel :
  ∀ visited id depth,
    size (unvisited pages visited) < fuel →
    ∃ node visited',
      buildNode pages fuel visited id depth = Some (node, visited')
      ∧ visitOk (eq id) visited (option_list node) visited'
      ∧ (is_Some (pages !! id) → id ∈ visited').
Proof.
  induction fuel as [|fuel IH]; intros visited id depth Hfuel; [lia|].
  simpl. destruct (pages !! id) as [page|] eqn:Hpage.
  2:{ exists None, visited. split; [done|]. split; [apply visitOk_nil|].
      by intros [? ?]. }
  case_bool_decide as Hseen.
  { exists None, visited. split; [done|]. split; [apply visitOk_nil|done]. }
  assert (size (unvisited pages ({[id]} ∪ visited)) < fuel) as Hfuel'.
  { pose proof (unvisited_size_visit visited id) as Hsize.
    rewrite <- Hsize in Hfuel; [lia|by eexists|done]. }
  assert (∀ targets children0 visited0,
            size (unvisited pages visited0) < fuel →
            ∃ children visited',
              foldl (visitChildren fuel depth) (Some (children0, visited0)) targets
              = Some (children0 ++ children, visited')
              ∧ visitOk (fun t => t ∈ targets) visited0 children visited'
              ∧ (∀ t, t ∈ targets → is_Some (pages !! t) → t ∈ visited'))
    as Hloop.
  { clear Hfuel'. induction targets as [|t targets IHt]; intros children0 visited0 Hsize.
    { exists [], visited0. simpl. rewrite app_nil_r. split; [done|].
      split; [apply visitOk_nil|]. intros t Ht. by apply elem_of_nil in Ht. }
    destruct (IH visited0 t (S depth) Hsize) as (node & visited1 & Hnode & Hok1 & Ht).
    assert (size (unvisited pages visited1) < fuel) as Hsize1.
    { pose proof (unvisited_mono _ _ (visitOk_mono _ _ _ _ Hok1)). lia. }
    destruct (IHt (children0 ++ option_list node) visited1 Hsize1)
      as (children & visited' & Hfold & Hok2 & Hts).
    exists (option_list node ++ children), visited'.
    split.
    { simpl. rewrite Hnode. simpl. rewrite Hfold. by rewrite app_assoc. }
    split.
    { apply (visitOk_app (eq t) (fun x => x ∈ targets) _ _ _ visited1); try done.
      - intros x <-. by left.
      - intros x Hx. by right. }
    intros x Hx Hexists. apply elem_of_cons in Hx as [->|Hx].
    - apply (visitOk_mono _ _ _ _ Hok2). by apply Ht.
    - by apply Hts. }
  destruct (Hloop (treeTargets pages id page) [] ({[id]} ∪ visited) Hfuel')
    as (children & visited' & Hfold & Hok & Htargets).
  change (foldl _ _ _) with
    (foldl (visitChildren fuel depth) (Some ([], {[id]} ∪ visited))
           (treeTargets pages id page)).
  rewrite Hfold. simpl.
  eexists _, visited'. split; [done|].
  destruct Hok as (Hdup & Hin & Hnew & Hbuilt & Hclosed & Hsound).
  assert (id ∈ visited') as Hid.
  { apply Hin. left. apply elem_of_union_l, elem_of_singleton. done. }
  split; [|done].
  unfold visitOk, nodeIds, flattenTree. simpl. rewrite !app_nil_r.
  fold (flattenTree children). fold (nodeIds children).
  split; [|split; [|split; [|split; [|split]]]].
  - constructor; [|done]. intros Hx. apply (Hnew id Hx).
    apply elem_of_union_l, elem_of_singleton. done.
  - intros x. rewrite Hin, elem_of_union, elem_of_singleton, elem_of_cons. tauto.
  - intros x Hx Hv. apply elem_of_cons in Hx as [->|Hx]; [done|].
    apply (Hnew x Hx). by apply elem_of_union_r.
  - constructor; [|done]. split; [done|]. exists page. simpl.
    split; [done|]. split.
    + intros Hdead. apply andb_prop in Hdead as [Hdead Hchoices].
      apply andb_prop in Hdead as [Hending _].
      by destruct (isEnding page), (hasChoices page).
    + intros Hending Hchoices Hnone. rewrite Hnone in Hfold. simpl in Hfold.
      injection Hfold as <- _. by rewrite Hending, Hchoices.
  - intros x y Hx Hxy. apply elem_of_cons in Hx as [->|Hx]; [|by apply (Hclosed x)].
    destruct Hxy as (page' & Hpage' & Hy). rewrite Hpage in Hpage'.
    injection Hpage' as <-. apply Htargets; [done|].
    by apply (treeTargets_exist id page).
  - intros x Hx. exists id. split; [done|].
    apply elem_of_cons in Hx as [->|Hx]; [done|].
    destruct (Hsound x Hx) as (t & Ht & Hrtc).
    apply rtc_l with t; [|done]. by exists page.
Qed.

Lemma keys_elem (id : jsstring) :
  id ∈ (map_to_list pages).*1 ↔ is_Some (pages !! id).
Proof.
  rewrite list_elem_of_fmap. split.
  - intros ([k page] & -> & Hin). apply elem_of_map_to_list in Hin. by eexists.
  - intros [page Hpage]. exists (id, page). split; [done|].
    by apply elem_of_map_to_list.
Qed.

Lemma orphanNodes_flat ids :
  flattenTree (orphanNode <$> ids) = orphanNode <$> ids.
Proof. induction ids as [|id ids IH]; [done|]. simpl. by f_equal. Qed.

(** The run of [buildPageTree]: its tree and the pages it has visited. *)
Lemma buildPageTreeVisited_spec :
  ∃ root visited,
    buildPageTreeVisited pages
    = Some (root
            ++ (orphanNode <$>
                  filter (fun id => id ∉ visited) (map_to_list pages).*1),
            visited)
    ∧ NoDup (nodeIds root)
    ∧ Forall builtNode (flattenTree root)
    ∧ (∀ id, id ∈ nodeIds root ↔ id ∈ visited)
    ∧ (∀ id, id ∈ visited ↔
             is_Some (pages !! startId) ∧ rtc treeLinked startId id).
Proof.
  unfold buildPageTreeVisited.
  destruct (pages !! ("1" : jsstring)) as [page|] eqn:Hfirst.
  - destruct (buildNode_visit (S (size pages)) ∅ "1" 0)
      as (node & visited & Hnode & Hok & Hstart).
    { rewrite unvisited_empty. lia. }
    rewrite Hnode. simpl. exists (option_list node), visited.
    split; [done|].
    destruct Hok as (Hdup & Hin & Hnew & Hbuilt & Hclosed & Hsound).
    assert (∀ id, id ∈ nodeIds (option_list node) ↔ id ∈ visited) as Hids.
    { intros id. rewrite Hin. split; [by right|].
      intros [Hid|Hid]; [by apply elem_of_empty in Hid|done]. }
    split; [done|]. split; [done|]. split; [done|].
    intros id. split.
    + intros Hid. split; [by exists page|].
      apply Hids in Hid. destruct (Hsound id Hid) as (s & <- & Hrtc). done.
    + intros [_ Hrtc]. revert id Hrtc.
      apply (rtc_ind_r (fun id => id ∈ visited) startId).
      * apply Hstart. by eexists.
      * intros y z _ Hyz Hy. apply (Hclosed y); [|done]. by apply Hids.
  - simpl. exists [], ∅. split; [done|]. split; [constructor|].
    split; [constructor|]. split.
    + intros id. split; intros Hid; [by apply elem_of_nil in Hid|].
      by apply elem_of_empty in Hid.
    + intros id. split; [intros Hid; by apply elem_of_empty in Hid|].
      intros [[page Hpage] _]. unfold startId in Hpage. congruence.
Qed.

Lemma treeLinked_exists x y : treeLinked x y → is_Some (pages !! y).
Proof. intros (page & _ & Hy). by apply (treeTargets_exist x page). Qed.

Lemma treeReachable_exists id :
  is_Some (pages !! startId) → rtc treeLinked startId id → is_Some (pages !! id).
Proof.
  intros Hfirst Hrtc. revert id Hrtc.
  apply (rtc_ind_r (fun id => is_Some (pages !! id)) startId); [done|].
  intros y z _ Hyz _. by apply (treeLinked_exists y).
Qed.

(** The nodes of the tree: those of the root's tree, then one per page
    that has not been visited. *)
Definition reachableInTree (id : jsstring) : Prop :=
  is_Some (pages !! startId) ∧ rtc treeLinked startId id.

Definition describesPage (node : PageTreeNode) : Prop :=
  (treeIsOrphan node = false ↔ reachableInTree (treeId node))
  ∧ ∃ page,
      pages !! treeId node = Some page
      ∧ (treeIsDeadEnd node = true →
         treeIsOrphan node = false
         ∧ isEnding page = false ∧ hasChoices page = false)
      ∧ (treeIsOrphan node = false →
         isEnding page = false → hasChoices page = false →
         (∀ id, ¬ treeLinked (treeId node) id) →
         treeIsDeadEnd node = true).

Lemma buildPageTree_nodes :
  ∃ root (visited : gset jsstring),
    buildPageTree pages
    = Some (root ++ (orphanNode <$>
                       filter (fun id => id ∉ visited) (map_to_list pages).*1))
    ∧ NoDup (nodeIds root)
    ∧ (∀ id, id ∈ nodeIds root ↔ id ∈ visited)
    ∧ (∀ id, id ∈ visited → is_Some (pages !! id))
    ∧ ∀ node,
        node ∈ flattenTree
                 (root ++ (orphanNode <$>
                             filter (fun id => id ∉ visited) (map_to_list pages).*1)) →
        describesPage node.
Proof.
  destruct buildPageTreeVisited_spec
    as (root & visited & Hrun & Hdup & Hbuilt & Hids & Hvisited).
  exists root, visited. unfold buildPageTree. rewrite Hrun. simpl.
  split; [done|]. split; [done|]. split; [done|]. split.
  { intros id Hid. apply Hvisited in Hid as [Hfirst Hrtc].
    by apply treeReachable_exists. }
  intros node Hnode. rewrite flattenTree_app, orphanNodes_flat in Hnode.
  unfold describesPage, reachableInTree.
  apply elem_of_app in Hnode as [Hnode|Hnode].
  - pose proof (proj1 (Forall_forall _ _) Hbuilt node Hnode)
      as (Horphan & page & Hpage & Hdead & Hflag).
    assert (treeId node ∈ visited) as Hv.
    { apply Hids. unfold nodeIds. apply list_elem_of_fmap. by exists node. }
    split; [split; [intros _; by apply Hvisited|done]|].
    exists page. split; [done|]. split.
    + intros Hd. split; [done|]. by apply Hdead.
    + intros _ Hending Hchoices Hnone. apply Hflag; [done|done|].
      destruct (treeTargets pages (treeId node) page) as [|t ts] eqn:Hts; [done|].
      exfalso. apply (Hnone t). exists page. split; [done|]. rewrite Hts. by left.
  - apply list_elem_of_fmap in Hnode as (id & -> & Hid).
    apply list_elem_of_filter in Hid as [Hout Hid]. simpl.
    split; [split; [done|]|].
    + intros Hreach. by apply Hvisited in Hreach.
    + apply keys_elem in Hid as [page Hpage].
      exists page. split; [done|]. split; done.
Qed.


(** Every page has a node, and every node a page. *)
Lemma buildPageTree_pages :
  ∃ tree,
    buildPageTree pages = Some tree
    ∧ (∀ id, id ∈ treeId <$> flattenTree tree ↔ is_Some (pages !! id))
    ∧ ∀ node, node ∈ flattenTree tree → describesPage node.
Proof.
  destruct buildPageTree_nodes
    as (root & visited & Htree & Hdup & Hids & Hexist & Hnodes).
  eexists. split; [done|]. split; [|done].
  intros k. rewrite flattenTree_app, orphanNodes_flat.
  rewrite fmap_app, <- list_fmap_compose.
  change (treeId ∘ orphanNode) with (@id jsstring). rewrite list_fmap_id.
  rewrite elem_of_app, list_elem_of_filter, keys_elem. split.
  - intros [Hk|[_ Hk]]; [|done]. by apply Hexist, Hids.
  - intros Hk. destruct (decide (k ∈ visited)) as [Hv|Hv]; [left|by right].
    by apply Hids.
Qed.
End TreeProperties.

(** ** The validation of a story *)






Section ValidationProperties.
Context {A : Type}.
Variable pages : gmap jsstring Page.
Variable assets : gmap jsstring A.







End ValidationProperties.

(** ** The page tree and the story graph *)

(** The choices of a page that offers them carry the first letters of
    the alphabet of choices, in their order. *)
Definition lettersInOrder (page : Page) : Prop :=
  hasChoices page = true → isEnding page = false →
  pageChoices page ≠ []
  ∧ letter <$> pageChoices page
    = (fun c => [c]) <$> take (length (pageChoices page)) ("abcde" : jsstring).

Lemma find_distinct (choices : list Choice) (choice : Choice) :
  NoDup (letter <$> choices) → choice ∈ choices →
  List.find (fun c => eqString (letter c) (letter choice)) choices = Some choice.
Proof.
  induction choices as [|c choices IH]; intros Hdup Hin.
  { by apply elem_of_nil in Hin. }
  rewrite fmap_cons in Hdup. apply NoDup_cons in Hdup as [Hfresh Hdup]. simpl.
  apply elem_of_cons in Hin as [->|Hin].
  { by rewrite eqString_refl. }
  destruct (eqString (letter c) (letter choice)) eqn:Heq.
  - exfalso. apply Hfresh. apply eqString_eq in Heq. rewrite Heq.
    apply list_elem_of_fmap. by exists choice.
  - by apply IH.
Qed.

Section TreeAndGraph.
Variable pages : gmap jsstring Page.

Lemma treeTargets_successors id page :
  lettersInOrder page → treeTargets pages id page = successors pages id page.
Proof.
  intros Hletters. unfold treeTargets, successors.
  destruct (hasChoices page) eqn:Hchoices; simpl; [|done].
  destruct (isEnding page) eqn:Hending; simpl; [done|].
  destruct (Hletters Hchoices Hending) as [Hsome Horder].
  unfold getChildIds. destruct (parsePageId id) as [parsed|]; [|done].
  simpl. f_equal.
  assert (choiceCountOr2 page = length (pageChoices page)) as ->.
  { unfold choiceCountOr2. by destruct (pageChoices page). }
  assert (NoDup (letter <$> pageChoices page)) as Hdup.
  { rewrite Horder. apply NoDup_fmap_2; [by intros ?? [=]|].
    apply (sublist_NoDup _ ("abcde" : jsstring)); [|apply sublist_take].
    apply (@bool_decide_unpack _ (NoDup_dec _)). by vm_compute. }
  transitivity
    (treeTarget page <$>
       ((fun s => (s, numberToString (num parsed + 1) ++ path parsed ++ s)) <$>
          ((fun c => [c]) <$> take (length (pageChoices page)) ("abcde" : jsstring)))).
  { by rewrite <- !list_fmap_compose. }
  rewrite <- Horder, <- !list_fmap_compose.
  apply list_fmap_ext. intros i choice Hi. simpl.
  unfold findChoice, choiceTarget.
  rewrite (find_distinct _ choice Hdup) by by eapply list_elem_of_lookup_2.
  by destruct (truthyString (goto choice)).
Qed.

Hypothesis standard : ∀ id page, pages !! id = Some page → lettersInOrder page.

Lemma treeLinked_linked x y : treeLinked pages x y ↔ linked pages x y.
Proof.
  unfold treeLinked, linked. split; intros (page & Hpage & Hy); exists page.
  - by rewrite <- (treeTargets_successors x page (standard x page Hpage)).
  - by rewrite (treeTargets_successors x page (standard x page Hpage)).
Qed.

(** X26.  In a story whose pages letter their choices in order, the page
    tree of the editor and the graph of the story agree on the pages that
    can be reached: a node of the tree is no orphan exactly when its page
    is in the set of reachable pages [buildGraphData] computes. *)
Theorem tree_and_graph_agree :
  ∃ tree reachable,
    buildPageTree pages = Some tree
    ∧ reachableSet pages = Some reachable
    ∧ ∀ node, node ∈ flattenTree tree →
              (treeIsOrphan node = false ↔ treeId node ∈ reachable).
Proof.
  destruct (buildPageTree_pages pages) as (tree & Htree & Hids & Hnodes).
  destruct (reachableSet_terminates pages) as [reachable Hloop].
  exists tree, reachable. split; [done|]. split; [done|].
  unfold reachableSet in Hloop.
  destruct (reachableLoop_closed _ _ _ _ _ Hloop) as (_ & Hstart & Hclosed).
  { intros x y Hx. by apply elem_of_empty in Hx. }
  intros node Hnode. destruct (Hnodes node Hnode) as [-> _].
  unfold reachableInTree. split.
  - intros [Hfirst Hrtc]. revert Hrtc. generalize (treeId node).
    apply (rtc_ind_r (fun id => id ∈ reachable) startId).
    + apply Hstart; [by left|done].
    + intros y z _ Hyz Hy. apply (Hclosed y); [done|]. by apply treeLinked_linked.
  - generalize (treeId node).
    apply (reachableLoop_sound pages
             (fun id => is_Some (pages !! startId) ∧ rtc (treeLinked pages) startId id)
             _ _ _ _ Hloop).
    + intros x y [Hfirst Hx] Hxy. split; [done|].
      eapply rtc_r; [done|]. by apply treeLinked_linked.
    + intros x Hx. by apply elem_of_empty in Hx.
    + intros x Hx Hexists. apply list_elem_of_singleton in Hx as ->. done.
Qed.
End TreeAndGraph.

Definition forkPage (goto1 : option jsstring) : Page :=
  {| content := "A fork"; hasChoices := true; isEnding := false;
     pageChoices := [ {| letter := "a"; text := "Left"; goto := goto1 |};
                      {| letter := "b"; text := "Right"; goto := None |} ] |}.

Definition forkExample : gmap jsstring Page :=
  {[ ("1" : jsstring) := forkPage (Some ("3b" : jsstring));
     ("2b" : jsstring) := plainPage;
     ("3b" : jsstring) := forkPage None;
     ("7" : jsstring) := plainPage ]}.

Lemma tree_and_graph_agree_witness :
  ∃ tree reachable,
    buildPageTree forkExample = Some tree
    ∧ reachableSet forkExample = Some reachable
    ∧ ∀ node, node ∈ flattenTree tree →
              (treeIsOrphan node = false ↔ treeId node ∈ reachable).
Proof.
  apply (tree_and_graph_agree forkExample).
  intros id page Hpage. apply elem_of_map_to_list in Hpage.
  assert (Forall lettersInOrder (map_to_list forkExample).*2) as Hall.
  { vm_compute. repeat constructor; done. }
  apply (proj1 (Forall_forall _ _) Hall), list_elem_of_fmap.
  by exists (id, page).
Defined.
